(** * Connection-state coordinator of the real-time chat server

    A shallow embedding of the socket handlers of [server.js]
    (rooms with presence counts, and the anonymous one-to-one
    "stranger" pairing) and of its account routes (registration, login,
    logout), followed by the properties of the specification that
    concern them.

    Conventions of the embedding.
    - A JavaScript string is a [string]; one character stands for one
      UTF-16 code unit, which is the unit [String.prototype.slice] counts.
    - [null] and [undefined] stored in a variable that otherwise holds a
      string are both [None]; the truthiness test of such a variable is
      [truthy_str].
    - [nanoid()] and [Date.now()] are inputs of the handler that calls
      them: the value the call returned.
    - A conversion [String(v)] that throws is [None], and a listener or
      route that throws ends in [Throw]: it has changed and emitted
      nothing by then.
    - A listener that awaits the store is given in parts, one for each
      stretch it runs without interruption; other events may be handled
      between two parts.
    - A handler is a computation in the monad [M]: it reads and updates
      the shared state and appends to the log of emitted events. *)

From stdpp Require Import gmap strings list fin_maps pretty sorting.

Set Warnings "-register-all,-clear-no-such-hyp".


(** ** JavaScript values carried by inbound events *)

(** Payloads arrive as JSON. [JNum n] is the number [n], an integer; the
    values of the model that stand for JavaScript values are singled out
    by [js_value] below. *)
Inductive JsVal : Type :=
| JUndefined
| JNull
| JBool (b : bool)
| JNum (n : Z)
| JStr (s : string)
| JArr (xs : list JsVal)
| JObj (fields : list (string * JsVal)).

(** ToBoolean: what [if (v)], [!v] and [v || w] test. *)
Definition truthy (v : JsVal) : bool :=
  match v with
  | JUndefined | JNull => false
  | JBool b => b
  | JNum n => negb (n =? 0)%Z
  | JStr s => negb (String.eqb s "")
  | JArr _ | JObj _ => true
  end.

(** An integer that JSON carries exactly and [String] prints with all
    its digits. *)
Definition safe_integer (n : Z) : bool := (Z.abs n <? 2 ^ 53)%Z.

(** The values of the model that stand for JavaScript values: every
    number is a safe integer and no object lists a key twice. *)
Fixpoint js_value (v : JsVal) : bool :=
  match v with
  | JNum n => safe_integer n
  | JArr xs => forallb js_value xs
  | JObj fields =>
      bool_decide (NoDup (map fst fields))
      && forallb (λ kv : string * JsVal, js_value kv.2) fields
  | _ => true
  end.

(** Whether an object holds the property [k] itself. *)
Fixpoint has_field (k : string) (fields : list (string * JsVal)) : bool :=
  match fields with
  | [] => false
  | (k', _) :: rest => String.eqb k k' || has_field k rest
  end.

(** [String(v)]; [None] when the conversion throws a TypeError. An array
    prints its elements separated by commas, with [null] and [undefined]
    elements printed as nothing, and throws when an element does. A plain
    object prints as [[object Object]] through [Object.prototype.toString];
    when it holds a property [toString] itself, that one is called for
    instead, and no value that JSON carries is callable: neither it nor
    [valueOf] gives a primitive, and the conversion throws. *)
Fixpoint js_String (v : JsVal) : option string :=
  match v with
  | JUndefined => Some "undefined"
  | JNull => Some "null"
  | JBool true => Some "true"
  | JBool false => Some "false"
  | JNum n => Some (pretty n)
  | JStr s => Some s
  | JArr xs =>
      (fix join (l : list JsVal) : option string :=
         match l with
         | [] => Some ""
         | x :: l' =>
             match (match x with
                    | JUndefined | JNull => Some ""
                    | _ => js_String x
                    end) with
             | None => None
             | Some s =>
                 match l' with
                 | [] => Some s
                 | _ :: _ =>
                     match join l' with
                     | None => None
                     | Some t => Some (s +:+ "," +:+ t)
                     end
                 end
             end
         end) xs
  | JObj fields => if has_field "toString" fields then None else Some "[object Object]"
  end.

(** [v || w] *)
Definition js_or (v w : JsVal) : JsVal := if truthy v then v else w.

(** [v ?? w] *)
Definition js_nullish (v w : JsVal) : JsVal :=
  match v with
  | JUndefined | JNull => w
  | _ => v
  end.

(** [!!v], as a JavaScript value. *)
Definition js_notnot (v : JsVal) : JsVal := JBool (truthy v).

(** [s.slice(0, n)] *)
Fixpoint slice0 (n : nat) (s : string) : string :=
  match n, s with
  | O, _ => ""
  | S _, EmptyString => ""
  | S n', String c s' => String c (slice0 n' s')
  end.

(** The property [room] of a [join] payload, as the parameter pattern
    [({ room })] extracts it. Destructuring [null] or [undefined] throws
    ([None]); a property missing from an object, or looked up on a
    primitive or an array, is [undefined]. The keys of an object are
    distinct. *)
Fixpoint get_field (k : string) (fields : list (string * JsVal)) : JsVal :=
  match fields with
  | [] => JUndefined
  | (k', v) :: rest => if String.eqb k k' then v else get_field k rest
  end.

Definition destructure_room (payload : JsVal) : option JsVal :=
  match payload with
  | JUndefined | JNull => None
  | JObj fields => Some (get_field "room" fields)
  | _ => Some JUndefined
  end.

(** Truthiness of a variable holding [null], [undefined] or a string:
    the string when it is truthy. *)
Definition truthy_str (o : option string) : option string :=
  match o with
  | Some s => if String.eqb s "" then None else Some s
  | None => None
  end.

(** ** Shared state *)

(** A record of [db.data.messages]. *)
Record Msg : Type := mkMsg {
  msg_id : string;
  msg_username : string;
  msg_room : string;
  msg_text : string;
  msg_ts : Z
}.

(** One accepted connection: the socket object together with the
    variables of the closure its listeners share.
    [username] is [user.username], [currentRoom] the closure variable,
    [strangerRoom] and [partnerId] the fields of [socket.data], and
    [rooms] the broadcast groups the socket has joined ([socket.rooms]). *)
Record Socket : Type := mkSocket {
  username : string;
  connected : bool;
  currentRoom : option string;
  strangerRoom : option string;
  partnerId : option string;
  rooms : gset string
}.

(** [objs] holds every socket object whose listeners were installed,
    also after it was closed (the closure keeps it); [io_sockets] is the
    key set of [io.sockets.sockets], the sockets of the namespace.
    [waitingQueue] is a JavaScript [Set]: it iterates in insertion order,
    so it is a list without repetition. *)
Record State : Type := mkState {
  objs : gmap string Socket;
  io_sockets : gset string;
  waitingQueue : list string;
  roomMembers : gmap string (gset string);
  messages : list Msg
}.

Definition upd_objs (f : gmap string Socket → gmap string Socket) (st : State) : State :=
  mkState (f (objs st)) (io_sockets st) (waitingQueue st) (roomMembers st) (messages st).
Definition upd_io (f : gset string → gset string) (st : State) : State :=
  mkState (objs st) (f (io_sockets st)) (waitingQueue st) (roomMembers st) (messages st).
Definition upd_queue (f : list string → list string) (st : State) : State :=
  mkState (objs st) (io_sockets st) (f (waitingQueue st)) (roomMembers st) (messages st).
Definition upd_members
    (f : gmap string (gset string) → gmap string (gset string)) (st : State) : State :=
  mkState (objs st) (io_sockets st) (waitingQueue st) (f (roomMembers st)) (messages st).
Definition upd_messages (f : list Msg → list Msg) (st : State) : State :=
  mkState (objs st) (io_sockets st) (waitingQueue st) (roomMembers st) (f (messages st)).

Definition with_currentRoom (v : option string) (s : Socket) : Socket :=
  mkSocket (username s) (connected s) v (strangerRoom s) (partnerId s) (rooms s).
Definition with_strangerRoom (v : option string) (s : Socket) : Socket :=
  mkSocket (username s) (connected s) (currentRoom s) v (partnerId s) (rooms s).
Definition with_partnerId (v : option string) (s : Socket) : Socket :=
  mkSocket (username s) (connected s) (currentRoom s) (strangerRoom s) v (rooms s).
Definition with_rooms (f : gset string → gset string) (s : Socket) : Socket :=
  mkSocket (username s) (connected s) (currentRoom s) (strangerRoom s) (partnerId s)
           (f (rooms s)).
Definition with_connected (b : bool) (s : Socket) : Socket :=
  mkSocket (username s) b (currentRoom s) (strangerRoom s) (partnerId s) (rooms s).

(** [Set.prototype.add] and [Set.prototype.delete] on an insertion-ordered set. *)
Definition set_add (x : string) (q : list string) : list string :=
  if decide (x ∈ q) then q else q ++ [x].
Definition set_delete (x : string) (q : list string) : list string :=
  filter (λ y, y ≠ x) q.

(** ** Outbound events *)

Inductive Target : Type :=
| ToSocket (id : string)                      (* socket.emit *)
| ToRoom (room : string)                      (* io.to(room).emit *)
| ToRoomExcept (room : string) (sender : string). (* socket.to(room).emit *)

Inductive OutEvent : Type :=
| Ev_systemMessage (text : string)
| Ev_presence (room : string) (count : nat)
| Ev_history (items : list Msg)
| Ev_chatMessage (m : Msg)
| Ev_typing (user : string) (isTyping : JsVal)
| Ev_waitingStranger
| Ev_strangerFound
| Ev_strangerMessage (id user text : string) (ts : Z)
| Ev_strangerLeft
| Ev_youDisconnected
| Ev_unauthorized.

Definition Emit : Type := Target * OutEvent.

(** The sockets an emission reaches: the addressed socket, or the
    sockets of the namespace that joined the addressed group. *)
Definition has_joined (st : State) (room id : string) : bool :=
  match objs st !! id with
  | Some s => bool_decide (room ∈ rooms s)
  | None => false
  end.

Definition in_group (st : State) (room : string) : gset string :=
  filter (λ id, has_joined st room id) (io_sockets st).

Definition recipients (st : State) (t : Target) : gset string :=
  match t with
  | ToSocket id => {[id]}
  | ToRoom room => in_group st room
  | ToRoomExcept room sender => in_group st room ∖ {[sender]}
  end.

(** ** The handler monad: shared state and the log of emitted events *)

Definition M (A : Type) : Type := State → A * State * list Emit.

Definition ret {A} (a : A) : M A := λ st, (a, st, []).
Definition bind {A B} (m : M A) (f : A → M B) : M B :=
  λ st, let '(a, st1, out1) := m st in
        let '(b, st2, out2) := f a st1 in
        (b, st2, out1 ++ out2).
Definition gets {A} (f : State → A) : M A := λ st, (f st, st, []).
Definition modify (f : State → State) : M unit := λ st, (tt, f st, []).
Definition emit (t : Target) (e : OutEvent) : M unit := λ st, (tt, st, [(t, e)]).

Declare Scope handler_scope.
Delimit Scope handler_scope with M.
Notation "x <- m ;; k" := (bind m (λ x, k))
  (at level 100, m at next level, k at level 200, right associativity) : handler_scope.
Notation "m ;; k" := (bind m (λ _, k))
  (at level 100, k at level 200, right associativity) : handler_scope.
Bind Scope handler_scope with M.
Open Scope handler_scope.

(** How a listener ends: normally, with a value, or by throwing. *)
Inductive Completion (A : Type) : Type :=
| Normal (x : A)
| Throw.
Arguments Normal {A} x.
Arguments Throw {A}.

(** State and events a handler leaves behind. *)
Definition state_after {A} (m : M A) (st : State) : State := (m st).1.2.
Definition emitted {A} (m : M A) (st : State) : list Emit := (m st).2.
Definition exec {A} (m : M A) (st : State) : State * list Emit :=
  (state_after m st, emitted m st).

(** ** Reading and writing one socket *)

Definition currentRoom_of (id : string) (st : State) : option string :=
  objs st !! id ≫= currentRoom.
(** [socket.data?.strangerRoom] and [socket.data?.partnerId] *)
Definition strangerRoom_of (id : string) (st : State) : option string :=
  objs st !! id ≫= strangerRoom.
Definition partnerId_of (id : string) (st : State) : option string :=
  objs st !! id ≫= partnerId.
Definition username_of (id : string) (st : State) : string :=
  default "" (username <$> objs st !! id).

(** [io.sockets.sockets.get(id)] *)
Definition io_get (id : string) (st : State) : option Socket :=
  if decide (id ∈ io_sockets st) then objs st !! id else None.

(** [!s || !s.connected] for the result [s] of [io_get]. *)
Definition gone (s : option Socket) : bool :=
  match s with
  | Some s => negb (connected s)
  | None => true
  end.

Definition set_currentRoom (id : string) (v : option string) : M unit :=
  modify (upd_objs (alter (with_currentRoom v) id)).
Definition set_strangerRoom (id : string) (v : option string) : M unit :=
  modify (upd_objs (alter (with_strangerRoom v) id)).
Definition set_partnerId (id : string) (v : option string) : M unit :=
  modify (upd_objs (alter (with_partnerId v) id)).
(** [socket.join(room)] and [socket.leave(room)] *)
Definition socket_join (id room : string) : M unit :=
  modify (upd_objs (alter (with_rooms (λ rs, {[room]} ∪ rs)) id)).
Definition socket_leave (id room : string) : M unit :=
  modify (upd_objs (alter (with_rooms (λ rs, rs ∖ {[room]})) id)).

(** ** The helpers of [server.js] *)

Definition joinRoom (id room : string) : M unit :=
  has <- gets (λ st, bool_decide (is_Some (roomMembers st !! room))) ;;
  (if has then ret tt else modify (upd_members (insert room ∅))) ;;
  modify (upd_members (alter (λ set, {[id]} ∪ set) room)) ;;
  socket_join id room.

Definition leaveRoom (id : string) (room : option string) : M unit :=
  match truthy_str room with
  | None => ret tt
  | Some room =>
      set <- gets (λ st, roomMembers st !! room) ;;
      (match set with
       | Some _ =>
           modify (upd_members (alter (λ set, set ∖ {[id]}) room)) ;;
           n <- gets (λ st, from_option size 0%nat (roomMembers st !! room)) ;;
           if decide (n = 0%nat) then modify (upd_members (delete room)) else ret tt
       | None => ret tt
       end) ;;
      socket_leave id room
  end.

Definition getUserCount (room : string) : M nat :=
  gets (λ st, match roomMembers st !! room with
              | Some set => size set
              | None => 0%nat
              end).

(** ** Room chat *)

(** [String(room || 'general').slice(0, 50)]; [None] when [String]
    throws. *)
Definition safeRoom (room : JsVal) : option string :=
  slice0 50 <$> js_String (js_or room (JStr "general")).

(** The [join] listener up to its [await db.read()]. It throws at its
    first statement when [String] does. Otherwise the result tells
    whether the listener goes on ([false]: it returned at once). *)
Definition join_begin (id : string) (room : JsVal) : M (Completion bool) :=
  match safeRoom room with
  | None => ret Throw
  | Some safeRoom =>
      cur <- gets (currentRoom_of id) ;;
      if decide (cur = Some safeRoom) then ret (Normal false)
      else
        (match truthy_str cur with
         | Some r =>
             leaveRoom id cur ;;
             u <- gets (username_of id) ;;
             emit (ToRoom r) (Ev_systemMessage (u +:+ " left the room.")) ;;
             n <- getUserCount r ;;
             emit (ToRoom r) (Ev_presence r n)
         | None => ret tt
         end) ;;
        set_currentRoom id (Some safeRoom) ;;
        joinRoom id safeRoom ;;
        ret (Normal true)
  end.

(** [.sort((a, b) => a.ts - b.ts)]: the sort of JavaScript is stable, so
    the result is the one of insertion sort that keeps equal timestamps
    in their order. *)
Fixpoint insert_by_ts (m : Msg) (l : list Msg) : list Msg :=
  match l with
  | [] => [m]
  | x :: l' => if (msg_ts m <? msg_ts x)%Z then m :: l else x :: insert_by_ts m l'
  end.

Definition sort_by_ts (l : list Msg) : list Msg :=
  fold_left (λ acc m, insert_by_ts m acc) l [].

(** [.slice(-n)] *)
Definition slice_last (n : nat) (l : list Msg) : list Msg :=
  drop (length l - n) l.

(** What [history] is bound to, for the room [room] held by [currentRoom]. *)
Definition recent_history (room : string) (msgs : list Msg) : list Msg :=
  slice_last 30 (sort_by_ts (filter (λ m, msg_room m = room) msgs)).

(** The [join] listener from its [await db.read()] on. [currentRoom]
    holds a string here, the one [join_begin] stored or the one a later
    [join] of the same socket stored meanwhile. *)
Definition join_resume (id : string) : M unit :=
  cur <- gets (currentRoom_of id) ;;
  match cur with
  | None => ret tt
  | Some room =>
      msgs <- gets messages ;;
      emit (ToSocket id) (Ev_history (recent_history room msgs)) ;;
      u <- gets (username_of id) ;;
      emit (ToSocket id)
           (Ev_systemMessage ("Welcome " +:+ u +:+ "! You joined #" +:+ room +:+ ".")) ;;
      emit (ToRoomExcept room id) (Ev_systemMessage (u +:+ " joined the room.")) ;;
      n <- getUserCount room ;;
      emit (ToRoom room) (Ev_presence room n)
  end.

(** The [join] listener when the read of the store completes before
    another event is handled: its two halves back to back. What the
    listener emits when other events are handled in between is given by
    [join_begin] and [join_resume], each in the state it runs in. *)
Definition on_join (id : string) (room : JsVal) : M unit :=
  c <- join_begin id room ;;
  match c with
  | Normal true => join_resume id
  | _ => ret tt
  end.

(** [String(text ?? '').slice(0, 2000)]; [None] when [String] throws. *)
Definition safeText (text : JsVal) : option string :=
  slice0 2000 <$> js_String (js_nullish text (JStr "")).

(** The [chatMessage] listener up to its [await db.read()]: it returns
    without a current room, throws when [String] does, and otherwise goes
    on with the record it built, which bears the room that is current
    now. *)
Definition chat_begin (id : string) (text : JsVal) (nid : string) (now : Z)
    : M (Completion (option Msg)) :=
  cur <- gets (currentRoom_of id) ;;
  match truthy_str cur with
  | None => ret (Normal None)
  | Some room =>
      u <- gets (username_of id) ;;
      match safeText text with
      | None => ret Throw
      | Some t => ret (Normal (Some (mkMsg nid u room t now)))
      end
  end.

(** [db.data.messages.push(msg)], between the two awaits. The store read
    before it is taken to give back the records appended so far. *)
Definition chat_store (msg : Msg) : M unit :=
  modify (upd_messages (λ ms, ms ++ [msg])).

(** [io.to(currentRoom).emit('chatMessage', msg)], after
    [await db.write()]: the room is the one that is current by then.
    [currentRoom] holds a string here. *)
Definition chat_emit (id : string) (msg : Msg) : M unit :=
  cur <- gets (currentRoom_of id) ;;
  match cur with
  | Some room => emit (ToRoom room) (Ev_chatMessage msg)
  | None => ret tt
  end.

(** The [chatMessage] listener when nothing else is handled while it
    awaits the store: its three parts back to back. *)
Definition on_chatMessage (id : string) (text : JsVal) (nid : string) (now : Z) : M unit :=
  c <- chat_begin id text nid now ;;
  match c with
  | Normal (Some msg) => chat_store msg ;; chat_emit id msg
  | _ => ret tt
  end.

Definition on_typing (id : string) (isTyping : JsVal) : M unit :=
  cur <- gets (currentRoom_of id) ;;
  match truthy_str cur with
  | None => ret tt
  | Some room =>
      u <- gets (username_of id) ;;
      emit (ToRoomExcept room id) (Ev_typing u (js_notnot isTyping))
  end.

(** ** Stranger chat *)

Definition handleStrangerLeave (leaver : string) : M unit :=
  room <- gets (strangerRoom_of leaver) ;;
  partnerId <- gets (partnerId_of leaver) ;;
  match truthy_str room with
  | None => ret tt
  | Some room =>
      emit (ToSocket leaver) Ev_youDisconnected ;;
      (match truthy_str partnerId with
       | Some partnerId =>
           partner <- gets (io_get partnerId) ;;
           match partner with
           | Some _ =>
               emit (ToSocket partnerId) Ev_strangerLeft ;;
               socket_leave partnerId room ;;
               set_strangerRoom partnerId None ;;
               set_partnerId partnerId None
           | None => ret tt
           end
       | None => ret tt
       end) ;;
      socket_leave leaver room ;;
      set_strangerRoom leaver None ;;
      set_partnerId leaver None
  end.

(** [if (socket.data?.strangerRoom) handleStrangerLeave(socket)] *)
Definition leave_if_paired (id : string) : M unit :=
  room <- gets (strangerRoom_of id) ;;
  match truthy_str room with
  | Some _ => handleStrangerLeave id
  | None => ret tt
  end.

Definition on_findStranger (id : string) (nid : string) : M unit :=
  leave_if_paired id ;;
  queue <- gets waitingQueue ;;
  match queue with
  | partnerId :: _ =>
      modify (upd_queue (set_delete partnerId)) ;;
      partnerSocket <- gets (io_get partnerId) ;;
      if gone partnerSocket then
        modify (upd_queue (set_add id)) ;;
        emit (ToSocket id) Ev_waitingStranger
      else
        let strangerRoom := "stranger-" +:+ nid in
        socket_join partnerId strangerRoom ;;
        socket_join id strangerRoom ;;
        set_strangerRoom partnerId (Some strangerRoom) ;;
        set_partnerId partnerId (Some id) ;;
        set_strangerRoom id (Some strangerRoom) ;;
        set_partnerId id (Some partnerId) ;;
        emit (ToRoom strangerRoom) Ev_strangerFound
  | [] =>
      modify (upd_queue (set_add id)) ;;
      emit (ToSocket id) Ev_waitingStranger
  end.

Definition partner_gone_text : string := "❌ Your partner has disconnected.".

(** The [strangerMessage] listener. It throws, before anything is
    emitted, when [String] does. *)
Definition on_strangerMessage (id : string) (text : JsVal) (nid : string) (now : Z)
    : M (Completion unit) :=
  room <- gets (strangerRoom_of id) ;;
  partnerId <- gets (partnerId_of id) ;;
  match truthy_str room, truthy_str partnerId with
  | Some room, Some partnerId =>
      partner <- gets (io_get partnerId) ;;
      if gone partner then
        emit (ToSocket id) (Ev_systemMessage partner_gone_text) ;;
        ret (Normal tt)
      else
        u <- gets (username_of id) ;;
        match safeText text with
        | None => ret Throw
        | Some t =>
            emit (ToRoom room) (Ev_strangerMessage nid u t now) ;;
            ret (Normal tt)
        end
  | _, _ => ret (Normal tt)
  end.

Definition on_leaveStranger (id : string) : M unit :=
  queue <- gets waitingQueue ;;
  if decide (id ∈ queue) then
    modify (upd_queue (set_delete id)) ;;
    emit (ToSocket id) Ev_youDisconnected
  else leave_if_paired id.

(** ** Disconnect cleanup *)

Definition on_disconnect (id : string) : M unit :=
  cur <- gets (currentRoom_of id) ;;
  (match truthy_str cur with
   | Some r =>
       leaveRoom id cur ;;
       u <- gets (username_of id) ;;
       emit (ToRoom r) (Ev_systemMessage (u +:+ " left the room.")) ;;
       n <- getUserCount r ;;
       emit (ToRoom r) (Ev_presence r n)
   | None => ret tt
   end) ;;
  queue <- gets waitingQueue ;;
  (if decide (id ∈ queue) then modify (upd_queue (set_delete id)) else ret tt) ;;
  leave_if_paired id.

(** ** Connections, and the events the server handles *)

(** What socket.io does around the listeners. On accept, the socket is
    added to the namespace, connected, in the group of its own id. On
    close, it leaves all its groups, is removed from the namespace and is
    marked disconnected; the [disconnect] listener runs after that. *)
Definition transport_open (id user : string) : M unit :=
  modify (upd_objs (insert id (mkSocket user true None None None {[id]}))) ;;
  modify (upd_io (λ live, {[id]} ∪ live)).

Definition transport_close (id : string) : M unit :=
  modify (upd_objs (alter (λ s, with_connected false (with_rooms (λ _, ∅) s)) id)) ;;
  modify (upd_io (λ live, live ∖ {[id]})).

(** The [connection] listener. [user] is [socket.request.session.user]'s
    name, absent without a logged-in session; such a socket is told so and
    closed before any listener or state exists for it. *)
Definition on_connection (id : string) (user : option string) : M unit :=
  match user with
  | None => emit (ToSocket id) Ev_unauthorized
  | Some u => transport_open id u
  end.

Inductive Event : Type :=
| Connection (id : string) (user : option string)
| Join (id : string) (payload : JsVal)
| ChatMessage (id : string) (text : JsVal) (nid : string) (now : Z)
| Typing (id : string) (isTyping : JsVal)
| FindStranger (id : string) (nid : string)
| StrangerMessage (id : string) (text : JsVal) (nid : string) (now : Z)
| LeaveStranger (id : string)
| Disconnect (id : string).

(** A socket whose listeners can fire: in the namespace and connected. *)
Definition is_open (id : string) (st : State) : bool := negb (gone (io_get id st)).

(** A new socket gets an id that is a non-empty string no socket had. *)
Definition is_fresh (id : string) (st : State) : bool :=
  negb (String.eqb id "") && bool_decide (objs st !! id = None)
  && bool_decide (id ∉ io_sockets st).

Definition when_open {A} (id : string) (st : State) (m : M A) : option (State * list Emit) :=
  if is_open id st then Some (exec m st) else None.

(** One event handled from start to end; [None] when the event cannot
    occur in the state. A listener that throws ([join] on a payload that
    cannot be destructured or a room that cannot be converted,
    [chatMessage] and [strangerMessage] on a text that cannot be
    converted) has changed and emitted nothing by then. The uncaught
    exception stops the server; the step is kept here as one that does
    nothing, so the states reached include every state the server
    reaches. *)
Definition step (st : State) (ev : Event) : option (State * list Emit) :=
  match ev with
  | Connection id user =>
      if is_fresh id st then Some (exec (on_connection id user) st) else None
  | Join id payload =>
      match destructure_room payload with
      | Some room => when_open id st (on_join id room)
      | None => when_open id st (ret tt)
      end
  | ChatMessage id text nid now => when_open id st (on_chatMessage id text nid now)
  | Typing id isTyping => when_open id st (on_typing id isTyping)
  | FindStranger id nid => when_open id st (on_findStranger id nid)
  | StrangerMessage id text nid now => when_open id st (on_strangerMessage id text nid now)
  | LeaveStranger id => when_open id st (on_leaveStranger id)
  | Disconnect id => when_open id st (transport_close id ;; on_disconnect id)
  end.

Fixpoint run (st : State) (evs : list Event) : option (State * list Emit) :=
  match evs with
  | [] => Some (st, [])
  | ev :: evs' =>
      match step st ev with
      | Some (st1, out1) =>
          match run st1 evs' with
          | Some (st2, out2) => Some (st2, out1 ++ out2)
          | None => None
          end
      | None => None
      end
  end.

(** The server starts with no socket, an empty queue, no room, and the
    messages found in the store. *)
Definition init (stored : list Msg) : State := mkState ∅ ∅ [] ∅ stored.

Definition reachable (st : State) : Prop :=
  ∃ stored evs out, run (init stored) evs = Some (st, out).

(** ** Closed forms of the helpers, and the predicates of the properties *)

(** A handler leaves the view [V] of the state as it was. *)
Definition Preserves {A X} (V : State → X) (m : M A) : Prop :=
  ∀ st, V (state_after m st) = V st.

(** The value a handler returns. *)
Definition result {A} (m : M A) (st : State) : A := (m st).1.1.

(** What [handleStrangerLeave] does to one socket of the link. *)
Definition unlink (room : string) (s : Socket) : Socket :=
  with_partnerId None (with_strangerRoom None (with_rooms (λ rs, rs ∖ {[room]}) s)).

Definition torn_down (leaver : string) (st : State) : State :=
  match truthy_str (strangerRoom_of leaver st) with
  | None => st
  | Some room =>
      upd_objs (λ m,
        alter (unlink room) leaver
          (match truthy_str (partnerId_of leaver st) with
           | Some p => if decide (p ∈ io_sockets st) then alter (unlink room) p m else m
           | None => m
           end)) st
  end.

Definition torn_down_out (leaver : string) (st : State) : list Emit :=
  match truthy_str (strangerRoom_of leaver st) with
  | None => []
  | Some room =>
      (ToSocket leaver, Ev_youDisconnected) ::
      match truthy_str (partnerId_of leaver st) with
      | Some p => if io_get p st is Some _ then [(ToSocket p, Ev_strangerLeft)] else []
      | None => []
      end
  end.

(** What [leaveRoom] and [joinRoom] do to [roomMembers]. *)
Definition members_leave (id room : string)
    (m : gmap string (gset string)) : gmap string (gset string) :=
  match m !! room with
  | Some set =>
      if decide (size (set ∖ {[id]}) = 0%nat) then delete room m
      else <[room := set ∖ {[id]}]> m
  | None => m
  end.

Definition members_join (id room : string)
    (m : gmap string (gset string)) : gmap string (gset string) :=
  <[room := {[id]} ∪ default ∅ (m !! room)]> m.

Definition left_room (id room : string) (st : State) : State :=
  upd_objs (alter (with_rooms (λ rs, rs ∖ {[room]})) id)
           (upd_members (members_leave id room) st).

Definition joined_room (id room : string) (st : State) : State :=
  upd_objs (alter (with_rooms (λ rs, {[room]} ∪ rs)) id)
           (upd_members (members_join id room) st).

(** The presence count [getUserCount] reports. *)
Definition user_count (room : string) (st : State) : nat :=
  from_option size 0%nat (roomMembers st !! room).

(** [a]'s pairing state names [b] as partner, with channel [room]. *)
Definition paired (st : State) (a b room : string) : Prop :=
  strangerRoom_of a st = Some room ∧ partnerId_of a st = Some b.

Definition unpaired (st : State) (a : string) : Prop :=
  strangerRoom_of a st = None ∧ partnerId_of a st = None.

(** The invariant of the pairing state. *)
Record pairing_inv (st : State) : Prop := mk_pairing_inv {
  inv_ids : ∀ id, is_Some (objs st !! id) → id ≠ "";
  inv_live : ∀ id, id ∈ io_sockets st → is_Some (objs st !! id);
  inv_link : ∀ a, unpaired st a ∨
     ∃ b room, paired st a b room ∧ room ≠ "" ∧ a ∈ io_sockets st ∧
               b ∈ io_sockets st ∧ paired st b a room;
  inv_queue : ∀ q, q ∈ waitingQueue st → q ∈ io_sockets st ∧ unpaired st q;
  inv_queue_len : (length (waitingQueue st) ≤ 1)%nat
}.

(** Comparison of timestamps, for the order of a backlog. *)
Definition ts_le (a b : Msg) : Prop := (msg_ts a ≤ msg_ts b)%Z.

(** The part of the [join] and [disconnect] listeners that leaves the
    current room, and what it emits. *)
Definition room_left (id : string) (st : State) : State :=
  match truthy_str (currentRoom_of id st) with
  | Some r => left_room id r st
  | None => st
  end.

Definition room_left_out (id : string) (st : State) : list Emit :=
  match truthy_str (currentRoom_of id st) with
  | Some r =>
      [(ToRoom r, Ev_systemMessage (username_of id st +:+ " left the room."));
       (ToRoom r, Ev_presence r (user_count r (left_room id r st)))]
  | None => []
  end.

(** The state after [join_begin] went on to the [await]. *)
Definition switched_room (id room : string) (st : State) : State :=
  joined_room id room
    (upd_objs (alter (with_currentRoom (Some room)) id) (room_left id st)).

(** What [join_resume] emits for the current room [room]. *)
Definition welcome_out (id room : string) (st : State) : list Emit :=
  [(ToSocket id, Ev_history (recent_history room (messages st)));
   (ToSocket id,
    Ev_systemMessage
      ("Welcome " +:+ username_of id st +:+ "! You joined #" +:+ room +:+ "."));
   (ToRoomExcept room id, Ev_systemMessage (username_of id st +:+ " joined the room."));
   (ToRoom room, Ev_presence room (user_count room st))].

(** The part of the [disconnect] listener that leaves the queue. *)
Definition dequeued (id : string) (st : State) : State :=
  if decide (id ∈ waitingQueue st) then upd_queue (set_delete id) st else st.

(** The state the listed events lead to from the server started on an
    empty store, for examples (the initial state when the events cannot
    occur). *)
Definition after (evs : list Event) : State :=
  match run (init []) evs with
  | Some (st, _) => st
  | None => init []
  end.

(** What [on_findStranger] does to the sockets it pairs, in the order of
    the source. *)
Definition pair_up (id p room : string) (m : gmap string Socket) : gmap string Socket :=
  alter (with_partnerId (Some p)) id
    (alter (with_strangerRoom (Some room)) id
      (alter (with_partnerId (Some id)) p
        (alter (with_strangerRoom (Some room)) p
          (alter (with_rooms (λ rs, {[room]} ∪ rs)) id
            (alter (with_rooms (λ rs, {[room]} ∪ rs)) p m))))).

(** The state socket.io leaves when it closes the socket [id]. *)
Definition closed (id : string) (st : State) : State :=
  upd_io (λ live, live ∖ {[id]})
    (upd_objs (alter (λ s, with_connected false (with_rooms (λ _, ∅) s)) id) st).

(** The member set of a room, empty when the room is not in the directory. *)
Definition members_of (room : string) (st : State) : gset string :=
  default ∅ (roomMembers st !! room).

(** The sockets of the namespace whose current room is [room]. *)
Definition connections_in (room : string) (st : State) : gset string :=
  filter (λ id, currentRoom_of id st = Some room) (io_sockets st).

(** An event that does not name a room by the empty string. *)
Definition names_room (ev : Event) : Prop :=
  match ev with
  | Join _ payload =>
      match destructure_room payload with
      | Some room => safeRoom room ≠ Some ""
      | None => True
      end
  | _ => True
  end.

Definition reachable_named (st : State) : Prop :=
  ∃ stored evs out, Forall names_room evs ∧ run (init stored) evs = Some (st, out).

(** The invariant of the room directory. *)
Record room_inv (st : State) : Prop := mk_room_inv {
  rinv_nonempty : ∀ room set, roomMembers st !! room = Some set → set ≠ ∅;
  rinv_members : ∀ room id,
    id ∈ members_of room st ↔ id ∈ io_sockets st ∧ currentRoom_of id st = Some room;
  rinv_named : ∀ id, currentRoom_of id st ≠ Some ""
}.

(** The name of a pairing channel: ["stranger-"] followed by an identifier. *)
Definition is_channel (room : string) : Prop := ∃ nid, room = "stranger-" +:+ nid.

(** An event that does not join a room named like a pairing channel. *)
Definition avoids_channels (ev : Event) : Prop :=
  match ev with
  | Join _ payload =>
      match destructure_room payload with
      | Some room => ∀ r, safeRoom room = Some r → ¬ is_channel r
      | None => True
      end
  | _ => True
  end.

Definition reachable_apart (st : State) : Prop :=
  ∃ stored evs out, Forall avoids_channels evs ∧ run (init stored) evs = Some (st, out).

(** The invariant of the pairing channels: a paired socket is in the
    group of its channel, and no current room is named like a channel. *)
Record channel_inv (st : State) : Prop := mk_channel_inv {
  cinv_joined : ∀ a b room, paired st a b room → has_joined st room a = true;
  cinv_channel : ∀ a b room, paired st a b room → is_channel room;
  cinv_current : ∀ id r, currentRoom_of id st = Some r → ¬ is_channel r
}.

(** Every socket of the namespace is a connected socket with its object. *)
Definition live_connected (st : State) : Prop :=
  ∀ id, id ∈ io_sockets st → is_open id st = true.

(** An event of socket.io itself, which opens or closes a socket. *)
Definition is_transport (ev : Event) : bool :=
  match ev with
  | Connection _ _ | Disconnect _ => true
  | _ => false
  end.

(** Every socket of the namespace is in the broadcast group of its
    current room. *)
Definition group_inv (st : State) : Prop :=
  ∀ id r, id ∈ io_sockets st → currentRoom_of id st = Some r → has_joined st r id = true.

(** ** Accounts: the routes of registration, login and logout *)

(** A record of [db.data.users]. *)
Record User : Type := mkUser {
  user_id : string;
  user_username : string;
  user_passwordHash : string;
  user_createdAt : Z
}.

(** [req.session.user] *)
Record SessionUser : Type := mkSessionUser {
  sess_id : string;
  sess_username : string
}.

(** The accounts of the store and, for each client holding a session
    cookie, the user of its session when one is set. *)
Record Site : Type := mkSite {
  users : list User;
  sessions : gmap string SessionUser
}.

(** What a route answers: [res.status(n).json(body)] ([res.json] answers
    with status 200), [res.redirect] or [res.sendFile]. *)
Inductive Reply : Type :=
| Json (status : nat) (body : JsVal)
| RedirectTo (path : string)
| SendFile (name : string).

(** What the routes take from the platform: [String.prototype.trim],
    [String.prototype.toLowerCase] and [bcrypt.compare]. *)
Class Platform : Type := {
  trim : string → string;
  toLowerCase : string → string;
  bcrypt_compare : string → string → bool
}.

Definition error_body (msg : string) : JsVal := JObj [("error", JStr msg)].

Definition user_json (u : SessionUser) : JsVal :=
  JObj [("id", JStr (sess_id u)); ("username", JStr (sess_username u))].

(** [{ ok: true, user: req.session.user }] *)
Definition ok_body (u : SessionUser) : JsVal :=
  JObj [("ok", JBool true); ("user", user_json u)].

(** The property [k] that [const { username, password } = req.body || {}]
    extracts: [undefined] when the body is falsy, a primitive or an
    array. *)
Definition body_field (k : string) (body : JsVal) : JsVal :=
  match js_or body (JObj []) with
  | JObj fields => get_field k fields
  | _ => JUndefined
  end.

Section routes.
Context `{Platform}.

(** The test of [db.data.users.find] in the registration route. *)
Definition taken (username : string) (u : User) : bool :=
  String.eqb (toLowerCase (user_username u)) (toLowerCase (trim username)).

(** [POST /api/register] for the client [c], when no other request is
    served while it awaits the store and the hash. [nid], [hash] and [now]
    are what [nanoid()], [bcrypt.hash(password, 10)] and [Date.now()]
    returned. *)
Definition api_register (c : string) (body : JsVal) (nid hash : string) (now : Z)
    (site : Site) : Reply * Site :=
  match body_field "username" body, body_field "password" body with
  | JStr username, JStr password =>
      if (String.length (trim username) <? 3) || (String.length password <? 6) then
        (Json 400 (error_body "Invalid username or password"), site)
      else
        match List.find (taken username) (users site) with
        | Some _ => (Json 409 (error_body "Username already taken"), site)
        | None =>
            let su := mkSessionUser nid (trim username) in
            (Json 200 (ok_body su),
             mkSite (users site ++ [mkUser nid (trim username) hash now])
                    (<[c := su]> (sessions site)))
        end
  | _, _ => (Json 400 (error_body "Invalid username or password"), site)
  end.

(** [POST /api/login]. [String(username)] is evaluated by the test of
    [db.data.users.find], once for each account tried: the route throws
    there when the conversion does and the store holds an account, and at
    [String(password)] when that conversion throws and an account was
    found. A route that throws answers nothing and changes nothing. *)
Definition api_login (c : string) (body : JsVal) (site : Site) : Completion Reply * Site :=
  match users site with
  | [] => (Normal (Json 401 (error_body "Invalid credentials")), site)
  | _ :: _ =>
      match js_String (body_field "username" body) with
      | None => (Throw, site)
      | Some username =>
          match List.find (λ u, String.eqb (user_username u) (trim username))
                          (users site) with
          | None => (Normal (Json 401 (error_body "Invalid credentials")), site)
          | Some user =>
              match js_String (body_field "password" body) with
              | None => (Throw, site)
              | Some password =>
                  if bcrypt_compare password (user_passwordHash user) then
                    let su := mkSessionUser (user_id user) (user_username user) in
                    (Normal (Json 200 (ok_body su)),
                     mkSite (users site) (<[c := su]> (sessions site)))
                  else (Normal (Json 401 (error_body "Invalid credentials")), site)
              end
          end
      end
  end.

(** [POST /api/logout]: the session of the client is destroyed. *)
Definition api_logout (c : string) (site : Site) : Reply * Site :=
  (Json 200 (JObj [("ok", JBool true)]), mkSite (users site) (delete c (sessions site))).

(** [GET /api/me] *)
Definition api_me (c : string) (site : Site) : Reply * Site :=
  (Json 200 (JObj [("user", match sessions site !! c with
                            | Some u => user_json u
                            | None => JNull
                            end)]),
   site).

(** [GET /chat] *)
Definition chat_page (c : string) (site : Site) : Reply * Site :=
  (match sessions site !! c with
   | Some _ => SendFile "chat.html"
   | None => RedirectTo "/login"
   end,
   site).

Inductive Request : Type :=
| PostRegister (c : string) (body : JsVal) (nid hash : string) (now : Z)
| PostLogin (c : string) (body : JsVal)
| PostLogout (c : string)
| GetMe (c : string)
| GetChat (c : string).

Definition serve (r : Request) (site : Site) : Completion Reply * Site :=
  match r with
  | PostRegister c body nid hash now =>
      let r := api_register c body nid hash now site in (Normal r.1, r.2)
  | PostLogin c body => api_login c body site
  | PostLogout c => let r := api_logout c site in (Normal r.1, r.2)
  | GetMe c => let r := api_me c site in (Normal r.1, r.2)
  | GetChat c => let r := chat_page c site in (Normal r.1, r.2)
  end.

Definition serve_all (rs : list Request) (site : Site) : Site :=
  fold_left (λ s r, (serve r s).2) rs site.

(** No two accounts bear the same name up to case. *)
Definition names_distinct (site : Site) : Prop :=
  NoDup (map (λ u, toLowerCase (user_username u)) (users site)).

(** Every session is the one of an account of the store. *)
Definition sessions_registered (site : Site) : Prop :=
  ∀ c su, sessions site !! c = Some su →
    ∃ u, u ∈ users site ∧ user_id u = sess_id su ∧ user_username u = sess_username su.

(** The body [{ username, password }] a client posts. *)
Definition credentials (username password : string) : JsVal :=
  JObj [("username", JStr username); ("password", JStr password)].
End routes.

(** [sess.user.username] of the session under which the client [c] opens a
    socket: the [user] of the [connection] listener. *)
Definition socket_user (c : string) (site : Site) : option string :=
  sess_username <$> sessions site !! c.

(** The server as a whole: a request served, a socket opened by a client
    under its session, or an event of an open socket. *)
Inductive Action : Type :=
| Http (r : Request)
| OpenSocket (c id : string)
| OnSocket (ev : Event).

Definition is_connection (ev : Event) : bool :=
  match ev with
  | Connection _ _ => true
  | _ => false
  end.

Definition act `{Platform} (w : Site * State) (a : Action) : option (Site * State) :=
  match a with
  | Http r => Some ((serve r w.1).2, w.2)
  | OpenSocket c id =>
      match step w.2 (Connection id (socket_user c w.1)) with
      | Some (st', _) => Some (w.1, st')
      | None => None
      end
  | OnSocket ev =>
      if is_connection ev then None
      else match step w.2 ev with
           | Some (st', _) => Some (w.1, st')
           | None => None
           end
  end.

Fixpoint acts `{Platform} (w : Site * State) (l : list Action) : option (Site * State) :=
  match l with
  | [] => Some w
  | a :: l' =>
      match act w a with
      | Some w' => acts w' l'
      | None => None
      end
  end.

(** A platform for examples: names without blanks around them, compared
    as they are, and hashes that are the password after a fixed prefix. *)
Definition example_platform : Platform :=
  {| trim := λ s, s;
     toLowerCase := λ s, s;
     bcrypt_compare := λ password hash, String.eqb ("$2a$10$" +:+ password) hash |}.

(** Every socket bears the name of an account. *)
Definition names_registered (w : Site * State) : Prop :=
  ∀ id s, objs w.2 !! id = Some s →
    ∃ u, u ∈ users w.1 ∧ user_username u = username s.

(** Every stored message was in the store at the start or bears the name
    of an account. *)
Definition authors_registered (stored : list Msg) (w : Site * State) : Prop :=
  ∀ m, m ∈ messages w.2 →
    m ∈ stored ∨ ∃ u, u ∈ users w.1 ∧ user_username u = msg_username m.

(** ** Listeners that throw *)

Definition is_throw {A} (c : Completion A) : bool :=
  match c with
  | Throw => true
  | Normal _ => false
  end.

(** The listener of the event throws in the state [st]. *)
Definition listener_throws (st : State) (ev : Event) : bool :=
  match ev with
  | Join id payload =>
      match destructure_room payload with
      | None => true
      | Some room => is_throw (result (join_begin id room) st)
      end
  | ChatMessage id text nid now => is_throw (result (chat_begin id text nid now) st)
  | StrangerMessage id text nid now =>
      is_throw (result (on_strangerMessage id text nid now) st)
  | _ => false
  end.

(** * Properties *)

(** ** Running handlers *)

Ltac run_M :=
  cbv [bind ret gets modify emit];
  cbn [fst snd app objs io_sockets waitingQueue roomMembers messages
       upd_objs upd_io upd_queue upd_members upd_messages].

Lemma state_after_bind {A B} (m : M A) (k : A → M B) st :
  state_after (bind m k) st = state_after (k (result m st)) (state_after m st).
Proof.
  unfold state_after, result, bind. destruct (m st) as [[a st1] o1]. simpl.
  by destruct (k a st1) as [[b st2] o2].
Qed.

Lemma preserves_bind {A B X} (V : State → X) (m : M A) (k : A → M B) :
  Preserves V m → (∀ a, Preserves V (k a)) → Preserves V (bind m k).
Proof. intros Hm Hk st. rewrite state_after_bind, Hk. apply Hm. Qed.

Lemma preserves_ret {A X} (V : State → X) (a : A) : Preserves V (ret a).
Proof. done. Qed.

Lemma preserves_gets {A X} (V : State → X) (f : State → A) : Preserves V (gets f).
Proof. done. Qed.

Lemma preserves_emit {X} (V : State → X) t e : Preserves V (emit t e).
Proof. done. Qed.

Lemma preserves_modify {X} (V : State → X) f :
  (∀ st, V (f st) = V st) → Preserves V (modify f).
Proof. intros H st. apply H. Qed.

Lemma fmap_alter_frame {X} (fld : Socket → X) f id (m : gmap string Socket) :
  (∀ s, fld (f s) = fld s) → fld <$> alter f id m = fld <$> m.
Proof.
  intros H. apply map_eq; intros j. rewrite !lookup_fmap, lookup_alter.
  case_decide; subst; [|done]. destruct (m !! j); simpl; [by rewrite H | done].
Qed.

(** Splits a goal [Preserves V m] along the structure of [m]; what is
    left are the updates of the state. *)
Ltac preserves :=
  repeat match goal with
    | |- Preserves _ (match ?x with _ => _ end) => destruct x
    | |- Preserves _ (bind _ _) => apply preserves_bind; [| intros ?]
    | |- Preserves _ (ret _) => apply preserves_ret
    | |- Preserves _ (gets _) => apply preserves_gets
    | |- Preserves _ (emit _ _) => apply preserves_emit
    | |- Preserves _ (modify _) =>
        apply preserves_modify; intros ?;
        first [ reflexivity | by (cbn; apply fmap_alter_frame) | idtac ]
    end.

Ltac unfold_helpers :=
  unfold set_currentRoom, set_strangerRoom, set_partnerId, socket_join, socket_leave.

(** ** The helpers in closed form *)

Lemma handleStrangerLeave_run leaver st :
  handleStrangerLeave leaver st = (tt, torn_down leaver st, torn_down_out leaver st).
Proof.
  unfold handleStrangerLeave, torn_down, torn_down_out. unfold_helpers. run_M.
  destruct (truthy_str (strangerRoom_of leaver st)) as [room|]; [|done].
  destruct (truthy_str (partnerId_of leaver st)) as [p|]; run_M.
  - unfold io_get. destruct (decide (p ∈ io_sockets st)).
    + destruct (objs st !! p) eqn:Hp; run_M; unfold upd_objs; simpl.
      * by rewrite !alter_alter_eq.
      * by rewrite !alter_alter_eq, (alter_id' _ _ p Hp).
    + run_M. unfold upd_objs; simpl. by rewrite !alter_alter_eq.
  - unfold upd_objs; simpl. by rewrite !alter_alter_eq.
Qed.

Lemma leave_if_paired_run id st :
  leave_if_paired id st = (tt, torn_down id st, torn_down_out id st).
Proof.
  unfold leave_if_paired. run_M.
  destruct (truthy_str (strangerRoom_of id st)) eqn:E.
  - by rewrite handleStrangerLeave_run.
  - unfold torn_down, torn_down_out. by rewrite E.
Qed.

Lemma truthy_str_Some o s : truthy_str o = Some s ↔ o = Some s ∧ s ≠ "".
Proof.
  unfold truthy_str. destruct o as [x|]; [|split; [done | by intros [? ?]]].
  destruct (String.eqb_spec x ""); split.
  - done.
  - intros [[= <-] ?]. done.
  - intros [= <-]. done.
  - intros [[= <-] ?]. done.
Qed.

Lemma truthy_str_None o : truthy_str o = None ↔ o = None ∨ o = Some "".
Proof.
  unfold truthy_str. destruct o as [x|]; [|split; [by left | done]].
  destruct (String.eqb_spec x ""); split.
  - subst. by right.
  - done.
  - done.
  - intros [? | [= ->]]; done.
Qed.

Lemma leaveRoom_run id room st :
  room ≠ "" → leaveRoom id (Some room) st = (tt, left_room id room st, []).
Proof.
  intros Hr. unfold leaveRoom, left_room, members_leave. unfold_helpers.
  assert (truthy_str (Some room) = Some room) as -> by by apply truthy_str_Some.
  run_M. destruct (roomMembers st !! room) as [set|] eqn:E; run_M.
  - rewrite lookup_alter_eq, E. simpl.
    destruct (decide (size (set ∖ {[id]}) = 0%nat)); run_M;
      unfold upd_members, upd_objs; simpl; rewrite E.
    + by rewrite decide_True, delete_alter_eq by done.
    + rewrite decide_False by done. do 3 f_equal. apply map_eq. intros j.
      rewrite lookup_alter, lookup_insert.
      case_decide; subst; [by rewrite E | done].
  - unfold upd_members, upd_objs; simpl. by rewrite E.
Qed.

Lemma joinRoom_run id room st : joinRoom id room st = (tt, joined_room id room st, []).
Proof.
  unfold joinRoom, joined_room, members_join. unfold_helpers. run_M.
  destruct (roomMembers st !! room) as [set|] eqn:E.
  - rewrite bool_decide_eq_true_2 by done. run_M.
    unfold upd_members, upd_objs; simpl. do 3 f_equal.
    apply map_eq. intros j. rewrite lookup_alter, lookup_insert.
    case_decide; subst; [by rewrite E | done].
  - rewrite bool_decide_eq_false_2 by (intros [? ?]; done). run_M.
    unfold upd_members, upd_objs; simpl. do 3 f_equal.
    apply map_eq. intros j. rewrite lookup_alter, !lookup_insert.
    repeat case_decide; simplify_eq; [by rewrite E | done].
Qed.

Lemma getUserCount_run room st : getUserCount room st = (user_count room st, st, []).
Proof. unfold getUserCount, user_count. run_M. by destruct (roomMembers st !! room). Qed.

(** ** Strings *)

Lemma slice0_length n s : String.length (slice0 n s) ≤ n.
Proof.
  revert s. induction n as [|n IH]; intros [|c s]; simpl; try lia.
  specialize (IH s). lia.
Qed.

Lemma slice0_short n s : String.length s ≤ n → slice0 n s = s.
Proof.
  revert s. induction n as [|n IH]; intros [|c s]; simpl; intros H; try done; try lia.
  f_equal. apply IH. lia.
Qed.

Lemma slice0_prefix n s : ∃ rest, s = slice0 n s +:+ rest.
Proof.
  revert s. induction n as [|n IH]; intros [|c s]; simpl.
  - by exists "".
  - by exists (String c s).
  - by exists "".
  - destruct (IH s) as [rest Hr]. exists rest.
    change (String c s = String c (slice0 n s +:+ rest)). by f_equal.
Qed.

Lemma slice0_length_min n s :
  String.length (slice0 n s) = Nat.min n (String.length s).
Proof.
  revert s. induction n as [|n IH]; intros [|c s]; simpl; try done.
  by rewrite IH.
Qed.

Lemma truthy_JStr s : truthy (JStr s) = true ↔ s ≠ "".
Proof.
  simpl. destruct (String.eqb_spec s ""); simpl; split; try done.
Qed.

(** ** Typing notifications *)

Lemma on_typing_run id isTyping st :
  on_typing id isTyping st =
  (tt, st,
   match truthy_str (currentRoom_of id st) with
   | Some room =>
       [(ToRoomExcept room id, Ev_typing (username_of id st) (js_notnot isTyping))]
   | None => []
   end).
Proof. unfold on_typing. run_M. by destruct (truthy_str (currentRoom_of id st)). Qed.

(** C10. A [typing] event from a connection with no current room does
    nothing: the state is as before and nothing is emitted. The handler
    never changes the state. Whatever it emits is one [typing] event to the
    room except the sender, carrying the sender's name and a boolean, the
    truthiness of the inbound payload. *)
Theorem typing_noop_without_room id isTyping st :
  (currentRoom_of id st = None → on_typing id isTyping st = (tt, st, []))
  ∧ state_after (on_typing id isTyping) st = st
  ∧ (∀ t e, (t, e) ∈ emitted (on_typing id isTyping) st →
       ∃ room b, currentRoom_of id st = Some room ∧ room ≠ "" ∧
                 t = ToRoomExcept room id ∧
                 e = Ev_typing (username_of id st) (JBool b))
  ∧ (∀ room, currentRoom_of id st = Some room → room ≠ "" →
       emitted (on_typing id isTyping) st =
       [(ToRoomExcept room id,
         Ev_typing (username_of id st) (JBool (truthy isTyping)))]).
Proof.
  unfold state_after, emitted, on_typing. run_M.
  destruct (truthy_str (currentRoom_of id st)) as [room|] eqn:E; simpl.
  - apply truthy_str_Some in E as [E Hne]. rewrite E. split_and!; try done.
    + intros t e [= -> ->]%list_elem_of_singleton. by exists room, (truthy isTyping).
    + by intros ? [= <-] _.
  - split_and!; try done.
    + by intros ?? ?%elem_of_nil.
    + intros room Hc Hne. apply truthy_str_None in E as [E | E]; congruence.
Qed.

Lemma typing_noop_without_room_witness :
  on_typing "a" (JNum 1) (after [Connection "a" (Some "alice")])
  = (tt, after [Connection "a" (Some "alice")], []).
Proof.
  apply (proj1 (typing_noop_without_room "a" (JNum 1) (after [Connection "a" (Some "alice")]))).
  reflexivity.
Defined.

(** ** Frames: what the helpers leave alone *)

Section frames.
Context {X : Type} (fld : Socket → X).
Hypothesis fld_rooms : ∀ f s, fld (with_rooms f s) = fld s.

Hypothesis fld_strangerRoom : ∀ v s, fld (with_strangerRoom v s) = fld s.
Hypothesis fld_partnerId : ∀ v s, fld (with_partnerId v s) = fld s.

Lemma handleStrangerLeave_field id :
  Preserves (λ st, fld <$> objs st) (handleStrangerLeave id).
Proof. unfold handleStrangerLeave. unfold_helpers. preserves. Qed.

Lemma torn_down_field id st : fld <$> objs (torn_down id st) = fld <$> objs st.
Proof.
  pose proof (handleStrangerLeave_field id st) as H.
  unfold state_after in H. by rewrite handleStrangerLeave_run in H.
Qed.
End frames.

Lemma field_lookup {X} (fld : Socket → X) st st' id :
  fld <$> objs st' = fld <$> objs st → fld <$> objs st' !! id = fld <$> objs st !! id.
Proof. intros H. by rewrite <- !lookup_fmap, H. Qed.

Lemma field_is_Some {X} (fld : Socket → X) st st' id :
  fld <$> objs st' = fld <$> objs st → is_Some (objs st' !! id) ↔ is_Some (objs st !! id).
Proof. intros H. rewrite <- !(fmap_is_Some fld). by rewrite (field_lookup _ _ _ _ H). Qed.

Lemma currentRoom_of_field st st' id :
  currentRoom <$> objs st' = currentRoom <$> objs st →
  currentRoom_of id st' = currentRoom_of id st.
Proof.
  intros H%(field_lookup _ _ _ id). unfold currentRoom_of.
  destruct (objs st' !! id), (objs st !! id); simplify_eq/=; done.
Qed.

Lemma username_of_field st st' id :
  username <$> objs st' = username <$> objs st → username_of id st' = username_of id st.
Proof. intros H%(field_lookup _ _ _ id). unfold username_of. by rewrite H. Qed.

Lemma strangerRoom_of_field st st' id :
  strangerRoom <$> objs st' = strangerRoom <$> objs st →
  strangerRoom_of id st' = strangerRoom_of id st.
Proof.
  intros H%(field_lookup _ _ _ id). unfold strangerRoom_of.
  destruct (objs st' !! id), (objs st !! id); simplify_eq/=; done.
Qed.

Lemma partnerId_of_field st st' id :
  partnerId <$> objs st' = partnerId <$> objs st →
  partnerId_of id st' = partnerId_of id st.
Proof.
  intros H%(field_lookup _ _ _ id). unfold partnerId_of.
  destruct (objs st' !! id), (objs st !! id); simplify_eq/=; done.
Qed.

Lemma left_room_field {X} (fld : Socket → X) id room st :
  (∀ f s, fld (with_rooms f s) = fld s) →
  fld <$> objs (left_room id room st) = fld <$> objs st.
Proof. intros H. unfold left_room. simpl. by apply fmap_alter_frame. Qed.

Lemma room_left_field {X} (fld : Socket → X) id st :
  (∀ f s, fld (with_rooms f s) = fld s) →
  fld <$> objs (room_left id st) = fld <$> objs st.
Proof. intros H. unfold room_left. case_match; [by apply left_room_field | done]. Qed.

Lemma joined_room_field {X} (fld : Socket → X) id room st :
  (∀ f s, fld (with_rooms f s) = fld s) →
  fld <$> objs (joined_room id room st) = fld <$> objs st.
Proof. intros H. unfold joined_room. simpl. by apply fmap_alter_frame. Qed.

(** ** The room listeners in closed form *)

Lemma join_begin_run id room st :
  join_begin id room st =
  match safeRoom room with
  | None => (Throw, st, [])
  | Some r =>
      if decide (currentRoom_of id st = Some r) then (Normal false, st, [])
      else (Normal true, switched_room id r st, room_left_out id st)
  end.
Proof.
  unfold join_begin. destruct (safeRoom room) as [sr|]; [|done].
  unfold switched_room, room_left, room_left_out. unfold_helpers. run_M.
  case_decide; [done|].
  destruct (truthy_str (currentRoom_of id st)) as [r|] eqn:E; run_M.
  - apply truthy_str_Some in E as [E Hne]. rewrite E.
    rewrite leaveRoom_run by done. rewrite getUserCount_run, joinRoom_run.
    rewrite (username_of_field st) by (by apply left_room_field). rewrite app_nil_r. done.
  - by rewrite joinRoom_run.
Qed.

Lemma join_resume_run id st :
  join_resume id st =
  (tt, st, match currentRoom_of id st with
           | Some room => welcome_out id room st
           | None => []
           end).
Proof.
  unfold join_resume, welcome_out. run_M. destruct (currentRoom_of id st); [|done].
  by rewrite getUserCount_run.
Qed.

Lemma switched_room_currentRoom id room st :
  is_Some (objs st !! id) → currentRoom_of id (switched_room id room st) = Some room.
Proof.
  intros Hs. unfold switched_room, currentRoom_of, joined_room. simpl.
  rewrite lookup_alter_eq, lookup_alter_eq.
  assert (is_Some (objs (room_left id st) !! id)) as [s ->]; [|done].
  apply (field_is_Some currentRoom st); [by apply room_left_field | done].
Qed.

Lemma on_join_run id room st :
  on_join id room st =
  match safeRoom room with
  | None => (tt, st, [])
  | Some r =>
      if decide (currentRoom_of id st = Some r) then (tt, st, [])
      else (tt, switched_room id r st,
            room_left_out id st ++
            match currentRoom_of id (switched_room id r st) with
            | Some r' => welcome_out id r' (switched_room id r st)
            | None => []
            end)
  end.
Proof.
  unfold on_join. unfold bind at 1. rewrite join_begin_run.
  destruct (safeRoom room) as [r|]; [|done].
  case_decide; [done|]. by rewrite join_resume_run.
Qed.

(** ** Room names *)

(** C3 (as stated, refuted). A room name made of whitespace is truthy, so
    it is kept as it is and becomes the current room: it is not replaced by
    the fallback name. *)
Lemma whitespace_room_not_replaced :
  safeRoom (JStr "   ") = Some "   "
  ∧ "   " ≠ "general"
  ∧ currentRoom_of "a"
      (state_after (join_begin "a" (JStr "   ")) (after [Connection "a" (Some "alice")]))
    = Some "   ".
Proof. split_and!; [reflexivity | discriminate | reflexivity]. Qed.

(** C3 (as corrected). For a room name that is a JavaScript value: when
    it is falsy (absent, [null], the empty string, zero, [false]), the
    effective name is the fallback name ["general"]; when it is truthy and
    converts to a string that is not empty, the effective name is the
    first 50 characters of that string, all of it when it has no more.
    The name is not trimmed: a non-empty string of at most 50 characters
    is kept unchanged, surrounding whitespace included. The effective name
    is the current room of the connection as soon as the listener has run
    up to its read of the store. *)
Theorem join_effective_room id room st :
  is_Some (objs st !! id) → js_value room = true →
  (truthy room = false → safeRoom room = Some "general")
  ∧ (∀ s, truthy room = true → js_String room = Some s → s ≠ "" →
       ∃ r rest, safeRoom room = Some r ∧ s = r +:+ rest
                 ∧ String.length r = Nat.min 50 (String.length s))
  ∧ (∀ w, room = JStr w → w ≠ "" → String.length w ≤ 50 → safeRoom room = Some w)
  ∧ (∀ r, safeRoom room = Some r →
       currentRoom_of id (state_after (join_begin id room) st) = Some r
       ∧ String.length r ≤ 50).
Proof.
  intros Hs _. split_and!.
  - intros Hf. unfold safeRoom, js_or. by rewrite Hf.
  - intros s Ht Hstr _. unfold safeRoom, js_or. rewrite Ht, Hstr.
    cbn [fmap option_fmap option_map].
    destruct (slice0_prefix 50 s) as [rest Hrest].
    exists (slice0 50 s), rest. split_and!; [done | done | apply slice0_length_min].
  - intros w -> Hw Hlen. unfold safeRoom, js_or.
    apply truthy_JStr in Hw. rewrite Hw. cbn [js_String fmap option_fmap option_map].
    f_equal. by apply (slice0_short 50 w).
  - intros r Hr. split.
    + unfold state_after. rewrite join_begin_run, Hr. case_decide; simpl; [done|].
      by apply switched_room_currentRoom.
    + apply fmap_Some in Hr as (s & _ & ->). apply slice0_length.
Qed.

Lemma join_effective_room_witness :
  currentRoom_of "a"
    (state_after (join_begin "a" (JStr " dev ")) (after [Connection "a" (Some "alice")]))
  = Some " dev ".
Proof.
  refine (proj1 (proj2 (proj2 (proj2
    (join_effective_room "a" (JStr " dev ") (after [Connection "a" (Some "alice")]) _ _)))
    " dev " _)).
  - vm_compute. by eexists.
  - reflexivity.
  - reflexivity.
Defined.

(** ** The backlog of a room *)

Lemma insert_by_ts_perm m l : insert_by_ts m l ≡ₚ m :: l.
Proof.
  induction l as [|x l IH]; simpl; [done|].
  case_match; [done|]. rewrite IH. apply Permutation_swap.
Qed.

Lemma sort_by_ts_perm_acc l acc :
  fold_left (λ acc m, insert_by_ts m acc) l acc ≡ₚ acc ++ l.
Proof.
  revert acc. induction l as [|x l IH]; intros acc; simpl.
  - by rewrite app_nil_r.
  - rewrite IH, insert_by_ts_perm. simpl. apply Permutation_middle.
Qed.

Lemma sort_by_ts_perm l : sort_by_ts l ≡ₚ l.
Proof. unfold sort_by_ts. by rewrite sort_by_ts_perm_acc. Qed.

Lemma insert_by_ts_sorted m l :
  StronglySorted ts_le l → StronglySorted ts_le (insert_by_ts m l).
Proof.
  induction 1 as [|x l Hl IH Hx]; simpl.
  - repeat constructor.
  - destruct (Z.ltb_spec (msg_ts m) (msg_ts x)).
    + constructor; [by constructor|]. constructor; [unfold ts_le; lia|].
      eapply Forall_impl; [exact Hx|]. unfold ts_le. intros; simpl in *; lia.
    + constructor; [done|]. rewrite insert_by_ts_perm.
      constructor; [unfold ts_le; lia | done].
Qed.

Lemma sort_by_ts_sorted l : StronglySorted ts_le (sort_by_ts l).
Proof.
  unfold sort_by_ts. generalize (SSorted_nil ts_le). generalize (@nil Msg).
  induction l as [|x l IH]; intros acc Hacc; simpl; [done|].
  apply IH. by apply insert_by_ts_sorted.
Qed.

Lemma slice_last_sorted n l : StronglySorted ts_le l → StronglySorted ts_le (slice_last n l).
Proof.
  intros H. unfold slice_last.
  rewrite <- (take_drop (length l - n) l) in H. by apply StronglySorted_app_1_r in H.
Qed.

Lemma slice_last_length n l : length (slice_last n l) ≤ n.
Proof. unfold slice_last. rewrite length_drop. lia. Qed.

Lemma recent_history_spec room msgs :
  Forall (λ m, msg_room m = room ∧ m ∈ msgs) (recent_history room msgs)
  ∧ StronglySorted ts_le (recent_history room msgs)
  ∧ length (recent_history room msgs) ≤ 30.
Proof.
  unfold recent_history. split_and!.
  - apply Forall_forall. intros m Hm. apply subseteq_drop in Hm.
    rewrite sort_by_ts_perm in Hm. apply list_elem_of_filter in Hm. naive_solver.
  - apply slice_last_sorted, sort_by_ts_sorted.
  - apply slice_last_length.
Qed.

Lemma switched_room_messages id room st : messages (switched_room id room st) = messages st.
Proof. unfold switched_room, room_left. by case_match. Qed.

Lemma switched_room_absent id room st :
  objs st !! id = None → currentRoom_of id (switched_room id room st) = None.
Proof.
  intros Hs. unfold switched_room, currentRoom_of, joined_room. simpl.
  rewrite !lookup_alter_eq.
  assert (objs (room_left id st) !! id = None) as ->; [|done].
  apply eq_None_not_Some. intros H1.
  apply (field_is_Some currentRoom st) in H1; [|by apply room_left_field].
  rewrite Hs in H1. by destruct H1.
Qed.

Lemma history_of_welcome id room st t items :
  (t, Ev_history items) ∈ welcome_out id room st →
  t = ToSocket id ∧ items = recent_history room (messages st).
Proof.
  unfold welcome_out. rewrite !elem_of_cons, elem_of_nil.
  intros [?|[?|[?|[?|[]]]]]; by simplify_eq.
Qed.

Lemma no_history_of_room_left id st t items : (t, Ev_history items) ∉ room_left_out id st.
Proof.
  unfold room_left_out. case_match; [|apply not_elem_of_nil].
  rewrite !elem_of_cons, elem_of_nil. intros [?|[?|[]]]; by simplify_eq.
Qed.

Lemma recent_history_last room msgs :
  ∃ older,
    older ++ recent_history room msgs ≡ₚ filter (λ m, msg_room m = room) msgs
    ∧ StronglySorted ts_le (older ++ recent_history room msgs)
    ∧ length (recent_history room msgs)
      = Nat.min 30 (length (filter (λ m, msg_room m = room) msgs)).
Proof.
  unfold recent_history, slice_last.
  set (l := sort_by_ts (filter (λ m, msg_room m = room) msgs)).
  exists (take (length l - 30) l). rewrite take_drop. split_and!.
  - apply sort_by_ts_perm.
  - apply sort_by_ts_sorted.
  - rewrite length_drop. unfold l. rewrite sort_by_ts_perm. lia.
Qed.

(** C9 (the code at the failing input). The room ops holds one message,
    sent by another connection. A connection sends [join] for the room
    dev and, before the store read of that join completes, [join] for the
    room ops. Both listeners went on to read the store. When the first
    one resumes, the current room is ops: the history that answers the
    join of dev is the backlog of ops. *)
Theorem join_history_of_overtaking_join :
  let st0 := after [Connection "b" (Some "bob");
                    Join "b" (JObj [("room", JStr "ops")]);
                    ChatMessage "b" (JStr "hello") "m1" 5;
                    Connection "a" (Some "alice")] in
  let st1 := state_after (join_begin "a" (JStr "dev")) st0 in
  let st2 := state_after (join_begin "a" (JStr "ops")) st1 in
  result (join_begin "a" (JStr "dev")) st0 = Normal true
  ∧ result (join_begin "a" (JStr "ops")) st1 = Normal true
  ∧ head (emitted (join_resume "a") st2)
    = Some (ToSocket "a", Ev_history [mkMsg "m1" "bob" "ops" "hello" 5])
  ∧ msg_room (mkMsg "m1" "bob" "ops" "hello" 5) ≠ "dev".
Proof. split_and!; [reflexivity | reflexivity | reflexivity | discriminate]. Qed.

(** The history a resumed [join] sends. When the listener goes on after
    the read of the store, with [room] the current room of the connection
    by then (the room joined, unless another [join] of the connection was
    handled meanwhile), the first thing it emits is the one [history]
    event, to the joining connection only. Its items are stored records of
    [room] only, in the order of their timestamps, oldest first: they are
    the last 30 of the records of [room] so ordered, all of them when
    there are no more. *)
Theorem join_resume_history id st room :
  currentRoom_of id st = Some room →
  ∃ items rest,
    emitted (join_resume id) st = (ToSocket id, Ev_history items) :: rest
    ∧ (∀ t items', (t, Ev_history items') ∈ emitted (join_resume id) st →
         t = ToSocket id ∧ items' = items)
    ∧ Forall (λ m, msg_room m = room ∧ m ∈ messages st) items
    ∧ (∃ older,
         older ++ items ≡ₚ filter (λ m, msg_room m = room) (messages st)
         ∧ StronglySorted ts_le (older ++ items))
    ∧ length items = Nat.min 30 (length (filter (λ m, msg_room m = room) (messages st))).
Proof.
  intros Hc. unfold emitted. rewrite join_resume_run, Hc. simpl.
  eexists _, _. split; [reflexivity|].
  destruct (recent_history_last room (messages st)) as (older & Hperm & Hsort & Hlen).
  split_and!.
  - intros t items' Hin. by apply (history_of_welcome id room st).
  - apply recent_history_spec.
  - by exists older.
  - done.
Qed.

Lemma join_resume_history_witness :
  let st := state_after (join_begin "a" (JStr "dev"))
              (state_after (on_connection "a" (Some "alice"))
                 (init [mkMsg "m1" "bob" "dev" "later" 20; mkMsg "m2" "eve" "ops" "x" 5;
                        mkMsg "m3" "bob" "dev" "sooner" 10])) in
  ∃ items rest,
    emitted (join_resume "a") st = (ToSocket "a", Ev_history items) :: rest
    ∧ items = [mkMsg "m3" "bob" "dev" "sooner" 10; mkMsg "m1" "bob" "dev" "later" 20].
Proof.
  intros st.
  destruct (join_resume_history "a" st "dev" eq_refl) as (items & rest & Hem & _).
  exists items, rest. split; [exact Hem|].
  vm_compute in Hem. by injection Hem as <- _.
Defined.

(** ** The stranger listeners in closed form *)

Lemma torn_down_io id st : io_sockets (torn_down id st) = io_sockets st.
Proof. unfold torn_down. by case_match. Qed.

Lemma torn_down_queue id st : waitingQueue (torn_down id st) = waitingQueue st.
Proof. unfold torn_down. by case_match. Qed.

Lemma torn_down_members id st : roomMembers (torn_down id st) = roomMembers st.
Proof. unfold torn_down. by case_match. Qed.

Lemma gone_field p st st' :
  io_sockets st' = io_sockets st → connected <$> objs st' = connected <$> objs st →
  gone (io_get p st') = gone (io_get p st).
Proof.
  intros Hio Hc%(field_lookup _ _ _ p). unfold io_get. rewrite Hio.
  case_decide; [|done]. destruct (objs st' !! p), (objs st !! p); simplify_eq/=; congruence.
Qed.

Lemma on_findStranger_run id nid st :
  on_findStranger id nid st =
  match waitingQueue st with
  | [] =>
      (tt, upd_queue (set_add id) (torn_down id st),
       torn_down_out id st ++ [(ToSocket id, Ev_waitingStranger)])
  | p :: _ =>
      if gone (io_get p st) then
        (tt, upd_queue (set_add id) (upd_queue (set_delete p) (torn_down id st)),
         torn_down_out id st ++ [(ToSocket id, Ev_waitingStranger)])
      else
        (tt, upd_objs (pair_up id p ("stranger-" +:+ nid))
               (upd_queue (set_delete p) (torn_down id st)),
         torn_down_out id st ++ [(ToRoom ("stranger-" +:+ nid), Ev_strangerFound)])
  end.
Proof.
  unfold on_findStranger. unfold bind at 1. rewrite leave_if_paired_run.
  unfold_helpers. run_M. rewrite torn_down_queue.
  destruct (waitingQueue st) as [|p rest]; run_M; [done|].
  rewrite (gone_field p st); [|apply torn_down_io|by apply torn_down_field].
  destruct (gone (io_get p st)); run_M; done.
Qed.

Lemma on_strangerMessage_run id text nid now st :
  on_strangerMessage id text nid now st =
  (match truthy_str (strangerRoom_of id st), truthy_str (partnerId_of id st) with
   | Some _, Some p =>
       if gone (io_get p st) then Normal tt
       else match safeText text with
            | Some _ => Normal tt
            | None => Throw
            end
   | _, _ => Normal tt
   end,
   st,
   match truthy_str (strangerRoom_of id st), truthy_str (partnerId_of id st) with
   | Some room, Some p =>
       if gone (io_get p st) then [(ToSocket id, Ev_systemMessage partner_gone_text)]
       else match safeText text with
            | Some t => [(ToRoom room, Ev_strangerMessage nid (username_of id st) t now)]
            | None => []
            end
   | _, _ => []
   end).
Proof.
  unfold on_strangerMessage. run_M.
  destruct (truthy_str (strangerRoom_of id st)), (truthy_str (partnerId_of id st)); try done.
  run_M. destruct (gone _); [done|]. run_M. by destruct (safeText text).
Qed.

Lemma on_leaveStranger_run id st :
  on_leaveStranger id st =
  if decide (id ∈ waitingQueue st)
  then (tt, upd_queue (set_delete id) st, [(ToSocket id, Ev_youDisconnected)])
  else (tt, torn_down id st, torn_down_out id st).
Proof.
  unfold on_leaveStranger. run_M. case_decide; [done|].
  by rewrite leave_if_paired_run.
Qed.

Lemma in_group_elem st room id :
  id ∈ in_group st room ↔ id ∈ io_sockets st ∧ has_joined st room id = true.
Proof. unfold in_group. rewrite elem_of_filter, Is_true_true. tauto. Qed.

(** ** Looking for a stranger *)

Lemma set_add_elem x q : x ∈ set_add x q.
Proof. unfold set_add. case_decide; [done|]. apply elem_of_app. right. by left. Qed.

Lemma set_add_keeps x y q : y ∈ q → y ∈ set_add x q.
Proof. unfold set_add. case_decide; [done|]. intros. apply elem_of_app. by left. Qed.

Lemma set_delete_elem x y q : y ∈ set_delete x q ↔ y ∈ q ∧ y ≠ x.
Proof. unfold set_delete. rewrite list_elem_of_filter. tauto. Qed.

Lemma set_delete_absent x q : x ∉ q → set_delete x q = q.
Proof.
  intros H. unfold set_delete. induction q as [|y q IH]; [done|].
  apply not_elem_of_cons in H as [? ?]. rewrite filter_cons_True by done. f_equal. by apply IH.
Qed.

Lemma unlink_lookup room (o : option Socket) :
  (unlink room <$> o) ≫= strangerRoom = None ∧ (unlink room <$> o) ≫= partnerId = None.
Proof. by destruct o. Qed.

(** Tearing a link down clears pairing states and sets none. *)
Lemma torn_down_links id st a :
  (strangerRoom_of a (torn_down id st) = strangerRoom_of a st
   ∧ partnerId_of a (torn_down id st) = partnerId_of a st)
  ∨ unpaired (torn_down id st) a.
Proof.
  unfold torn_down. destruct (truthy_str (strangerRoom_of id st)) as [room|]; [|by left].
  unfold unpaired, strangerRoom_of, partnerId_of. simpl.
  rewrite lookup_alter. case_decide as Ha.
  { right. apply unlink_lookup. }
  destruct (truthy_str _) as [p|]; [|by left].
  case_decide; [|by left]. rewrite lookup_alter. case_decide; [|by left].
  right. apply unlink_lookup.
Qed.

Lemma torn_down_no_new_link id st a b room :
  paired (torn_down id st) a b room → paired st a b room.
Proof.
  intros [H1 H2]. destruct (torn_down_links id st a) as [[E1 E2] | [E1 E2]].
  - split; congruence.
  - congruence.
Qed.

Lemma torn_down_unpaired_self id st :
  truthy_str (strangerRoom_of id (torn_down id st)) = None.
Proof.
  unfold torn_down. destruct (truthy_str (strangerRoom_of id st)) as [room|] eqn:E; [|done].
  unfold strangerRoom_of at 1. simpl. rewrite lookup_alter_eq.
  by rewrite (proj1 (unlink_lookup _ _)).
Qed.

(** C8. When the candidate at the head of the waiting queue is no longer
    a connected socket of the namespace, [findStranger] removes it from the
    queue, adds the requester to the queue and tells the requester it is
    waiting. Besides what tearing down the requester's own former link
    emits, nothing else is emitted. No pairing link is created: every
    link of the resulting state was one before, and the requester holds
    none. The other entries of the queue stay where they were: none of
    them is tried. *)
Theorem findStranger_stale_candidate id nid st cand rest :
  waitingQueue st = cand :: rest →
  gone (io_get cand st) = true →
  let st' := state_after (on_findStranger id nid) st in
  waitingQueue st' = set_add id (set_delete cand rest)
  ∧ id ∈ waitingQueue st'
  ∧ (cand ∉ set_delete cand rest)
  ∧ (∀ x, x ∈ rest → x ≠ cand → x ∈ waitingQueue st')
  ∧ emitted (on_findStranger id nid) st =
      torn_down_out id st ++ [(ToSocket id, Ev_waitingStranger)]
  ∧ objs st' = objs (torn_down id st)
  ∧ (∀ a b room, paired st' a b room → paired st a b room)
  ∧ truthy_str (strangerRoom_of id st') = None.
Proof.
  intros Hq Hg st'. subst st'. unfold state_after, emitted.
  rewrite on_findStranger_run, Hq, Hg. simpl. rewrite torn_down_queue, Hq.
  assert (set_delete cand (cand :: rest) = set_delete cand rest) as ->.
  { unfold set_delete. by rewrite filter_cons_False by (intros ?; done). }
  split_and!; try done.
  - apply set_add_elem.
  - rewrite set_delete_elem. tauto.
  - intros x Hx Hne. apply set_add_keeps, set_delete_elem. done.
  - intros a b room. apply torn_down_no_new_link.
  - apply torn_down_unpaired_self.
Qed.

Lemma findStranger_stale_candidate_witness :
  let st := upd_queue (λ _, ["zed"; "b"])
              (after [Connection "a" (Some "alice"); Connection "b" (Some "bob")]) in
  waitingQueue (state_after (on_findStranger "a" "n1") st) = ["b"; "a"]
  ∧ emitted (on_findStranger "a" "n1") st = [(ToSocket "a", Ev_waitingStranger)].
Proof.
  intros st.
  destruct (findStranger_stale_candidate "a" "n1" st "zed" ["b"]) as (H1 & _ & _ & _ & H2 & _).
  - reflexivity.
  - reflexivity.
  - split; [exact H1 | exact H2].
Defined.

Lemma pair_up_lookup id p room m :
  pair_up id p room m !! id =
  (λ s, with_partnerId (Some p) (with_strangerRoom (Some room) s)) <$>
    (alter (with_partnerId (Some id)) p
      (alter (with_strangerRoom (Some room)) p
        (alter (with_rooms (λ rs, {[room]} ∪ rs)) id
          (alter (with_rooms (λ rs, {[room]} ∪ rs)) p m))) !! id).
Proof. unfold pair_up. rewrite !lookup_alter_eq. by destruct (_ !! id). Qed.

Lemma is_open_Some id st :
  is_open id st = true → id ∈ io_sockets st ∧ is_Some (objs st !! id) ∧ gone (io_get id st) = false.
Proof.
  unfold is_open, io_get. case_decide; [|done].
  destruct (objs st !! id) eqn:E; simpl; [|done]. intros ->%negb_true_iff. by eauto.
Qed.

Lemma torn_down_is_Some id st a : is_Some (objs (torn_down id st) !! a) ↔ is_Some (objs st !! a).
Proof. apply (field_is_Some username). by apply torn_down_field. Qed.

(** C1 (the code breaks it). When the requester is itself the entry at the
    head of the waiting queue, [findStranger] takes it as the candidate,
    finds it connected, and binds the requester to itself: its pairing
    state names its own identifier as partner. *)
Theorem findStranger_pairs_requester_with_itself id nid st rest :
  waitingQueue st = id :: rest →
  is_open id st = true →
  paired (state_after (on_findStranger id nid) st) id id ("stranger-" +:+ nid).
Proof.
  intros Hq (Hio & Hs & Hg)%is_open_Some. unfold state_after.
  rewrite on_findStranger_run, Hq, Hg. simpl.
  apply torn_down_is_Some with (id := id) in Hs as [s Hs].
  unfold paired, strangerRoom_of, partnerId_of. simpl. rewrite pair_up_lookup.
  rewrite !lookup_alter_eq, Hs. done.
Qed.

Lemma findStranger_pairs_requester_with_itself_witness :
  paired (after [Connection "a" (Some "alice"); FindStranger "a" "n1"; FindStranger "a" "n2"])
         "a" "a" "stranger-n2".
Proof.
  apply (findStranger_pairs_requester_with_itself "a" "n2"
           (after [Connection "a" (Some "alice"); FindStranger "a" "n1"]) []).
  - reflexivity.
  - reflexivity.
Defined.

(** ** Disconnect cleanup *)

Lemma on_disconnect_run id st :
  on_disconnect id st =
  (tt, torn_down id (dequeued id (room_left id st)),
   room_left_out id st ++ torn_down_out id (dequeued id (room_left id st))).
Proof.
  unfold on_disconnect, room_left, room_left_out, dequeued. run_M.
  destruct (truthy_str (currentRoom_of id st)) as [r|] eqn:E.
  - apply truthy_str_Some in E as [E Hne]. rewrite E. run_M.
    rewrite leaveRoom_run by done. rewrite getUserCount_run.
    rewrite (username_of_field st) by (by apply left_room_field).
    destruct (decide (id ∈ waitingQueue (left_room id r st))); run_M;
      rewrite leave_if_paired_run; done.
  - destruct (decide (id ∈ waitingQueue st)); run_M; rewrite leave_if_paired_run; done.
Qed.

Lemma members_leave_idem id room m :
  members_leave id room (members_leave id room m) = members_leave id room m.
Proof.
  unfold members_leave at 2 3. destruct (m !! room) as [set|] eqn:E.
  - case_decide as Hsz; unfold members_leave.
    + by rewrite lookup_delete_eq.
    + rewrite lookup_insert_eq.
      assert ((set ∖ {[id]}) ∖ {[id]} = set ∖ {[id]}) as -> by set_solver.
      rewrite decide_False by done. by rewrite insert_insert_eq.
  - unfold members_leave. by rewrite E.
Qed.

Lemma dequeued_absent id st : id ∉ waitingQueue st → dequeued id st = st.
Proof. intros H. unfold dequeued. by rewrite decide_False. Qed.

Lemma dequeued_not_elem id st : id ∉ waitingQueue (dequeued id st).
Proof.
  unfold dequeued. case_decide; [|done]. simpl. rewrite set_delete_elem. tauto.
Qed.

Lemma torn_down_unpaired id st : truthy_str (strangerRoom_of id st) = None → torn_down id st = st.
Proof. intros H. unfold torn_down. by rewrite H. Qed.

Lemma torn_down_out_unpaired id st :
  truthy_str (strangerRoom_of id st) = None → torn_down_out id st = [].
Proof. intros H. unfold torn_down_out. by rewrite H. Qed.

(** Tearing a link down only takes sockets out of groups. *)
Lemma torn_down_rooms id st a s1 :
  objs (torn_down id st) !! a = Some s1 →
  ∃ s0, objs st !! a = Some s0 ∧ rooms s1 ⊆ rooms s0.
Proof.
  unfold torn_down. destruct (truthy_str (strangerRoom_of id st)) as [room|]; [|by eauto].
  simpl. intros H.
  assert (∀ (m : gmap string Socket) x y s,
            alter (unlink room) x m !! y = Some s →
            ∃ s', m !! y = Some s' ∧ rooms s ⊆ rooms s') as Hstep.
  { intros m x y s. rewrite lookup_alter. case_decide; [|by eauto]. subst.
    destruct (m !! y) as [s'|]; [|done]. intros [= <-]. exists s'. split; [done|].
    simpl. set_solver. }
  apply Hstep in H as (s' & H & Hsub).
  destruct (truthy_str (partnerId_of id st)) as [p|]; [|by eauto].
  case_decide; [|by eauto]. apply Hstep in H as (s'' & H & Hsub').
  exists s''. split; [done | set_solver].
Qed.

(** A socket outside the group [room] and a room without it: leaving
    changes nothing. *)
Lemma left_room_fixpoint id room st :
  members_leave id room (roomMembers st) = roomMembers st →
  (∀ s, objs st !! id = Some s → room ∉ rooms s) →
  left_room id room st = st.
Proof.
  intros Hm Hs. unfold left_room, upd_objs, upd_members. simpl. rewrite Hm.
  rewrite alter_id; [by destruct st|].
  intros [] Hx. apply Hs in Hx. unfold with_rooms. simpl in *. f_equal. set_solver.
Qed.

Lemma disconnected_state_fixpoint id st :
  let st1 := torn_down id (dequeued id (room_left id st)) in
  room_left id st1 = st1 ∧ dequeued id st1 = st1 ∧ torn_down id st1 = st1
  ∧ room_left_out id st1 = room_left_out id st
  ∧ torn_down_out id st1 = [].
Proof.
  intros st1.
  assert (currentRoom_of id st1 = currentRoom_of id st) as Hcur.
  { apply currentRoom_of_field. unfold st1. rewrite torn_down_field by done.
    unfold dequeued. case_decide; simpl; by apply room_left_field. }
  assert (username_of id st1 = username_of id st) as Huser.
  { apply username_of_field. unfold st1. rewrite torn_down_field by done.
    unfold dequeued. case_decide; simpl; by apply room_left_field. }
  assert (roomMembers st1 = roomMembers (room_left id st)) as Hmem.
  { unfold st1. rewrite torn_down_members. unfold dequeued. by case_decide. }
  assert (truthy_str (strangerRoom_of id st1) = None) as Hun
    by apply torn_down_unpaired_self.
  assert (id ∉ waitingQueue st1) as Hq.
  { unfold st1. rewrite torn_down_queue. apply dequeued_not_elem. }
  assert (room_left id st1 = st1) as Hleft.
  { unfold room_left. rewrite Hcur.
    destruct (truthy_str (currentRoom_of id st)) as [r|] eqn:E; [|done].
    apply left_room_fixpoint.
    - rewrite Hmem. unfold room_left. rewrite E. simpl. apply members_leave_idem.
    - intros s1 Hs1. unfold st1 in Hs1. apply torn_down_rooms in Hs1 as (s0 & Hs0 & Hsub).
      assert (objs (dequeued id (room_left id st)) = objs (left_room id r st)) as Ho.
      { unfold dequeued, room_left. rewrite E. by case_decide. }
      rewrite Ho in Hs0. unfold left_room in Hs0. simpl in Hs0.
      rewrite lookup_alter_eq in Hs0. destruct (objs st !! id); simplify_eq/=.
      set_solver. }
  split_and!.
  - done.
  - by apply dequeued_absent.
  - by apply torn_down_unpaired.
  - unfold room_left_out. rewrite Hcur, Huser.
    destruct (truthy_str (currentRoom_of id st)) as [r|] eqn:E; [|done].
    do 4 f_equal. unfold user_count, left_room. simpl. rewrite Hmem.
    unfold room_left. rewrite E. simpl. by rewrite members_leave_idem.
  - by apply torn_down_out_unpaired.
Qed.

(** C2 (as stated, refuted). With [a] and [b] in room ["general"], the
    cleanup of [a]'s disconnection run a second time emits the room-left
    notice and the presence count again, and [b] receives them. *)
Lemma disconnect_cleanup_repeats_room_notice :
  let st := after [Connection "a" (Some "alice"); Connection "b" (Some "bob");
                   Join "a" (JObj [("room", JStr "general")]);
                   Join "b" (JObj [("room", JStr "general")]);
                   Disconnect "a"] in
  emitted (on_disconnect "a") st =
    [(ToRoom "general", Ev_systemMessage "alice left the room.");
     (ToRoom "general", Ev_presence "general" 1)]
  ∧ recipients st (ToRoom "general") = {["b"]}.
Proof. split; vm_compute; reflexivity. Qed.

(** C2 (as corrected). Running the disconnect cleanup of a connection a
    second time leaves the shared state as the first run left it and
    emits no pairing event; but it emits again what the first run emitted
    to the connection's current room, the room-left notice and the
    presence count, and nothing when the connection has no current
    room. *)
Theorem disconnect_cleanup_twice id st :
  let st1 := state_after (on_disconnect id) st in
  state_after (on_disconnect id) st1 = st1
  ∧ emitted (on_disconnect id) st1 = room_left_out id st
  ∧ emitted (on_disconnect id) st =
      room_left_out id st ++ torn_down_out id (dequeued id (room_left id st))
  ∧ room_left_out id st =
      match truthy_str (currentRoom_of id st) with
      | Some r =>
          [(ToRoom r, Ev_systemMessage (username_of id st +:+ " left the room."));
           (ToRoom r, Ev_presence r (user_count r st1))]
      | None => []
      end.
Proof.
  intros st1. subst st1. unfold state_after, emitted. rewrite !on_disconnect_run. simpl.
  destruct (disconnected_state_fixpoint id st) as (H1 & H2 & H3 & H4 & H5).
  rewrite H1, H2, H3, H4, H5. split_and!; try done.
  - by rewrite app_nil_r.
  - unfold room_left_out. destruct (truthy_str (currentRoom_of id st)) as [r|] eqn:E; [|done].
    do 4 f_equal. unfold user_count. rewrite torn_down_members.
    unfold dequeued, room_left. rewrite E. by case_decide.
Qed.

(** ** The pairing invariant *)

Lemma paired_inj st a b b' room room' :
  paired st a b room → paired st a b' room' → b = b' ∧ room = room'.
Proof. intros [H1 H2] [H3 H4]. split; congruence. Qed.

Lemma paired_not_unpaired st a b room : paired st a b room → unpaired st a → False.
Proof. intros [H1 _] [H2 _]. congruence. Qed.

Lemma paired_is_Some st a b room : paired st a b room → is_Some (objs st !! a).
Proof. intros [H _]. unfold strangerRoom_of in H. by destruct (objs st !! a). Qed.

Section same_links.
Context (st st2 : State).
Hypothesis same_rooms : strangerRoom <$> objs st2 = strangerRoom <$> objs st.
Hypothesis same_partners : partnerId <$> objs st2 = partnerId <$> objs st.

Lemma paired_same a b room : paired st2 a b room ↔ paired st a b room.
Proof.
  unfold paired.
  by rewrite (strangerRoom_of_field st st2), (partnerId_of_field st st2).
Qed.

Lemma unpaired_same a : unpaired st2 a ↔ unpaired st a.
Proof.
  unfold unpaired.
  by rewrite (strangerRoom_of_field st st2), (partnerId_of_field st st2).
Qed.

Lemma is_Some_same a : is_Some (objs st2 !! a) ↔ is_Some (objs st !! a).
Proof. by apply (field_is_Some strangerRoom). Qed.
End same_links.

(** Tearing down the link of [id] with [b] clears both ends and touches
    no other socket's pairing state. *)
Lemma torn_down_paired st id b room :
  paired st id b room → room ≠ "" → b ≠ "" → b ∈ io_sockets st ∨ b = id →
  ∀ x, (x = id ∨ x = b → unpaired (torn_down id st) x)
       ∧ (x ≠ id → x ≠ b →
          strangerRoom_of x (torn_down id st) = strangerRoom_of x st
          ∧ partnerId_of x (torn_down id st) = partnerId_of x st).
Proof.
  intros [Hr Hp] Hrne Hbne Hb x. unfold torn_down.
  rewrite (proj2 (truthy_str_Some _ room)), (proj2 (truthy_str_Some _ b)) by done.
  unfold unpaired, strangerRoom_of, partnerId_of. simpl. split.
  - intros Hx. rewrite lookup_alter. case_decide; [apply unlink_lookup|].
    destruct Hx as [-> | ->]; [done|]. destruct Hb as [Hb | ->]; [|done].
    rewrite decide_True by done. rewrite lookup_alter_eq. apply unlink_lookup.
  - intros H1 H2. rewrite lookup_alter_ne by done.
    case_decide; [by rewrite lookup_alter_ne | done].
Qed.

Lemma teardown_inv id st st2 :
  pairing_inv st →
  strangerRoom <$> objs st2 = strangerRoom <$> objs st →
  partnerId <$> objs st2 = partnerId <$> objs st →
  io_sockets st2 = io_sockets st ∨ io_sockets st2 = io_sockets st ∖ {[id]} →
  (∀ q, q ∈ waitingQueue st2 → q ∈ waitingQueue st ∧ q ∈ io_sockets st2) →
  length (waitingQueue st2) ≤ 1 →
  pairing_inv (torn_down id st2) ∧ unpaired (torn_down id st2) id.
Proof.
  intros Hinv Hsr Hpi Hio Hq Hlen.
  pose proof (paired_same st st2 Hsr Hpi) as Hps.
  pose proof (unpaired_same st st2 Hsr Hpi) as Hus.
  pose proof (is_Some_same st st2 Hsr) as Hss.
  assert (∀ x, x ∈ io_sockets st2 → x ∈ io_sockets st) as Hsub.
  { intros x. destruct Hio as [-> | ->]; set_solver. }
  assert (∀ x, x ∈ io_sockets st → x ≠ id → x ∈ io_sockets st2) as Hsup.
  { intros x. destruct Hio as [-> | ->]; set_solver. }
  destruct (inv_link st Hinv id) as [Hun | (b & room & Hp & Hr & Hid & Hb & Hpb)].
  - (* no link to tear down *)
    rewrite torn_down_unpaired by (apply Hus in Hun as [-> _]; done).
    split; [|by apply Hus]. split.
    + intros x Hx. apply (inv_ids st Hinv), Hss, Hx.
    + intros x Hx. apply Hss, (inv_live st Hinv), Hsub, Hx.
    + intros a. destruct (inv_link st Hinv a) as [Ha | (c & r & Hac & Hrne & Hia & Hic & Hca)].
      * left. by apply Hus.
      * right. exists c, r. rewrite !Hps. split_and!; try done.
        -- apply Hsup; [done|]. intros ->. exact (paired_not_unpaired _ _ _ _ Hac Hun).
        -- apply Hsup; [done|]. intros ->. exact (paired_not_unpaired _ _ _ _ Hca Hun).
    + intros q Hqin. destruct (Hq q Hqin) as [Hq1 Hq2]. split; [done|].
      apply Hus. by apply (inv_queue st Hinv).
    + done.
  - (* the link of [id] with [b] *)
    assert (b ≠ "") as Hbne by (apply (inv_ids st Hinv), (inv_live st Hinv), Hb).
    assert (b ∈ io_sockets st2 ∨ b = id) as Hb2.
    { destruct (decide (b = id)); [by right | left; by apply Hsup]. }
    pose proof (torn_down_paired st2 id b room (proj2 (Hps _ _ _) Hp) Hr Hbne Hb2) as Htd.
    assert (∀ x, x ≠ id → x ≠ b → ∀ c r,
              paired (torn_down id st2) x c r ↔ paired st x c r) as Hkeep.
    { intros x H1 H2 c r. destruct (Htd x) as [_ [E1 E2]]; [done..|].
      unfold paired at 1. rewrite E1, E2. apply Hps. }
    assert (∀ x, unpaired st x → unpaired (torn_down id st2) x) as Hkeepu.
    { intros x Hx. destruct (torn_down_links id st2 x) as [[E1 E2] | ?]; [|done].
      unfold unpaired. rewrite E1, E2. by apply Hus. }
    split; [|by apply Htd; left]. split.
    + intros x Hx. apply (inv_ids st Hinv), Hss. by apply torn_down_is_Some in Hx.
    + intros x Hx. apply torn_down_is_Some, Hss, (inv_live st Hinv), Hsub.
      by rewrite torn_down_io in Hx.
    + intros a. destruct (decide (a = id ∨ a = b)) as [Hab | Hab].
      { left. by apply Htd. }
      assert (a ≠ id ∧ a ≠ b) as [Ha1 Ha2] by tauto.
      destruct (inv_link st Hinv a) as [Ha | (c & r & Hac & Hrne & Hia & Hic & Hca)].
      * left. by apply Hkeepu.
      * right. exists c, r.
        assert (c ≠ id) as Hc1.
        { intros ->. destruct (paired_inj _ _ _ _ _ _ Hp Hca) as [-> _]. done. }
        assert (c ≠ b) as Hc2.
        { intros ->. destruct (paired_inj _ _ _ _ _ _ Hpb Hca) as [-> _]. done. }
        rewrite torn_down_io. rewrite !Hkeep by done. split_and!; try done; by apply Hsup.
    + intros q Hqin. rewrite torn_down_queue in Hqin. rewrite torn_down_io.
      destruct (Hq q Hqin) as [Hq1 Hq2]. split; [done|].
      apply Hkeepu. by apply (inv_queue st Hinv).
    + by rewrite torn_down_queue.
Qed.

Lemma pairing_inv_init stored : pairing_inv (init stored).
Proof.
  split; simpl.
  - intros id [s Hs]. by rewrite lookup_empty in Hs.
  - intros id Hid. by apply not_elem_of_empty in Hid.
  - intros a. left. split; unfold strangerRoom_of, partnerId_of; simpl;
      by rewrite lookup_empty.
  - intros q Hq. by apply elem_of_nil in Hq.
  - lia.
Qed.

Lemma pairing_inv_frame st st2 :
  pairing_inv st →
  strangerRoom <$> objs st2 = strangerRoom <$> objs st →
  partnerId <$> objs st2 = partnerId <$> objs st →
  io_sockets st2 = io_sockets st →
  (∀ q, q ∈ waitingQueue st2 → q ∈ io_sockets st ∧ unpaired st q) →
  length (waitingQueue st2) ≤ 1 →
  pairing_inv st2.
Proof.
  intros Hinv Hsr Hpi Hio Hq Hlen.
  pose proof (paired_same st st2 Hsr Hpi) as Hps.
  pose proof (unpaired_same st st2 Hsr Hpi) as Hus.
  pose proof (is_Some_same st st2 Hsr) as Hss.
  split.
  - intros x Hx. apply (inv_ids st Hinv), Hss, Hx.
  - intros x Hx. rewrite Hio in Hx. apply Hss, (inv_live st Hinv), Hx.
  - intros a. destruct (inv_link st Hinv a) as [Ha | (c & r & Hac & Hrne & Hia & Hic & Hca)].
    + left. by apply Hus.
    + right. exists c, r. by rewrite !Hps, Hio.
  - intros q Hqin. rewrite Hio, Hus. by apply Hq.
  - done.
Qed.

Lemma pairing_inv_same st st2 :
  pairing_inv st →
  strangerRoom <$> objs st2 = strangerRoom <$> objs st →
  partnerId <$> objs st2 = partnerId <$> objs st →
  io_sockets st2 = io_sockets st →
  waitingQueue st2 = waitingQueue st →
  pairing_inv st2.
Proof.
  intros Hinv Hsr Hpi Hio Hq. apply (pairing_inv_frame st); try done.
  - rewrite Hq. apply (inv_queue st Hinv).
  - rewrite Hq. apply (inv_queue_len st Hinv).
Qed.

Lemma pair_up_links id p room (m : gmap string Socket) x :
  (pair_up id p room m !! x) ≫= strangerRoom =
    (if decide (x = id ∨ x = p) then m !! x ≫= (λ _, Some room) else m !! x ≫= strangerRoom)
  ∧ (pair_up id p room m !! x) ≫= partnerId =
    (if decide (x = id) then m !! x ≫= (λ _, Some p)
     else if decide (x = p) then m !! x ≫= (λ _, Some id)
     else m !! x ≫= partnerId).
Proof.
  unfold pair_up. rewrite !lookup_alter.
  repeat case_decide; simplify_eq; try tauto;
    repeat match goal with |- context [m !! ?y] => destruct (m !! y) end; done.
Qed.

Lemma pair_up_is_Some id p room (m : gmap string Socket) x :
  is_Some (pair_up id p room m !! x) ↔ is_Some (m !! x).
Proof. unfold pair_up. by rewrite !lookup_alter_is_Some. Qed.

(** Binding two sockets that hold no link, with the queue left empty. *)
Lemma pair_up_inv st st2 id p room :
  pairing_inv st → unpaired st id → unpaired st p →
  id ∈ io_sockets st → p ∈ io_sockets st → room ≠ "" →
  objs st2 = pair_up id p room (objs st) →
  io_sockets st2 = io_sockets st →
  waitingQueue st2 = [] →
  pairing_inv st2 ∧ paired st2 id p room ∧ paired st2 p id room.
Proof.
  intros Hinv Hid Hp Hiid Hip Hr Ho Hio Hq.
  assert (is_Some (objs st !! id)) as [sid Hsid] by by apply (inv_live st Hinv).
  assert (is_Some (objs st !! p)) as [sp Hsp] by by apply (inv_live st Hinv).
  assert (∀ x, strangerRoom_of x st2 =
               if decide (x = id ∨ x = p) then objs st !! x ≫= (λ _, Some room)
               else strangerRoom_of x st) as Hsr.
  { intros x. unfold strangerRoom_of. rewrite Ho. apply pair_up_links. }
  assert (∀ x, partnerId_of x st2 =
               if decide (x = id) then objs st !! x ≫= (λ _, Some p)
               else if decide (x = p) then objs st !! x ≫= (λ _, Some id)
               else partnerId_of x st) as Hpi.
  { intros x. unfold partnerId_of. rewrite Ho. apply pair_up_links. }
  assert (paired st2 id p room) as H1.
  { split; [rewrite Hsr | rewrite Hpi]; rewrite decide_True by auto; by rewrite Hsid. }
  assert (paired st2 p id room) as H2.
  { split; [rewrite Hsr, decide_True by auto; by rewrite Hsp|].
    rewrite Hpi. case_decide; subst; [by rewrite Hsid|].
    rewrite decide_True by done. by rewrite Hsp. }
  split; [|done]. split.
  - intros x Hx. rewrite Ho in Hx. apply pair_up_is_Some in Hx. by apply (inv_ids st Hinv).
  - intros x Hx. rewrite Ho, pair_up_is_Some. rewrite Hio in Hx. by apply (inv_live st Hinv).
  - intros a. rewrite Hio. destruct (decide (a = id)) as [-> | Ha1].
    { right. by exists p, room. }
    destruct (decide (a = p)) as [-> | Ha2].
    { right. by exists id, room. }
    assert (∀ x, x ≠ id → x ≠ p → ∀ c r, paired st2 x c r ↔ paired st x c r) as Hkeep.
    { intros x Hx1 Hx2 c r. unfold paired. rewrite Hsr, Hpi.
      rewrite decide_False by tauto. by rewrite !decide_False by done. }
    destruct (inv_link st Hinv a) as [Hun | (c & r & Hac & Hrne & Hia & Hic & Hca)].
    + left. unfold unpaired. rewrite Hsr, Hpi.
      rewrite decide_False by tauto. by rewrite !decide_False by done.
    + right. exists c, r.
      assert (c ≠ id) by (intros ->; exact (paired_not_unpaired _ _ _ _ Hca Hid)).
      assert (c ≠ p) by (intros ->; exact (paired_not_unpaired _ _ _ _ Hca Hp)).
      by rewrite !Hkeep.
  - intros q Hqin. rewrite Hq in Hqin. by apply elem_of_nil in Hqin.
  - rewrite Hq. simpl. lia.
Qed.

(** ** Every event keeps the pairing invariant *)

Lemma room_left_io id st : io_sockets (room_left id st) = io_sockets st.
Proof. unfold room_left. by case_match. Qed.

Lemma room_left_queue id st : waitingQueue (room_left id st) = waitingQueue st.
Proof. unfold room_left. by case_match. Qed.

Lemma switched_room_field {X} (fld : Socket → X) id room st :
  (∀ f s, fld (with_rooms f s) = fld s) →
  (∀ v s, fld (with_currentRoom v s) = fld s) →
  fld <$> objs (switched_room id room st) = fld <$> objs st.
Proof.
  intros H1 H2. unfold switched_room. rewrite joined_room_field by done. simpl.
  rewrite fmap_alter_frame by done. by apply room_left_field.
Qed.

Lemma switched_room_io id room st : io_sockets (switched_room id room st) = io_sockets st.
Proof. unfold switched_room. simpl. apply room_left_io. Qed.

Lemma switched_room_queue id room st :
  waitingQueue (switched_room id room st) = waitingQueue st.
Proof. unfold switched_room. simpl. apply room_left_queue. Qed.

Lemma on_join_state id room st :
  state_after (on_join id room) st =
  match safeRoom room with
  | Some r => if decide (currentRoom_of id st = Some r) then st else switched_room id r st
  | None => st
  end.
Proof.
  unfold state_after. rewrite on_join_run.
  destruct (safeRoom room); [|done]. by case_decide.
Qed.

Lemma chat_begin_run id text nid now st :
  chat_begin id text nid now st =
  (match truthy_str (currentRoom_of id st) with
   | Some room =>
       match safeText text with
       | Some t => Normal (Some (mkMsg nid (username_of id st) room t now))
       | None => Throw
       end
   | None => Normal None
   end, st, []).
Proof.
  unfold chat_begin. run_M.
  destruct (truthy_str (currentRoom_of id st)); [|done]. run_M.
  by destruct (safeText text).
Qed.

Lemma chat_emit_run id msg st :
  chat_emit id msg st =
  (tt, st, match currentRoom_of id st with
           | Some room => [(ToRoom room, Ev_chatMessage msg)]
           | None => []
           end).
Proof. unfold chat_emit. run_M. by destruct (currentRoom_of id st). Qed.

Lemma on_chatMessage_run id text nid now st :
  on_chatMessage id text nid now st =
  match truthy_str (currentRoom_of id st), safeText text with
  | Some room, Some t =>
      (tt,
       upd_messages (λ ms, ms ++ [mkMsg nid (username_of id st) room t now]) st,
       [(ToRoom room, Ev_chatMessage (mkMsg nid (username_of id st) room t now))])
  | _, _ => (tt, st, [])
  end.
Proof.
  unfold on_chatMessage. unfold bind at 1. rewrite chat_begin_run.
  destruct (truthy_str (currentRoom_of id st)) as [room|] eqn:E; [|done].
  destruct (safeText text) as [t|]; [|done].
  unfold chat_store. run_M. rewrite chat_emit_run.
  apply truthy_str_Some in E as [E _].
  assert (currentRoom_of id
            (upd_messages (λ ms, ms ++ [mkMsg nid (username_of id st) room t now]) st)
          = Some room) as -> by done.
  done.
Qed.

Lemma on_chatMessage_state id text nid now st :
  state_after (on_chatMessage id text nid now) st =
  match truthy_str (currentRoom_of id st), safeText text with
  | Some room, Some t =>
      upd_messages (λ ms, ms ++ [mkMsg nid (username_of id st) room t now]) st
  | _, _ => st
  end.
Proof.
  unfold state_after. rewrite on_chatMessage_run.
  by destruct (truthy_str (currentRoom_of id st)), (safeText text).
Qed.

Lemma disconnect_state id st :
  state_after (transport_close id ;; on_disconnect id) st =
  torn_down id (dequeued id (room_left id (closed id st))).
Proof.
  rewrite state_after_bind. unfold state_after at 1. by rewrite on_disconnect_run.
Qed.

Lemma closed_field {X} (fld : Socket → X) id st :
  (∀ f s, fld (with_rooms f s) = fld s) →
  (∀ b s, fld (with_connected b s) = fld s) →
  fld <$> objs (closed id st) = fld <$> objs st.
Proof.
  intros H1 H2. unfold closed. simpl. apply fmap_alter_frame.
  intros s. by rewrite H2, H1.
Qed.

Lemma dequeued_objs id st : objs (dequeued id st) = objs st.
Proof. unfold dequeued. by case_decide. Qed.

Lemma dequeued_io id st : io_sockets (dequeued id st) = io_sockets st.
Proof. unfold dequeued. by case_decide. Qed.

Lemma dequeued_queue id st : waitingQueue (dequeued id st) = set_delete id (waitingQueue st).
Proof.
  unfold dequeued. case_decide; [done|]. by rewrite set_delete_absent.
Qed.

Lemma set_delete_length x q : length (set_delete x q) ≤ length q.
Proof. apply length_filter. Qed.

Lemma short_queue (q : list string) x rest : q = x :: rest → length q ≤ 1 → rest = [].
Proof. intros -> H. destruct rest; [done | simpl in H; lia]. Qed.

Lemma set_delete_head x : set_delete x [x] = [].
Proof. unfold set_delete. by rewrite filter_cons_False by (intros ?; done). Qed.

(** [findStranger] keeps the invariant, and binds both sides when it
    takes a connected candidate. *)
Lemma findStranger_inv id nid st :
  pairing_inv st → is_open id st = true →
  pairing_inv (state_after (on_findStranger id nid) st)
  ∧ (∀ p rest, waitingQueue st = p :: rest → gone (io_get p st) = false →
       paired (state_after (on_findStranger id nid) st) id p ("stranger-" +:+ nid)
       ∧ paired (state_after (on_findStranger id nid) st) p id ("stranger-" +:+ nid)).
Proof.
  intros Hinv (Hio & Hs & Hg)%is_open_Some.
  destruct (teardown_inv id st st Hinv) as [Hinv1 Hun1]; try done; [by left | | |].
  { intros q Hq. split; [done|]. by apply (inv_queue st Hinv). }
  { apply (inv_queue_len st Hinv). }
  unfold state_after. rewrite on_findStranger_run.
  assert (pairing_inv (upd_queue (λ _, [id]) (torn_down id st))) as Hwait.
  { apply (pairing_inv_frame (torn_down id st)); try done; simpl.
    intros q ->%list_elem_of_singleton. by rewrite torn_down_io. }
  destruct (waitingQueue st) as [|p rest] eqn:Hq; simpl.
  { split; [|done]. unfold upd_queue in *. by rewrite torn_down_queue, Hq. }
  assert (rest = []) as -> by (eapply short_queue; [done | apply (inv_queue_len st Hinv)]).
  destruct (gone (io_get p st)) eqn:Hgp; simpl.
  { split; [|intros ?? [= <- <-] ?; congruence].
    unfold upd_queue in *. simpl. by rewrite torn_down_queue, Hq, set_delete_head. }
  assert (p ∈ waitingQueue (torn_down id st)) as Hpq.
  { rewrite torn_down_queue, Hq. by left. }
  destruct (inv_queue _ Hinv1 p Hpq) as [Hpio Hpun].
  destruct (pair_up_inv (torn_down id st)
              (upd_objs (pair_up id p ("stranger-" +:+ nid))
                 (upd_queue (set_delete p) (torn_down id st)))
              id p ("stranger-" +:+ nid)) as (H1 & H2 & H3); simpl; try done.
  - by rewrite torn_down_io.
  - by rewrite torn_down_queue, Hq, set_delete_head.
  - split; [done|]. by intros ?? [= <- <-].
Qed.

Lemma step_pairing_inv st ev st' out :
  step st ev = Some (st', out) → pairing_inv st → pairing_inv st'.
Proof.
  intros Hstep Hinv. destruct ev as [id user|id payload|id text nid now|id v|id nid
                                     |id text nid now|id|id]; simpl in Hstep.
  - (* connection *)
    destruct (is_fresh id st) eqn:Hf; [|done]. injection Hstep as <- _.
    destruct user as [u|]; [|done].
    apply andb_true_iff in Hf as [[Hne Hnone]%andb_true_iff Hnio].
    apply negb_true_iff in Hne. apply String.eqb_neq in Hne.
    apply bool_decide_eq_true in Hnone, Hnio.
    set (st1 := state_after (on_connection id (Some u)) st).
    assert (objs st1 = <[id := mkSocket u true None None None {[id]}]> (objs st)) as Ho by done.
    assert (io_sockets st1 = {[id]} ∪ io_sockets st) as Hi by done.
    assert (waitingQueue st1 = waitingQueue st) as Hq1 by done.
    clearbody st1.
    assert (∀ x, x ≠ id →
              strangerRoom_of x st1 = strangerRoom_of x st
              ∧ partnerId_of x st1 = partnerId_of x st) as Hkeep.
    { intros x Hx. unfold strangerRoom_of, partnerId_of. by rewrite Ho, lookup_insert_ne. }
    assert (∀ x c r, paired st x c r → x ≠ id) as Hpne.
    { intros x c r Hp%paired_is_Some ->. rewrite Hnone in Hp. by destruct Hp. }
    split.
    + intros x. rewrite Ho, lookup_insert. case_decide; [by subst|]. apply (inv_ids st Hinv).
    + intros x. rewrite Ho, Hi, lookup_insert, elem_of_union, elem_of_singleton.
      case_decide; [by eauto|]. intros [?|?]; [by subst|]. by apply (inv_live st Hinv).
    + intros a. destruct (decide (a = id)) as [->|Ha].
      { left. split; unfold strangerRoom_of, partnerId_of; by rewrite Ho, lookup_insert_eq. }
      destruct (inv_link st Hinv a) as [[H1 H2] | (c & r & Hac & Hrne & Hia & Hic & Hca)].
      * left. destruct (Hkeep a Ha) as [E1 E2]. split; congruence.
      * right. exists c, r. assert (c ≠ id) as Hc by by eapply Hpne.
        destruct (Hkeep a Ha) as [E1 E2], (Hkeep c Hc) as [E3 E4].
        unfold paired. rewrite E1, E2, E3, E4, Hi.
        split_and!; try apply Hac; try apply Hca; try done; set_solver.
    + intros q Hq. rewrite Hq1 in Hq. destruct (inv_queue st Hinv q Hq) as [Hio [H1 H2]].
      assert (q ≠ id) as Hqne by (intros ->; done).
      destruct (Hkeep q Hqne) as [E1 E2]. rewrite Hi. split; [set_solver|]. split; congruence.
    + rewrite Hq1. apply (inv_queue_len st Hinv).
  - (* join *)
    assert (∀ m : M unit, when_open id st m = Some (st', out) → st' = state_after m st)
      as Hw.
    { intros m. unfold when_open, exec. destruct (is_open id st); [|done]. by intros [= <- _]. }
    destruct (destructure_room payload) as [room|]; apply Hw in Hstep as ->; [|done].
    rewrite on_join_state. destruct (safeRoom room) as [sr|] eqn:Hsr; [|done].
    case_decide; [done|].
    apply (pairing_inv_same st); try done.
    + by apply switched_room_field.
    + by apply switched_room_field.
    + apply switched_room_io.
    + apply switched_room_queue.
  - (* chatMessage *)
    unfold when_open, exec in Hstep. destruct (is_open id st); [|done]. injection Hstep as <- _.
    rewrite on_chatMessage_state. do 2 (case_match; [|done]).
    by apply (pairing_inv_same st).
  - (* typing *)
    unfold when_open, exec in Hstep. destruct (is_open id st); [|done]. injection Hstep as <- _.
    unfold state_after. by rewrite on_typing_run.
  - (* findStranger *)
    unfold when_open, exec in Hstep. destruct (is_open id st) eqn:Hopen; [|done].
    injection Hstep as <- _. by apply findStranger_inv.
  - (* strangerMessage *)
    unfold when_open, exec in Hstep. destruct (is_open id st); [|done]. injection Hstep as <- _.
    unfold state_after. by rewrite on_strangerMessage_run.
  - (* leaveStranger *)
    unfold when_open, exec in Hstep. destruct (is_open id st); [|done]. injection Hstep as <- _.
    unfold state_after. rewrite on_leaveStranger_run. case_decide; simpl.
    + apply (pairing_inv_frame st); try done; simpl.
      * intros q [Hq _]%set_delete_elem. by apply (inv_queue st Hinv).
      * etrans; [apply set_delete_length | apply (inv_queue_len st Hinv)].
    + apply (teardown_inv id st st Hinv); try done; [by left | |].
      * intros q Hq. split; [done|]. by apply (inv_queue st Hinv).
      * apply (inv_queue_len st Hinv).
  - (* disconnect *)
    unfold when_open, exec in Hstep. destruct (is_open id st); [|done]. injection Hstep as <- _.
    rewrite disconnect_state.
    apply (teardown_inv id st _ Hinv).
    + rewrite dequeued_objs, room_left_field by done. by apply closed_field.
    + rewrite dequeued_objs, room_left_field by done. by apply closed_field.
    + right. by rewrite dequeued_io, room_left_io.
    + intros q. rewrite dequeued_queue, room_left_queue, dequeued_io, room_left_io. simpl.
      intros [Hq Hne]%set_delete_elem. split; [done|].
      apply elem_of_difference. split; [by apply (inv_queue st Hinv) | set_solver].
    + rewrite dequeued_queue, room_left_queue. simpl.
      etrans; [apply set_delete_length | apply (inv_queue_len st Hinv)].
Qed.

Lemma run_invariant (P : State → Prop) :
  (∀ st ev st' out, step st ev = Some (st', out) → P st → P st') →
  ∀ evs st st' out, run st evs = Some (st', out) → P st → P st'.
Proof.
  intros Hstep. induction evs as [|ev evs IH]; intros st st' out; simpl.
  - by intros [= <- _].
  - destruct (step st ev) as [[st1 out1]|] eqn:E; [|done].
    destruct (run st1 evs) as [[st2 out2]|] eqn:E2; [|done].
    intros [= <- _] HP. eapply IH; [done|]. by eapply Hstep.
Qed.

Lemma reachable_pairing_inv st : reachable st → pairing_inv st.
Proof.
  intros (stored & evs & out & Hrun).
  eapply (run_invariant pairing_inv); [apply step_pairing_inv | done | apply pairing_inv_init].
Qed.

Lemma after_reachable evs : is_Some (run (init []) evs) → reachable (after evs).
Proof.
  intros [[st out] Hrun]. exists [], evs, out. unfold after. by rewrite Hrun.
Qed.

(** C5. In every reachable state the pairing links are symmetric: when
    [a]'s pairing state names [b] as partner with some channel, [b]'s
    names [a] with the same channel, both are sockets of the namespace
    and neither waits in the queue. [findStranger] taking a connected
    candidate binds both sides to each other, and tearing a link down
    clears both sides. *)
Theorem pairing_links_symmetric st :
  reachable st →
  (∀ a b room, paired st a b room →
     paired st b a room ∧ a ∈ io_sockets st ∧ b ∈ io_sockets st
     ∧ (a ∉ waitingQueue st) ∧ (b ∉ waitingQueue st))
  ∧ (∀ id nid p rest,
       is_open id st = true → waitingQueue st = p :: rest → gone (io_get p st) = false →
       paired (state_after (on_findStranger id nid) st) id p ("stranger-" +:+ nid)
       ∧ paired (state_after (on_findStranger id nid) st) p id ("stranger-" +:+ nid))
  ∧ (∀ a b room, paired st a b room →
       unpaired (state_after (handleStrangerLeave a) st) a
       ∧ unpaired (state_after (handleStrangerLeave a) st) b).
Proof.
  intros Hinv%reachable_pairing_inv. split_and!.
  - intros a b room Hab.
    destruct (inv_link st Hinv a) as [Hun | (c & r & Hac & Hrne & Hia & Hic & Hca)].
    { destruct (paired_not_unpaired _ _ _ _ Hab Hun). }
    destruct (paired_inj _ _ _ _ _ _ Hab Hac) as [-> ->].
    split_and!; try done.
    + intros [_ Hq]%(inv_queue st Hinv). exact (paired_not_unpaired _ _ _ _ Hac Hq).
    + intros [_ Hq]%(inv_queue st Hinv). exact (paired_not_unpaired _ _ _ _ Hca Hq).
  - intros id nid p rest Hopen Hq Hg.
    by apply (proj2 (findStranger_inv id nid st Hinv Hopen) p rest).
  - intros a b room Hab.
    destruct (inv_link st Hinv a) as [Hun | (c & r & Hac & Hrne & Hia & Hic & Hca)].
    { destruct (paired_not_unpaired _ _ _ _ Hab Hun). }
    destruct (paired_inj _ _ _ _ _ _ Hab Hac) as [-> ->].
    unfold state_after. rewrite handleStrangerLeave_run. simpl.
    assert (c ≠ "") as Hcne by (apply (inv_ids st Hinv), (inv_live st Hinv), Hic).
    split; apply (torn_down_paired st a c r); auto.
Qed.

Lemma pairing_links_symmetric_witness :
  paired (after [Connection "a" (Some "alice"); Connection "b" (Some "bob");
                 FindStranger "a" "n1"; FindStranger "b" "n2"])
         "b" "a" "stranger-n2".
Proof.
  refine (proj1 (proj1 (pairing_links_symmetric _ _) "a" "b" "stranger-n2" _)).
  - apply after_reachable. vm_compute. by eexists.
  - split; reflexivity.
Defined.

(** ** Rooms named by the empty string *)

(** C4 (the code breaks it). A room name given as an empty array is
    truthy and prints as the empty string, so the connection's current
    room becomes [""], which the listener then takes for no room. The next
    [join] of another room does not leave the room [""]: nothing is sent to
    it, and the connection ends up in the member sets of two rooms. *)
Theorem join_after_empty_room_name_keeps_membership :
  let st := after [Connection "a" (Some "alice"); Join "a" (JObj [("room", JArr [])])] in
  currentRoom_of "a" st = Some ""
  ∧ roomMembers st !! "" = Some {["a"]}
  ∧ emitted (on_join "a" (JStr "dev")) st = welcome_out "a" "dev" (state_after (on_join "a" (JStr "dev")) st)
  ∧ roomMembers (state_after (on_join "a" (JStr "dev")) st) !! "" = Some {["a"]}
  ∧ roomMembers (state_after (on_join "a" (JStr "dev")) st) !! "dev" = Some {["a"]}.
Proof. split_and!; vm_compute; reflexivity. Qed.

(** C6 (the code breaks it). After the same [join] of a room name given
    as an empty array, the disconnect cleanup does not leave the room
    [""] either: the count reported for it stays 1 although no socket is
    left in the namespace. *)
Theorem empty_room_name_count_survives_disconnect :
  let st := after [Connection "a" (Some "alice"); Join "a" (JObj [("room", JArr [])]);
                   Disconnect "a"] in
  user_count "" st = 1
  ∧ result (getUserCount "") st = 1
  ∧ io_sockets st = ∅.
Proof. split_and!; vm_compute; reflexivity. Qed.

(** ** The invariant of the room directory *)

Lemma members_leave_elem id r (m : gmap string (gset string)) room x :
  x ∈ default ∅ (members_leave id r m !! room) ↔
  x ∈ default ∅ (m !! room) ∧ ¬ (room = r ∧ x = id).
Proof.
  unfold members_leave. destruct (m !! r) as [set|] eqn:E.
  - case_decide as Hsz.
    + apply size_empty_inv in Hsz. rewrite lookup_delete. case_decide as Hr.
      * subst. rewrite E. simpl. set_solver.
      * simpl. split; [|tauto]. intros Hx. split; [done|]. intros [-> _]. done.
    + rewrite lookup_insert. case_decide as Hr.
      * subst. rewrite E. simpl. set_solver.
      * split; [|tauto]. intros Hx. split; [done|]. intros [-> _]. done.
  - split; [|tauto]. intros Hx. split; [done|]. intros [-> _].
    rewrite E in Hx. simpl in Hx. set_solver.
Qed.

Lemma members_leave_nonempty id r (m : gmap string (gset string)) :
  (∀ room set, m !! room = Some set → set ≠ ∅) →
  ∀ room set, members_leave id r m !! room = Some set → set ≠ ∅.
Proof.
  intros Hm room set. unfold members_leave. destruct (m !! r) as [set0|] eqn:E.
  - case_decide as Hsz.
    + rewrite lookup_delete. case_decide; [done | apply Hm].
    + rewrite lookup_insert. case_decide; [|apply Hm].
      intros [= <-] He. apply Hsz. rewrite He. apply size_empty.
  - apply Hm.
Qed.

Lemma members_join_elem id r (m : gmap string (gset string)) room x :
  x ∈ default ∅ (members_join id r m !! room) ↔
  x ∈ default ∅ (m !! room) ∨ (room = r ∧ x = id).
Proof.
  unfold members_join. rewrite lookup_insert. case_decide as Hr.
  - subst. simpl. set_solver.
  - split; [by left|]. intros [?|[-> _]]; done.
Qed.

Lemma members_join_nonempty id r (m : gmap string (gset string)) :
  (∀ room set, m !! room = Some set → set ≠ ∅) →
  ∀ room set, members_join id r m !! room = Some set → set ≠ ∅.
Proof.
  intros Hm room set. unfold members_join. rewrite lookup_insert.
  case_decide; [|apply Hm]. intros [= <-]. set_solver.
Qed.

Lemma room_inv_init stored : room_inv (init stored).
Proof.
  split; simpl.
  - intros room set Hs. by rewrite lookup_empty in Hs.
  - intros room id. unfold members_of, currentRoom_of. simpl. rewrite lookup_empty. simpl.
    set_solver.
  - intros id. unfold currentRoom_of. simpl. by rewrite lookup_empty.
Qed.

Lemma room_inv_same st st2 :
  room_inv st →
  roomMembers st2 = roomMembers st →
  io_sockets st2 = io_sockets st →
  currentRoom <$> objs st2 = currentRoom <$> objs st →
  room_inv st2.
Proof.
  intros Hinv Hm Hio Hc. split.
  - rewrite Hm. apply (rinv_nonempty st Hinv).
  - intros room id. unfold members_of. rewrite Hm, Hio, (currentRoom_of_field st st2) by done.
    apply (rinv_members st Hinv).
  - intros id. rewrite (currentRoom_of_field st st2) by done. apply (rinv_named st Hinv).
Qed.

Lemma switched_room_others id room st x :
  x ≠ id → currentRoom_of x (switched_room id room st) = currentRoom_of x st.
Proof.
  intros Hx. unfold switched_room, currentRoom_of, joined_room. simpl.
  rewrite !lookup_alter_ne by done.
  apply (currentRoom_of_field st (room_left id st) x). by apply room_left_field.
Qed.

Lemma switched_room_members id room st :
  roomMembers (switched_room id room st) =
  members_join id room
    (match truthy_str (currentRoom_of id st) with
     | Some r => members_leave id r (roomMembers st)
     | None => roomMembers st
     end).
Proof. unfold switched_room, room_left. simpl. by case_match. Qed.

Lemma room_inv_join id room st :
  room_inv st → is_open id st = true → safeRoom room ≠ Some "" →
  room_inv (state_after (on_join id room) st).
Proof.
  intros Hinv (Hio & Hs & _)%is_open_Some Hname. rewrite on_join_state.
  destruct (safeRoom room) as [sr|] eqn:Hsr; [|done].
  case_decide as Hcur; [done|].
  pose proof (rinv_named st Hinv id) as Hnamed.
  split.
  - rewrite switched_room_members. apply members_join_nonempty.
    case_match; [apply members_leave_nonempty|]; apply (rinv_nonempty st Hinv).
  - intros r x. unfold members_of. rewrite switched_room_members, switched_room_io.
    rewrite members_join_elem.
    assert (x ∈ default ∅
              (match truthy_str (currentRoom_of id st) with
               | Some r0 => members_leave id r0 (roomMembers st)
               | None => roomMembers st
               end !! r) ↔ x ∈ members_of r st ∧ x ≠ id) as ->.
    { destruct (truthy_str (currentRoom_of id st)) as [r0|] eqn:E.
      - apply truthy_str_Some in E as [E _]. rewrite members_leave_elem.
        fold (members_of r st). split; [|tauto]. intros [Hx Hn]. split; [done|].
        intros ->. apply Hn. split; [|done].
        apply (rinv_members st Hinv) in Hx as [_ Hx]. congruence.
      - fold (members_of r st). split; [|tauto]. intros Hx. split; [done|]. intros ->.
        apply (rinv_members st Hinv) in Hx as [_ Hx].
        apply truthy_str_None in E as [E|E]; congruence. }
    destruct (decide (x = id)) as [->|Hx].
    + rewrite switched_room_currentRoom by done. split.
      * intros [[_ ?]|[-> _]]; done.
      * intros [_ [= ->]]. by right.
    + rewrite switched_room_others by done. rewrite (rinv_members st Hinv). tauto.
  - intros x. destruct (decide (x = id)) as [->|Hx].
    + rewrite switched_room_currentRoom by done. congruence.
    + rewrite switched_room_others by done. apply (rinv_named st Hinv).
Qed.

Lemma room_inv_disconnect id st :
  room_inv st → room_inv (state_after (transport_close id ;; on_disconnect id) st).
Proof.
  intros Hinv. rewrite disconnect_state.
  set (st' := torn_down id (dequeued id (room_left id (closed id st)))).
  assert (currentRoom <$> objs st' = currentRoom <$> objs st) as Hc.
  { unfold st'. rewrite torn_down_field, dequeued_objs, room_left_field by done.
    by apply closed_field. }
  assert (currentRoom_of id (closed id st) = currentRoom_of id st) as Hcc.
  { apply currentRoom_of_field. by apply closed_field. }
  assert (io_sockets st' = io_sockets st ∖ {[id]}) as Hio.
  { unfold st'. by rewrite torn_down_io, dequeued_io, room_left_io. }
  assert (roomMembers st' =
          match truthy_str (currentRoom_of id st) with
          | Some r => members_leave id r (roomMembers st)
          | None => roomMembers st
          end) as Hm.
  { unfold st'. rewrite torn_down_members. unfold dequeued, room_left. rewrite Hcc.
    case_decide; by case_match. }
  clearbody st'. split.
  - rewrite Hm. case_match; [apply members_leave_nonempty|]; apply (rinv_nonempty st Hinv).
  - intros r x. unfold members_of. rewrite Hm, Hio, (currentRoom_of_field st st') by done.
    rewrite elem_of_difference, elem_of_singleton.
    destruct (truthy_str (currentRoom_of id st)) as [r0|] eqn:E.
    + apply truthy_str_Some in E as [E _]. rewrite members_leave_elem.
      fold (members_of r st). rewrite (rinv_members st Hinv). split.
      * intros [[? ?] Hn]. split_and!; try done. intros ->. apply Hn. split; congruence.
      * intros [[? ?] ?]. split_and!; try done. intros [_ ?]. done.
    + fold (members_of r st). rewrite (rinv_members st Hinv). split; [|tauto].
      intros [? Hx]. split_and!; try done. intros ->.
      pose proof (rinv_named st Hinv id).
      apply truthy_str_None in E as [E|E]; congruence.
  - intros x. rewrite (currentRoom_of_field st st') by done. apply (rinv_named st Hinv).
Qed.

(** The listeners of the stranger chat, of [typing] and of [chatMessage]
    leave the sockets' fields alone, but for the pairing state, and the
    room directory and the namespace as they were. *)
Section quiet_listeners.
Context {X : Type} (fld : Socket → X).
Hypothesis fld_rooms : ∀ f s, fld (with_rooms f s) = fld s.
Hypothesis fld_strangerRoom : ∀ v s, fld (with_strangerRoom v s) = fld s.
Hypothesis fld_partnerId : ∀ v s, fld (with_partnerId v s) = fld s.

Lemma on_findStranger_field id nid :
  Preserves (λ st, fld <$> objs st) (on_findStranger id nid).
Proof.
  unfold on_findStranger, leave_if_paired, handleStrangerLeave. unfold_helpers. preserves.
Qed.

Lemma on_leaveStranger_field id : Preserves (λ st, fld <$> objs st) (on_leaveStranger id).
Proof.
  unfold on_leaveStranger, leave_if_paired, handleStrangerLeave. unfold_helpers. preserves.
Qed.
End quiet_listeners.

Lemma on_findStranger_members id nid : Preserves roomMembers (on_findStranger id nid).
Proof.
  unfold on_findStranger, leave_if_paired, handleStrangerLeave. unfold_helpers. preserves.
Qed.

Lemma on_findStranger_io id nid : Preserves io_sockets (on_findStranger id nid).
Proof.
  unfold on_findStranger, leave_if_paired, handleStrangerLeave. unfold_helpers. preserves.
Qed.

Lemma on_leaveStranger_members id : Preserves roomMembers (on_leaveStranger id).
Proof.
  unfold on_leaveStranger, leave_if_paired, handleStrangerLeave. unfold_helpers. preserves.
Qed.

Lemma on_leaveStranger_io id : Preserves io_sockets (on_leaveStranger id).
Proof.
  unfold on_leaveStranger, leave_if_paired, handleStrangerLeave. unfold_helpers. preserves.
Qed.

Lemma step_room_inv st ev st' out :
  names_room ev → step st ev = Some (st', out) → room_inv st → room_inv st'.
Proof.
  intros Hname Hstep Hinv.
  destruct ev as [id user|id payload|id text nid now|id v|id nid
                 |id text nid now|id|id]; simpl in Hstep;
    unfold when_open, exec in Hstep.
  - (* connection *)
    destruct (is_fresh id st) eqn:Hf; [|done]. injection Hstep as <- _.
    destruct user as [u|]; [|done].
    apply andb_true_iff in Hf as [[Hne Hnone]%andb_true_iff Hnio].
    apply bool_decide_eq_true in Hnone, Hnio.
    set (st1 := state_after (on_connection id (Some u)) st).
    assert (objs st1 = <[id := mkSocket u true None None None {[id]}]> (objs st)) as Ho by done.
    assert (io_sockets st1 = {[id]} ∪ io_sockets st) as Hi by done.
    assert (roomMembers st1 = roomMembers st) as Hm by done.
    clearbody st1.
    assert (∀ x, currentRoom_of x st1 = if decide (x = id) then None else currentRoom_of x st)
      as Hcur.
    { intros x. unfold currentRoom_of. rewrite Ho, lookup_insert.
      case_decide; subst; by rewrite ?decide_True, ?decide_False by done. }
    split.
    + rewrite Hm. apply (rinv_nonempty st Hinv).
    + intros r x. unfold members_of. rewrite Hm, Hi, Hcur. fold (members_of r st).
      rewrite (rinv_members st Hinv). case_decide; subst; set_solver.
    + intros x. rewrite Hcur. case_decide; [done | apply (rinv_named st Hinv)].
  - (* join *)
    simpl in Hname. destruct (destructure_room payload) as [room|];
      destruct (is_open id st) eqn:Hopen; try done; injection Hstep as <- _; [|done].
    by apply room_inv_join.
  - (* chatMessage *)
    destruct (is_open id st); [|done]. injection Hstep as <- _.
    rewrite on_chatMessage_state. do 2 (case_match; [|done]). by apply (room_inv_same st).
  - (* typing *)
    destruct (is_open id st); [|done]. injection Hstep as <- _.
    unfold state_after. by rewrite on_typing_run.
  - (* findStranger *)
    destruct (is_open id st); [|done]. injection Hstep as <- _.
    apply (room_inv_same st); [done | apply on_findStranger_members
                               | apply on_findStranger_io
                               | by apply (on_findStranger_field currentRoom)].
  - (* strangerMessage *)
    destruct (is_open id st); [|done]. injection Hstep as <- _.
    unfold state_after. by rewrite on_strangerMessage_run.
  - (* leaveStranger *)
    destruct (is_open id st); [|done]. injection Hstep as <- _.
    apply (room_inv_same st); [done | apply on_leaveStranger_members
                               | apply on_leaveStranger_io
                               | by apply (on_leaveStranger_field currentRoom)].
  - (* disconnect *)
    destruct (is_open id st); [|done]. injection Hstep as <- _.
    by apply room_inv_disconnect.
Qed.

Lemma reachable_named_room_inv st : reachable_named st → room_inv st.
Proof.
  intros (stored & evs & out & Hnames & Hrun).
  pose proof (room_inv_init stored) as Hinit. revert Hrun Hinit.
  generalize (init stored). revert st out.
  induction Hnames as [|ev evs Hev Hevs IH]; intros st out st0; simpl.
  - by intros [= <- _].
  - destruct (step st0 ev) as [[st1 out1]|] eqn:E; [|done].
    destruct (run st1 evs) as [[st2 out2]|] eqn:E2; [|done].
    intros [= <- _] HP. eapply IH; [done|]. by eapply step_room_inv.
Qed.

(** A room name that is a string, or that is absent, is never
    normalized to the empty string. *)
Lemma string_room_named s :
  safeRoom (JStr s) ≠ Some "" ∧ safeRoom JUndefined ≠ Some "" ∧ safeRoom JNull ≠ Some "".
Proof.
  split; [|by split; vm_compute]. unfold safeRoom, js_or.
  destruct (truthy (JStr s)) eqn:E; [|by vm_compute].
  apply truthy_JStr in E. by destruct s.
Qed.

(** In every state reached by events that name no room by the empty
    string (as do all events whose room name is a string or is absent),
    the member set of a room is the set of the sockets of the namespace
    whose current room it is: the presence count equals the number of
    these connections, a room is absent from the directory exactly when
    there is none, and no connection is in the member sets of two
    rooms. *)
Theorem presence_count_matches_connections st room :
  reachable_named st →
  members_of room st = connections_in room st
  ∧ user_count room st = size (connections_in room st)
  ∧ (roomMembers st !! room = None ↔ connections_in room st = ∅)
  ∧ (∀ id room', id ∈ members_of room st → id ∈ members_of room' st → room = room').
Proof.
  intros Hinv%reachable_named_room_inv.
  assert (members_of room st = connections_in room st) as Heq.
  { apply set_eq. intros x. rewrite (rinv_members st Hinv). unfold connections_in.
    rewrite elem_of_filter. tauto. }
  split_and!.
  - done.
  - rewrite <- Heq. unfold user_count, members_of. destruct (roomMembers st !! room); [done|].
    reflexivity.
  - rewrite <- Heq. unfold members_of.
    destruct (roomMembers st !! room) as [set|] eqn:E; simpl; [|done].
    split; [done|]. intros ->. by apply (rinv_nonempty st Hinv) in E.
  - intros id room' [_ H1]%(rinv_members st Hinv) [_ H2]%(rinv_members st Hinv). congruence.
Qed.

Lemma presence_count_matches_connections_witness :
  user_count "general"
    (after [Connection "a" (Some "alice"); Connection "b" (Some "bob");
            Join "a" (JObj [("room", JStr "general")]); Join "b" (JObj [])])
  = size (connections_in "general"
    (after [Connection "a" (Some "alice"); Connection "b" (Some "bob");
            Join "a" (JObj [("room", JStr "general")]); Join "b" (JObj [])])).
Proof.
  refine (proj1 (proj2 (presence_count_matches_connections _ "general" _))).
  exists [], [Connection "a" (Some "alice"); Connection "b" (Some "bob");
              Join "a" (JObj [("room", JStr "general")]); Join "b" (JObj [])].
  eexists. split.
  - repeat constructor; done.
  - vm_compute. reflexivity.
Defined.

(** ** The invariant of the pairing channels *)

Lemma torn_down_objs id st a :
  objs (torn_down id st) !! a = objs st !! a ∨ unpaired (torn_down id st) a.
Proof.
  unfold torn_down. destruct (truthy_str (strangerRoom_of id st)) as [room|]; [|by left].
  unfold unpaired, strangerRoom_of, partnerId_of. simpl.
  rewrite lookup_alter. case_decide as Ha.
  { right. apply unlink_lookup. }
  destruct (truthy_str _) as [p|]; [|by left].
  case_decide; [|by left]. rewrite lookup_alter. case_decide; [|by left].
  right. apply unlink_lookup.
Qed.

Lemma torn_down_paired_objs id st a b room :
  paired (torn_down id st) a b room →
  paired st a b room ∧ objs (torn_down id st) !! a = objs st !! a.
Proof.
  intros Hp. split; [by eapply torn_down_no_new_link|].
  destruct (torn_down_objs id st a) as [?|Hun]; [done|].
  destruct (paired_not_unpaired _ _ _ _ Hp Hun).
Qed.

Lemma has_joined_objs st st2 room a :
  objs st2 !! a = objs st !! a → has_joined st2 room a = has_joined st room a.
Proof. intros H. unfold has_joined. by rewrite H. Qed.

Lemma channel_inv_init stored : channel_inv (init stored).
Proof.
  assert (∀ a b room, ¬ paired (init stored) a b room) as Hno.
  { intros a b room [H _]. unfold strangerRoom_of in H. simpl in H.
    by rewrite lookup_empty in H. }
  split.
  - intros a b room H. by apply Hno in H.
  - intros a b room H. by apply Hno in H.
  - intros id r. unfold currentRoom_of. simpl. by rewrite lookup_empty.
Qed.

Lemma channel_inv_frame st st2 :
  channel_inv st →
  (∀ a b room, paired st2 a b room → paired st a b room ∧ objs st2 !! a = objs st !! a) →
  currentRoom <$> objs st2 = currentRoom <$> objs st →
  channel_inv st2.
Proof.
  intros Hinv Hp Hc. split.
  - intros a b room [H1 H2]%Hp. rewrite (has_joined_objs st) by done.
    by apply (cinv_joined st Hinv a b).
  - intros a b room [H1 H2]%Hp. by apply (cinv_channel st Hinv a b).
  - intros id r. rewrite (currentRoom_of_field st st2) by done. apply (cinv_current st Hinv).
Qed.

Lemma channel_inv_torn_down id st : channel_inv st → channel_inv (torn_down id st).
Proof.
  intros Hinv. apply (channel_inv_frame st); [done | | by apply torn_down_field].
  intros a b room. apply torn_down_paired_objs.
Qed.

Lemma pair_up_other id p room (m : gmap string Socket) x :
  x ≠ id → x ≠ p → pair_up id p room m !! x = m !! x.
Proof. intros H1 H2. unfold pair_up. by rewrite !lookup_alter_ne. Qed.

Lemma pair_up_joined id p room (m : gmap string Socket) x s :
  x = id ∨ x = p → pair_up id p room m !! x = Some s → room ∈ rooms s.
Proof.
  intros Hx. unfold pair_up. rewrite !lookup_alter.
  repeat case_decide; simplify_eq; try tauto;
    repeat match goal with |- context [m !! ?y] => destruct (m !! y) end;
    intros; simplify_eq/=; set_solver.
Qed.

Lemma pair_up_currentRoom id p room (m : gmap string Socket) :
  currentRoom <$> pair_up id p room m = currentRoom <$> m.
Proof. unfold pair_up. by rewrite !fmap_alter_frame. Qed.

Lemma channel_inv_pair_up st st2 id p nid :
  channel_inv st → unpaired st id → unpaired st p →
  objs st2 = pair_up id p ("stranger-" +:+ nid) (objs st) →
  channel_inv st2.
Proof.
  intros Hinv Hid Hp Ho.
  assert (∀ x, x ≠ id → x ≠ p → objs st2 !! x = objs st !! x) as Hother.
  { intros x H1 H2. rewrite Ho. by apply pair_up_other. }
  assert (∀ x c r, x = id ∨ x = p → paired st2 x c r → r = "stranger-" +:+ nid) as Hroom.
  { intros x c r Hx [Hr _]. unfold strangerRoom_of in Hr. rewrite Ho in Hr.
    rewrite (proj1 (pair_up_links _ _ _ _ _)), decide_True in Hr by done.
    destruct (objs st !! x); simplify_eq/=. done. }
  assert (∀ x c r, x ≠ id → x ≠ p → paired st2 x c r → paired st x c r) as Hold.
  { intros x c r H1 H2. unfold paired, strangerRoom_of, partnerId_of.
    by rewrite Hother. }
  split.
  - intros a b room Hab. destruct (decide (a = id ∨ a = p)) as [Ha|Ha].
    + rewrite (Hroom _ _ _ Ha Hab). pose proof (paired_is_Some _ _ _ _ Hab) as [s Hs].
      unfold has_joined. rewrite Hs. apply bool_decide_eq_true.
      rewrite Ho in Hs. by eapply pair_up_joined.
    + assert (a ≠ id ∧ a ≠ p) as [H1 H2] by tauto.
      rewrite (has_joined_objs st) by by apply Hother.
      apply (cinv_joined st Hinv a b). by apply Hold.
  - intros a b room Hab. destruct (decide (a = id ∨ a = p)) as [Ha|Ha].
    + rewrite (Hroom _ _ _ Ha Hab). by exists nid.
    + assert (a ≠ id ∧ a ≠ p) as [H1 H2] by tauto.
      apply (cinv_channel st Hinv a b). by apply Hold.
  - intros x r. rewrite (currentRoom_of_field st st2); [apply (cinv_current st Hinv)|].
    rewrite Ho. apply pair_up_currentRoom.
Qed.

Lemma switched_room_objs_other id room st x :
  x ≠ id → objs (switched_room id room st) !! x = objs st !! x.
Proof.
  intros Hx. unfold switched_room, joined_room, room_left. simpl.
  rewrite !lookup_alter_ne by done. unfold left_room.
  case_match; simpl; by rewrite ?lookup_alter_ne by done.
Qed.

Lemma switched_room_keeps_group id room st g :
  has_joined st g id = true →
  (∀ r, currentRoom_of id st = Some r → g ≠ r) →
  has_joined (switched_room id room st) g id = true.
Proof.
  unfold has_joined, switched_room, joined_room, room_left, left_room, currentRoom_of.
  simpl. rewrite !lookup_alter_eq.
  destruct (objs st !! id) as [s|] eqn:Hs; simpl.
  - intros Hg%bool_decide_eq_true Hne.
    destruct (truthy_str (currentRoom s)) as [r|] eqn:E; simpl.
    + apply truthy_str_Some in E as [E _]. rewrite lookup_alter_eq, Hs. simpl.
      apply bool_decide_eq_true. specialize (Hne r E). set_solver.
    + rewrite Hs. simpl. apply bool_decide_eq_true. set_solver.
  - done.
Qed.

Lemma disconnect_objs_other id st x :
  x ≠ id → objs (dequeued id (room_left id (closed id st))) !! x = objs st !! x.
Proof.
  intros Hx. rewrite dequeued_objs. unfold room_left, left_room, closed.
  case_match; simpl; by rewrite ?lookup_alter_ne by done.
Qed.

Lemma step_channel_inv st ev st' out :
  avoids_channels ev → step st ev = Some (st', out) →
  pairing_inv st → channel_inv st → channel_inv st'.
Proof.
  intros Hav Hstep Hpinv Hinv.
  destruct ev as [id user|id payload|id text nid now|id v|id nid
                 |id text nid now|id|id]; simpl in Hstep;
    unfold when_open, exec in Hstep.
  - (* connection *)
    destruct (is_fresh id st) eqn:Hf; [|done]. injection Hstep as <- _.
    destruct user as [u|]; [|done].
    apply andb_true_iff in Hf as [[Hne Hnone]%andb_true_iff Hnio].
    apply bool_decide_eq_true in Hnone.
    set (st1 := state_after (on_connection id (Some u)) st).
    assert (objs st1 = <[id := mkSocket u true None None None {[id]}]> (objs st)) as Ho by done.
    clearbody st1.
    assert (∀ a b room, paired st1 a b room → a ≠ id) as Hpne.
    { intros a b room [H _] ->. unfold strangerRoom_of in H.
      by rewrite Ho, lookup_insert_eq in H. }
    split.
    + intros a b room Hab. pose proof (Hpne _ _ _ Hab) as Ha.
      rewrite (has_joined_objs st) by by rewrite Ho, lookup_insert_ne.
      apply (cinv_joined st Hinv a b). revert Hab.
      unfold paired, strangerRoom_of, partnerId_of. by rewrite Ho, lookup_insert_ne.
    + intros a b room Hab. pose proof (Hpne _ _ _ Hab) as Ha.
      apply (cinv_channel st Hinv a b). revert Hab.
      unfold paired, strangerRoom_of, partnerId_of. by rewrite Ho, lookup_insert_ne.
    + intros x r. unfold currentRoom_of. rewrite Ho, lookup_insert.
      destruct (decide (id = x)); [done | apply (cinv_current st Hinv)].
  - (* join *)
    simpl in Hav. destruct (destructure_room payload) as [room|];
      destruct (is_open id st) eqn:Hopen; try done; injection Hstep as <- _; [|done].
    apply is_open_Some in Hopen as (Hio & Hs & _).
    rewrite on_join_state. destruct (safeRoom room) as [sr|] eqn:Hsr; [|done].
    case_decide as Hcur; [done|].
    assert (∀ a b r, paired (switched_room id sr st) a b r ↔ paired st a b r)
      as Hps by (intros; apply paired_same; by apply switched_room_field).
    split.
    + intros a b r Hab%Hps. pose proof (cinv_joined st Hinv a b r Hab) as Hj.
      destruct (decide (a = id)) as [->|Ha].
      * apply switched_room_keeps_group; [done|]. intros r0 Hr0 ->.
        apply (cinv_current st Hinv id r0 Hr0). by apply (cinv_channel st Hinv id b).
      * by rewrite (has_joined_objs st) by by apply switched_room_objs_other.
    + intros a b r Hab%Hps. by apply (cinv_channel st Hinv a b).
    + intros x r. destruct (decide (x = id)) as [->|Hx].
      * rewrite switched_room_currentRoom by done. intros [= <-]. by apply Hav.
      * rewrite switched_room_others by done. apply (cinv_current st Hinv).
  - (* chatMessage *)
    destruct (is_open id st); [|done]. injection Hstep as <- _.
    rewrite on_chatMessage_state. do 2 (case_match; [|done]). by apply (channel_inv_frame st).
  - (* typing *)
    destruct (is_open id st); [|done]. injection Hstep as <- _.
    unfold state_after. by rewrite on_typing_run.
  - (* findStranger *)
    destruct (is_open id st) eqn:Hopen; [|done]. injection Hstep as <- _.
    destruct (teardown_inv id st st Hpinv) as [Hpinv1 Hun1]; try done; [by left | | |].
    { intros q Hq. split; [done|]. by apply (inv_queue st Hpinv). }
    { apply (inv_queue_len st Hpinv). }
    pose proof (channel_inv_torn_down id st Hinv) as Hinv1.
    unfold state_after. rewrite on_findStranger_run.
    destruct (waitingQueue st) as [|p rest] eqn:Hq; simpl.
    { by apply (channel_inv_frame (torn_down id st)). }
    destruct (gone (io_get p st)); simpl.
    { by apply (channel_inv_frame (torn_down id st)). }
    apply (channel_inv_pair_up (torn_down id st) _ id p nid); try done.
    apply (inv_queue _ Hpinv1). rewrite torn_down_queue, Hq. by left.
  - (* strangerMessage *)
    destruct (is_open id st); [|done]. injection Hstep as <- _.
    unfold state_after. by rewrite on_strangerMessage_run.
  - (* leaveStranger *)
    destruct (is_open id st); [|done]. injection Hstep as <- _.
    unfold state_after. rewrite on_leaveStranger_run. case_decide; simpl.
    + by apply (channel_inv_frame st).
    + by apply channel_inv_torn_down.
  - (* disconnect *)
    destruct (is_open id st); [|done]. injection Hstep as <- _.
    rewrite disconnect_state.
    set (st2 := dequeued id (room_left id (closed id st))).
    assert (strangerRoom <$> objs st2 = strangerRoom <$> objs st) as Hsr.
    { unfold st2. rewrite dequeued_objs, room_left_field by done. by apply closed_field. }
    assert (partnerId <$> objs st2 = partnerId <$> objs st) as Hpi.
    { unfold st2. rewrite dequeued_objs, room_left_field by done. by apply closed_field. }
    destruct (teardown_inv id st st2 Hpinv) as [_ Hun]; try done.
    { right. unfold st2. by rewrite dequeued_io, room_left_io. }
    { intros q. unfold st2.
      rewrite dequeued_queue, room_left_queue, dequeued_io, room_left_io. simpl.
      intros [Hq Hne]%set_delete_elem. split; [done|].
      apply elem_of_difference. split; [by apply (inv_queue st Hpinv) | set_solver]. }
    { unfold st2. rewrite dequeued_queue, room_left_queue. simpl.
      etrans; [apply set_delete_length | apply (inv_queue_len st Hpinv)]. }
    apply (channel_inv_frame st); [done | |].
    + intros a b room Hab.
      assert (a ≠ id) as Ha by (intros ->; exact (paired_not_unpaired _ _ _ _ Hab Hun)).
      apply torn_down_paired_objs in Hab as [Hab ->].
      split; [by apply (paired_same st st2) | by apply disconnect_objs_other].
    + rewrite torn_down_field by done. unfold st2.
      rewrite dequeued_objs, room_left_field by done. by apply closed_field.
Qed.

Lemma reachable_apart_inv st : reachable_apart st → pairing_inv st ∧ channel_inv st.
Proof.
  intros (stored & evs & out & Hav & Hrun).
  pose proof (pairing_inv_init stored) as Hp. pose proof (channel_inv_init stored) as Hc.
  revert Hrun Hp Hc. generalize (init stored). revert st out.
  induction Hav as [|ev evs Hev Hevs IH]; intros st out st0; simpl.
  - by intros [= <- _].
  - destruct (step st0 ev) as [[st1 out1]|] eqn:E; [|done].
    destruct (run st1 evs) as [[st2 out2]|] eqn:E2; [|done].
    intros [= <- _] Hp Hc. eapply IH; [done | by eapply step_pairing_inv
                                      | by eapply step_channel_inv].
Qed.

(** ** Messages between strangers *)

(** C7 (the code at the failing input). Two paired connections, both
    connected. A [strangerMessage] whose text is the object
    [{ toString: 1 }] makes [String] throw: the listener throws, and the
    message is delivered to neither side. And once one of the two has
    joined the room named like their channel and switched to another room,
    it has left the group of the channel: a message of its partner goes to
    the channel and does not reach it. *)
Theorem strangerMessage_not_delivered :
  let st := after [Connection "a" (Some "alice"); Connection "b" (Some "bob");
                   FindStranger "a" "n1"; FindStranger "b" "n2"] in
  let st' := after [Connection "a" (Some "alice"); Connection "b" (Some "bob");
                    FindStranger "a" "n1"; FindStranger "b" "n2";
                    Join "a" (JObj [("room", JStr "stranger-n2")]);
                    Join "a" (JObj [("room", JStr "dev")])] in
  (paired st "a" "b" "stranger-n2" ∧ is_open "b" st = true
   ∧ js_value (JObj [("toString", JNum 1)]) = true
   ∧ on_strangerMessage "a" (JObj [("toString", JNum 1)]) "n3" 1700 st = (Throw, st, []))
  ∧ (paired st' "b" "a" "stranger-n2" ∧ is_open "a" st' = true
     ∧ emitted (on_strangerMessage "b" (JStr "hi") "n3" 1700) st'
       = [(ToRoom "stranger-n2", Ev_strangerMessage "n3" "bob" "hi" 1700)]
     ∧ "a" ∉ recipients st' (ToRoom "stranger-n2")).
Proof.
  split; split_and!; try reflexivity; try (split; reflexivity).
  intros Hin. apply (bool_decide_pack _) in Hin. by vm_compute in Hin.
Qed.

(** The [strangerMessage] listener, for a text that is a JavaScript
    value. It never changes the state. It emits nothing unless the sender
    holds a pairing link (a channel and a partner). When the partner is no
    longer a connected socket of the namespace, the one thing emitted is
    the notice to the sender that the partner has disconnected. Otherwise,
    when [String] throws on the text, the listener throws and emits
    nothing; when it gives a string, the one thing emitted is the message,
    addressed to the channel of the link, with the identifier and the
    timestamp drawn for it and the first 2000 characters of that string,
    all of it when it has no more. The sender and the partner are among
    its recipients when both are in the group of the channel, as they are
    in every state reached by events that join no room named like a
    pairing channel. *)
Theorem strangerMessage_delivery id text nid now st :
  js_value text = true →
  state_after (on_strangerMessage id text nid now) st = st
  ∧ (truthy_str (strangerRoom_of id st) = None ∨ truthy_str (partnerId_of id st) = None →
       on_strangerMessage id text nid now st = (Normal tt, st, []))
  ∧ (∀ p room, paired st id p room → room ≠ "" → p ≠ "" → gone (io_get p st) = true →
       on_strangerMessage id text nid now st =
       (Normal tt, st, [(ToSocket id, Ev_systemMessage partner_gone_text)]))
  ∧ (∀ p room, paired st id p room → room ≠ "" → p ≠ "" → gone (io_get p st) = false →
       (js_String (js_nullish text (JStr "")) = None →
          on_strangerMessage id text nid now st = (Throw, st, []))
       ∧ (∀ s, js_String (js_nullish text (JStr "")) = Some s →
            ∃ t rest,
              on_strangerMessage id text nid now st =
                (Normal tt, st,
                 [(ToRoom room, Ev_strangerMessage nid (username_of id st) t now)])
              ∧ s = t +:+ rest
              ∧ String.length t = Nat.min 2000 (String.length s))
       ∧ (id ∈ io_sockets st → has_joined st room id = true →
          has_joined st room p = true →
          {[id; p]} ⊆ recipients st (ToRoom room)))
  ∧ (reachable_apart st → ∀ p room, paired st id p room →
       room ≠ "" ∧ p ≠ "" ∧ {[id; p]} ⊆ recipients st (ToRoom room)).
Proof.
  intros _. unfold state_after. rewrite on_strangerMessage_run.
  cbn [fst snd]. split_and!.
  - done.
  - intros [-> | ->]; [done | by case_match].
  - intros p room [Hr Hp] Hrne Hpne Hg.
    rewrite (proj2 (truthy_str_Some _ room)), (proj2 (truthy_str_Some _ p)) by done.
    by rewrite Hg.
  - intros p room [Hr Hp] Hrne Hpne Hg.
    rewrite (proj2 (truthy_str_Some _ room)), (proj2 (truthy_str_Some _ p)) by done.
    rewrite Hg. split_and!.
    + intros Hthrow. unfold safeText. by rewrite Hthrow.
    + intros s Hstr. unfold safeText. rewrite Hstr. cbn [fmap option_fmap option_map].
      destruct (slice0_prefix 2000 s) as [rest Hrest].
      exists (slice0 2000 s), rest. split_and!; [done | done | apply slice0_length_min].
    + intros Hid Hjid Hjp. apply union_subseteq.
      split; apply singleton_subseteq_l, in_group_elem; split; try done.
      unfold io_get in Hg. by case_decide.
  - intros [Hpinv Hcinv]%reachable_apart_inv p room Hab.
    destruct (inv_link st Hpinv id) as [Hun | (c & r & Hac & Hrne & Hia & Hic & Hca)].
    { destruct (paired_not_unpaired _ _ _ _ Hab Hun). }
    destruct (paired_inj _ _ _ _ _ _ Hab Hac) as [-> ->].
    split_and!.
    + done.
    + apply (inv_ids st Hpinv), (inv_live st Hpinv), Hic.
    + apply union_subseteq.
      split; apply singleton_subseteq_l, in_group_elem; split; try done.
      * by apply (cinv_joined st Hcinv id c).
      * by apply (cinv_joined st Hcinv c id).
Qed.

Lemma strangerMessage_delivery_witness :
  let st := after [Connection "a" (Some "alice"); Connection "b" (Some "bob");
                   FindStranger "a" "n1"; FindStranger "b" "n2"] in
  emitted (on_strangerMessage "a" (JStr "hi") "n3" 1700) st =
    [(ToRoom "stranger-n2", Ev_strangerMessage "n3" "alice" "hi" 1700)]
  ∧ {["a"; "b"]} ⊆ recipients st (ToRoom "stranger-n2").
Proof.
  intros st.
  destruct (strangerMessage_delivery "a" (JStr "hi") "n3" 1700 st eq_refl)
    as (_ & _ & _ & _ & H').
  split; [reflexivity|].
  apply (H' ltac:(
      exists [], [Connection "a" (Some "alice"); Connection "b" (Some "bob");
                  FindStranger "a" "n1"; FindStranger "b" "n2"]; eexists;
      split; [repeat constructor; simpl; done | vm_compute; reflexivity]) "b" "stranger-n2").
  split; reflexivity.
Defined.

(** ** Joining the same room, and switching rooms *)

Lemma user_count_left_room id r st :
  user_count r (left_room id r st) = size (members_of r st ∖ {[id]}).
Proof.
  unfold user_count, left_room, members_of, members_leave.
  cbn [roomMembers upd_members upd_objs].
  destruct (roomMembers st !! r) as [set|] eqn:E.
  - case_decide as Hsz.
    + rewrite lookup_delete_eq. cbn [default from_option Datatypes.id]. by rewrite Hsz.
    + by rewrite lookup_insert_eq.
  - rewrite E. cbn [default from_option Datatypes.id].
    assert ((∅ : gset string) ∖ {[id]} = ∅) as -> by set_solver.
    by rewrite size_empty.
Qed.

(** The two halves of [join], for a connection whose current room is
    [r]. Up to its read of the store the listener throws, with nothing
    changed or emitted, when the room name cannot be converted; it returns
    at once, with nothing changed or emitted, when the effective name is
    [r]; otherwise, when [r] is not the empty string, it takes the
    connection out of [r], sends [r] the leave notice and the presence
    count of its remaining members, makes the new room current and adds
    the connection to it, and goes on to read the store. When it resumes,
    in whatever state the server is by then, it changes nothing and sends
    the history, the welcome, the notice to the others and the presence
    count of the room that is current by then. *)
Theorem join_same_room_or_switch id room st r :
  currentRoom_of id st = Some r →
  (safeRoom room = None → join_begin id room st = (Throw, st, []))
  ∧ (safeRoom room = Some r → join_begin id room st = (Normal false, st, []))
  ∧ (∀ r', safeRoom room = Some r' → r' ≠ r → r ≠ "" →
       join_begin id room st =
         (Normal true, state_after (join_begin id room) st,
          [(ToRoom r, Ev_systemMessage (username_of id st +:+ " left the room."));
           (ToRoom r, Ev_presence r (size (members_of r st ∖ {[id]})))])
       ∧ (id ∉ members_of r (state_after (join_begin id room) st))
       ∧ id ∈ members_of r' (state_after (join_begin id room) st)
       ∧ currentRoom_of id (state_after (join_begin id room) st) = Some r')
  ∧ (∀ st2 r2, currentRoom_of id st2 = Some r2 →
       join_resume id st2 =
         (tt, st2,
          [(ToSocket id, Ev_history (recent_history r2 (messages st2)));
           (ToSocket id,
            Ev_systemMessage
              ("Welcome " +:+ username_of id st2 +:+ "! You joined #" +:+ r2 +:+ "."));
           (ToRoomExcept r2 id,
            Ev_systemMessage (username_of id st2 +:+ " joined the room."));
           (ToRoom r2, Ev_presence r2 (user_count r2 st2))])).
Proof.
  intros Hcur. split_and!.
  - intros Hthrow. by rewrite join_begin_run, Hthrow.
  - intros Hsame. rewrite join_begin_run, Hsame. by rewrite decide_True.
  - intros r' Hr' Hne Hr.
    assert (is_Some (objs st !! id)) as Hs.
    { unfold currentRoom_of in Hcur. by destruct (objs st !! id). }
    unfold state_after. rewrite join_begin_run, Hr'.
    rewrite decide_False by congruence. cbn [fst snd].
    assert (truthy_str (currentRoom_of id st) = Some r) as Ht by by apply truthy_str_Some.
    split_and!.
    + unfold room_left_out. rewrite Ht. by rewrite user_count_left_room.
    + unfold members_of. rewrite switched_room_members, Ht.
      rewrite members_join_elem, members_leave_elem. intros [[_ H]|[H _]]; [|congruence].
      by apply H.
    + unfold members_of. rewrite switched_room_members, members_join_elem. by right.
    + by apply switched_room_currentRoom.
  - intros st2 r2 Hr2. by rewrite join_resume_run, Hr2.
Qed.

Lemma join_same_room_or_switch_witness :
  join_begin "a" (JStr "dev")
    (after [Connection "a" (Some "alice"); Join "a" (JObj [("room", JStr "dev")])])
  = (Normal false,
     after [Connection "a" (Some "alice"); Join "a" (JObj [("room", JStr "dev")])], []).
Proof.
  refine (proj1 (proj2 (join_same_room_or_switch "a" (JStr "dev") _ "dev" _)) _);
    reflexivity.
Defined.

(** ** What the listeners leave alone *)

(** The listeners never touch the namespace, nor a socket's user name or
    connected flag: only socket.io opening or closing a socket does. *)
Lemma step_listener_frame {X} (fld : Socket → X) st ev st' out :
  (∀ f s, fld (with_rooms f s) = fld s) →
  (∀ v s, fld (with_currentRoom v s) = fld s) →
  (∀ v s, fld (with_strangerRoom v s) = fld s) →
  (∀ v s, fld (with_partnerId v s) = fld s) →
  is_transport ev = false →
  step st ev = Some (st', out) →
  io_sockets st' = io_sockets st ∧ fld <$> objs st' = fld <$> objs st.
Proof.
  intros H1 H2 H3 H4 Htr Hstep.
  destruct ev as [id user|id payload|id text nid now|id v|id nid
                 |id text nid now|id|id]; try done; simpl in Hstep;
    unfold when_open, exec in Hstep.
  - destruct (destructure_room payload) as [room|];
      destruct (is_open id st); try done; injection Hstep as <- _; [|done].
    rewrite on_join_state. destruct (safeRoom room) as [sr|] eqn:Hsr; [|done].
    case_decide; [done|].
    split; [apply switched_room_io | by apply switched_room_field].
  - destruct (is_open id st); [|done]. injection Hstep as <- _.
    rewrite on_chatMessage_state. by repeat case_match.
  - destruct (is_open id st); [|done]. injection Hstep as <- _.
    unfold state_after. by rewrite on_typing_run.
  - destruct (is_open id st); [|done]. injection Hstep as <- _.
    split; [apply on_findStranger_io | by apply (on_findStranger_field fld)].
  - destruct (is_open id st); [|done]. injection Hstep as <- _.
    unfold state_after. by rewrite on_strangerMessage_run.
  - destruct (is_open id st); [|done]. injection Hstep as <- _.
    split; [apply on_leaveStranger_io | by apply (on_leaveStranger_field fld)].
Qed.

Lemma is_open_field id st st' :
  io_sockets st' = io_sockets st → connected <$> objs st' = connected <$> objs st →
  is_open id st' = is_open id st.
Proof. intros Hio Hc. unfold is_open. by rewrite (gone_field id st st'). Qed.

Lemma live_connected_init stored : live_connected (init stored).
Proof. intros id Hid. by apply not_elem_of_empty in Hid. Qed.

Lemma step_live_connected st ev st' out :
  step st ev = Some (st', out) → live_connected st → live_connected st'.
Proof.
  intros Hstep Hinv. destruct (is_transport ev) eqn:Htr.
  - destruct ev as [id user| | | | | | |id]; try done; simpl in Hstep.
    + destruct (is_fresh id st) eqn:Hf; [|done]. injection Hstep as <- _.
      destruct user as [u|]; [|done].
      apply andb_true_iff in Hf as [[Hne Hnone]%andb_true_iff Hnio].
      apply bool_decide_eq_true in Hnio.
      intros x. unfold is_open, io_get, state_after. simpl.
      intros Hx. rewrite decide_True by done. rewrite lookup_insert.
      destruct (decide (id = x)) as [->|Hne']; [done|].
      apply elem_of_union in Hx as [Hx%elem_of_singleton|Hx]; [done|].
      specialize (Hinv x Hx). unfold is_open, io_get in Hinv.
      by rewrite decide_True in Hinv.
    + unfold when_open, exec in Hstep. destruct (is_open id st); [|done].
      injection Hstep as <- _. rewrite disconnect_state.
      intros x. rewrite torn_down_io, dequeued_io, room_left_io. simpl.
      intros [Hx Hne]%elem_of_difference.
      assert (x ≠ id) as Hxid by set_solver.
      specialize (Hinv x Hx). revert Hinv. unfold is_open, io_get.
      rewrite torn_down_io, dequeued_io, room_left_io. simpl.
      rewrite !decide_True by set_solver.
      assert (connected <$> objs (torn_down id (dequeued id (room_left id (closed id st)))) !! x
              = connected <$> objs st !! x) as Hc.
      { rewrite <- !lookup_fmap, torn_down_field, dequeued_objs, room_left_field by done.
        unfold closed. simpl. rewrite !lookup_fmap. by rewrite lookup_alter_ne. }
      destruct (objs _ !! x), (objs st !! x); simplify_eq/=; congruence.
  - destruct (step_listener_frame connected st ev st' out) as [Hio Hc]; try done.
    intros x Hx. rewrite (is_open_field x st st') by done. apply Hinv. by rewrite <- Hio.
Qed.

Lemma reachable_live_connected st : reachable st → live_connected st.
Proof.
  intros (stored & evs & out & Hrun).
  eapply (run_invariant live_connected);
    [apply step_live_connected | done | apply live_connected_init].
Qed.

(** ** The waiting queue *)

Lemma queue_head_live st p rest :
  reachable st → waitingQueue st = p :: rest →
  rest = [] ∧ gone (io_get p st) = false ∧ p ∈ io_sockets st ∧ unpaired st p.
Proof.
  intros Hreach Hq. pose proof (reachable_pairing_inv st Hreach) as Hinv.
  assert (p ∈ waitingQueue st) as Hp by (rewrite Hq; by left).
  destruct (inv_queue st Hinv p Hp) as [Hio Hun]. split_and!; try done.
  - eapply short_queue; [done | apply (inv_queue_len st Hinv)].
  - apply (reachable_live_connected st Hreach) in Hio.
    unfold is_open in Hio. by apply negb_true_iff in Hio.
Qed.

(** In every reachable state the waiting queue holds at most one
    connection, and the one it holds is a connected socket of the
    namespace with no pairing link. So [findStranger] never meets a stale
    candidate: whenever the queue is not empty, it pairs the requester with
    the entry at its head and leaves the queue empty. *)
Theorem waiting_queue_never_stale st :
  reachable st →
  length (waitingQueue st) ≤ 1
  ∧ (∀ p, p ∈ waitingQueue st → is_open p st = true ∧ unpaired st p)
  ∧ (∀ id nid p rest, is_open id st = true → waitingQueue st = p :: rest →
       rest = []
       ∧ waitingQueue (state_after (on_findStranger id nid) st) = []
       ∧ paired (state_after (on_findStranger id nid) st) id p ("stranger-" +:+ nid)
       ∧ paired (state_after (on_findStranger id nid) st) p id ("stranger-" +:+ nid)
       ∧ emitted (on_findStranger id nid) st =
           torn_down_out id st ++ [(ToRoom ("stranger-" +:+ nid), Ev_strangerFound)]).
Proof.
  intros Hreach. pose proof (reachable_pairing_inv st Hreach) as Hinv.
  pose proof (reachable_live_connected st Hreach) as Hlive.
  split_and!.
  - apply (inv_queue_len st Hinv).
  - intros p Hp. destruct (inv_queue st Hinv p Hp) as [Hio Hun]. split; [by apply Hlive|done].
  - intros id nid p rest Hopen Hq.
    assert (rest = []) as -> by (eapply short_queue; [done | apply (inv_queue_len st Hinv)]).
    assert (gone (io_get p st) = false) as Hg.
    { assert (p ∈ waitingQueue st) as Hp by (rewrite Hq; by left).
      apply (inv_queue st Hinv) in Hp as [Hp _]. apply Hlive in Hp.
      unfold is_open in Hp. by apply negb_true_iff in Hp. }
    destruct (proj2 (findStranger_inv id nid st Hinv Hopen) p [] Hq Hg) as [H1 H2].
    split_and!; try done.
    + unfold state_after. rewrite on_findStranger_run, Hq, Hg. simpl.
      by rewrite torn_down_queue, Hq, set_delete_head.
    + unfold emitted. by rewrite on_findStranger_run, Hq, Hg.
Qed.

Lemma waiting_queue_never_stale_witness :
  waitingQueue
    (state_after (on_findStranger "b" "n2")
       (after [Connection "a" (Some "alice"); Connection "b" (Some "bob");
               FindStranger "a" "n1"])) = [].
Proof.
  refine (proj1 (proj2 (proj2 (proj2 (waiting_queue_never_stale _ _)) "b" "n2" "a" [] _ _))).
  - apply after_reachable. vm_compute. by eexists.
  - reflexivity.
  - reflexivity.
Defined.

Lemma run_snoc st evs ev st1 out1 st2 out2 :
  run st evs = Some (st1, out1) → step st1 ev = Some (st2, out2) →
  run st (evs ++ [ev]) = Some (st2, out1 ++ out2).
Proof.
  revert st out1. induction evs as [|e evs IH]; intros st out1; simpl.
  - intros [= -> <-] ->. by rewrite app_nil_r.
  - destruct (step st e) as [[sta outa]|]; [|done].
    destruct (run sta evs) as [[stb outb]|] eqn:E; [|done].
    intros [= -> <-] Hstep. rewrite (IH sta outb E Hstep). by rewrite app_assoc.
Qed.

Lemma reachable_step st ev st' out :
  reachable st → step st ev = Some (st', out) → reachable st'.
Proof.
  intros (stored & evs & out0 & Hrun) Hstep.
  exists stored, (evs ++ [ev]), (out0 ++ out). by eapply run_snoc.
Qed.

Lemma torn_down_out_paired st id b room :
  paired st id b room → room ≠ "" → b ≠ "" → b ∈ io_sockets st → is_Some (objs st !! b) →
  torn_down_out id st = [(ToSocket id, Ev_youDisconnected); (ToSocket b, Ev_strangerLeft)].
Proof.
  intros [Hr Hp] Hrne Hbne Hb [s Hs]. unfold torn_down_out.
  rewrite (proj2 (truthy_str_Some _ room)), (proj2 (truthy_str_Some _ b)) by done.
  unfold io_get. by rewrite decide_True, Hs.
Qed.

(** ** The states of a connection in the stranger chat *)

(** In every reachable state, [findStranger] leaves the requester either
    waiting (alone in the queue, without a link, told [waitingStranger])
    or paired (outside the queue, bound to a partner that is bound to it,
    the channel told [strangerFound]), never both. A partner it had
    before, other than itself, is told [strangerLeft] and left without a
    link. *)
Theorem findStranger_waits_or_pairs st id nid :
  reachable st → is_open id st = true →
  ((waitingQueue st = [] ∧
    waitingQueue (state_after (on_findStranger id nid) st) = [id] ∧
    unpaired (state_after (on_findStranger id nid) st) id ∧
    emitted (on_findStranger id nid) st =
      torn_down_out id st ++ [(ToSocket id, Ev_waitingStranger)])
   ∨ (∃ p, waitingQueue st = [p] ∧
      waitingQueue (state_after (on_findStranger id nid) st) = [] ∧
      paired (state_after (on_findStranger id nid) st) id p ("stranger-" +:+ nid) ∧
      paired (state_after (on_findStranger id nid) st) p id ("stranger-" +:+ nid) ∧
      {[id; p]} ⊆ recipients (state_after (on_findStranger id nid) st)
                    (ToRoom ("stranger-" +:+ nid)) ∧
      emitted (on_findStranger id nid) st =
        torn_down_out id st ++ [(ToRoom ("stranger-" +:+ nid), Ev_strangerFound)]))
  ∧ (∀ b room, paired st id b room → b ≠ id →
       unpaired (state_after (on_findStranger id nid) st) b
       ∧ torn_down_out id st =
           [(ToSocket id, Ev_youDisconnected); (ToSocket b, Ev_strangerLeft)]).
Proof.
  intros Hreach Hopen. pose proof (reachable_pairing_inv st Hreach) as Hinv.
  destruct (teardown_inv id st st Hinv) as [Hinv1 Hun1]; try done; [by left | | |].
  { intros q Hq. split; [done|]. by apply (inv_queue st Hinv). }
  { apply (inv_queue_len st Hinv). }
  split.
  - destruct (waitingQueue st) as [|p rest] eqn:Hq.
    + left. unfold state_after, emitted. rewrite on_findStranger_run, Hq. simpl.
      rewrite torn_down_queue, Hq. by split_and!.
    + right. exists p.
      destruct (queue_head_live st p rest Hreach Hq) as (-> & Hg & Hpio & Hpun).
      destruct (proj2 (findStranger_inv id nid st Hinv Hopen) p [] Hq Hg) as [H2 H3].
      pose proof (paired_is_Some _ _ _ _ H2) as [s Hs].
      pose proof (paired_is_Some _ _ _ _ H3) as [s' Hs'].
      split_and!; try done.
      * unfold state_after. rewrite on_findStranger_run, Hq, Hg. simpl.
        by rewrite torn_down_queue, Hq, set_delete_head.
      * revert Hs Hs'. unfold state_after. rewrite on_findStranger_run, Hq, Hg. simpl.
        intros Hs Hs'. apply union_subseteq.
        split; apply singleton_subseteq_l, in_group_elem; simpl; rewrite torn_down_io.
        -- split; [by apply is_open_Some in Hopen as (? & _)|].
           unfold has_joined. simpl. rewrite Hs. apply bool_decide_eq_true.
           eapply pair_up_joined; [|done]. by left.
        -- split; [done|].
           unfold has_joined. simpl. rewrite Hs'. apply bool_decide_eq_true.
           eapply pair_up_joined; [|done]. by right.
      * unfold emitted. by rewrite on_findStranger_run, Hq, Hg.
  - intros b room Hab Hne.
    destruct (inv_link st Hinv id) as [Hun | (c & r & Hac & Hrne & Hia & Hic & Hca)].
    { destruct (paired_not_unpaired _ _ _ _ Hab Hun). }
    destruct (paired_inj _ _ _ _ _ _ Hab Hac) as [-> ->].
    assert (c ≠ "") as Hcne by (apply (inv_ids st Hinv), (inv_live st Hinv), Hic).
    split; [|by apply (torn_down_out_paired st id c r); try apply (inv_live st Hinv)].
    assert (unpaired (torn_down id st) c) as Hc1.
    { apply (torn_down_paired st id c r); auto. }
    assert (c ∉ waitingQueue st) as Hcq.
    { intros [_ Hq]%(inv_queue st Hinv). exact (paired_not_unpaired _ _ _ _ Hca Hq). }
    unfold state_after. rewrite on_findStranger_run.
    destruct (waitingQueue st) as [|p rest] eqn:Hq; simpl; [done|].
    destruct (gone (io_get p st)); simpl; [done|].
    assert (c ≠ p) as Hcp by (intros ->; apply Hcq; by left).
    revert Hc1. unfold unpaired, strangerRoom_of, partnerId_of. simpl.
    by rewrite pair_up_other by done.
Qed.

Lemma findStranger_waits_or_pairs_witness :
  unpaired
    (state_after (on_findStranger "a" "n3")
       (after [Connection "a" (Some "alice"); Connection "b" (Some "bob");
               FindStranger "a" "n1"; FindStranger "b" "n2"])) "b".
Proof.
  refine (proj1 (proj2 (findStranger_waits_or_pairs _ "a" "n3" _ _) "b" "stranger-n2" _ _)).
  - apply after_reachable. vm_compute. by eexists.
  - reflexivity.
  - split; reflexivity.
  - discriminate.
Defined.

(** In every reachable state, [leaveStranger] leaves the connection
    idle: outside the queue and without a link. A waiting connection is
    only told [youDisconnected]; a paired one is told so too, and its
    partner is told [strangerLeft] and left without a link; for an idle
    connection the event does nothing. *)
Theorem leaveStranger_makes_idle st id :
  reachable st →
  (id ∉ waitingQueue (state_after (on_leaveStranger id) st))
  ∧ unpaired (state_after (on_leaveStranger id) st) id
  ∧ (id ∈ waitingQueue st →
       emitted (on_leaveStranger id) st = [(ToSocket id, Ev_youDisconnected)]
       ∧ objs (state_after (on_leaveStranger id) st) = objs st)
  ∧ (∀ b room, paired st id b room →
       unpaired (state_after (on_leaveStranger id) st) b
       ∧ emitted (on_leaveStranger id) st =
           [(ToSocket id, Ev_youDisconnected); (ToSocket b, Ev_strangerLeft)])
  ∧ (id ∉ waitingQueue st → unpaired st id → on_leaveStranger id st = (tt, st, [])).
Proof.
  intros Hreach. pose proof (reachable_pairing_inv st Hreach) as Hinv.
  unfold state_after, emitted. rewrite on_leaveStranger_run.
  destruct (decide (id ∈ waitingQueue st)) as [Hq|Hq]; simpl.
  - destruct (inv_queue st Hinv id Hq) as [Hio Hun]. split_and!; try done.
    + rewrite set_delete_elem. tauto.
    + intros b room Hab. destruct (paired_not_unpaired _ _ _ _ Hab Hun).
  - destruct (teardown_inv id st st Hinv) as [Hinv1 Hun1]; try done; [by left | | |].
    { intros q Hq'. split; [done|]. by apply (inv_queue st Hinv). }
    { apply (inv_queue_len st Hinv). }
    split_and!; try done.
    + by rewrite torn_down_queue.
    + intros b room Hab.
      destruct (inv_link st Hinv id) as [Hun | (c & r & Hac & Hrne & Hia & Hic & Hca)].
      { destruct (paired_not_unpaired _ _ _ _ Hab Hun). }
      destruct (paired_inj _ _ _ _ _ _ Hab Hac) as [-> ->].
      assert (c ≠ "") as Hcne by (apply (inv_ids st Hinv), (inv_live st Hinv), Hic).
      split; [apply (torn_down_paired st id c r); auto|].
      by apply (torn_down_out_paired st id c r); try apply (inv_live st Hinv).
    + intros _ [Hun _]. rewrite torn_down_unpaired, torn_down_out_unpaired; by rewrite ?Hun.
Qed.

Lemma leaveStranger_makes_idle_witness :
  unpaired
    (state_after (on_leaveStranger "a")
       (after [Connection "a" (Some "alice"); Connection "b" (Some "bob");
               FindStranger "a" "n1"; FindStranger "b" "n2"])) "a".
Proof.
  refine (proj1 (proj2 (leaveStranger_makes_idle _ "a" _))).
  apply after_reachable. vm_compute. by eexists.
Defined.

(** ** What a disconnection leaves behind *)

(** When a connection of a reachable state disconnects, nothing of it is
    left in the pairing state: it is out of the namespace and of the
    queue, holds no link, and no socket names it as partner; a partner it
    had is told [strangerLeft] and left without a link. When its current
    room was not the empty string, it is out of that room's member set,
    and the room was sent the leave notice and its new count. *)
Theorem disconnect_leaves_no_trace st id st' out :
  reachable st → step st (Disconnect id) = Some (st', out) →
  (id ∉ io_sockets st')
  ∧ (id ∉ waitingQueue st')
  ∧ unpaired st' id
  ∧ (∀ x room, ¬ paired st' x id room)
  ∧ (∀ b room, paired st id b room → b ≠ id →
       unpaired st' b ∧ (ToSocket b, Ev_strangerLeft) ∈ out)
  ∧ (∀ r, currentRoom_of id st = Some r → r ≠ "" →
       (id ∉ members_of r st')
       ∧ (ToRoom r, Ev_systemMessage (username_of id st +:+ " left the room.")) ∈ out
       ∧ (ToRoom r, Ev_presence r (user_count r st')) ∈ out).
Proof.
  intros Hreach Hstep. pose proof (reachable_pairing_inv st Hreach) as Hinv.
  pose proof (reachable_pairing_inv st' (reachable_step _ _ _ _ Hreach Hstep)) as Hinv'.
  simpl in Hstep. unfold when_open, exec in Hstep.
  destruct (is_open id st) eqn:Hopen; [|done]. injection Hstep as Hst Hout.
  rewrite disconnect_state in Hst.
  assert (emitted (transport_close id;; on_disconnect id) st =
          room_left_out id (closed id st)
          ++ torn_down_out id (dequeued id (room_left id (closed id st)))) as Hem.
  { unfold emitted, bind, transport_close, modify. simpl. by rewrite on_disconnect_run. }
  rewrite Hem in Hout. clear Hem.
  set (st2 := dequeued id (room_left id (closed id st))) in *.
  assert (io_sockets st' = io_sockets st ∖ {[id]}) as Hio.
  { rewrite <- Hst, torn_down_io. unfold st2. by rewrite dequeued_io, room_left_io. }
  assert (id ∉ io_sockets st') as Hnot by (rewrite Hio; set_solver).
  assert (strangerRoom <$> objs st2 = strangerRoom <$> objs st) as Hsr.
  { unfold st2. rewrite dequeued_objs, room_left_field by done. by apply closed_field. }
  assert (partnerId <$> objs st2 = partnerId <$> objs st) as Hpi.
  { unfold st2. rewrite dequeued_objs, room_left_field by done. by apply closed_field. }
  assert (currentRoom_of id (closed id st) = currentRoom_of id st) as Hcc.
  { apply currentRoom_of_field. by apply closed_field. }
  assert (username_of id (closed id st) = username_of id st) as Huc.
  { apply username_of_field. by apply closed_field. }
  split_and!.
  - done.
  - intros [Hq _]%(inv_queue st' Hinv'). done.
  - destruct (inv_link st' Hinv' id) as [?|(b & r & _ & _ & Hid & _)]; done.
  - intros x room Hx.
    destruct (inv_link st' Hinv' x) as [Hun|(b & r & Hxb & _ & _ & Hb & _)].
    + exact (paired_not_unpaired _ _ _ _ Hx Hun).
    + destruct (paired_inj _ _ _ _ _ _ Hx Hxb) as [<- _]. done.
  - intros b room Hab Hne.
    destruct (inv_link st Hinv id) as [Hun | (c & r & Hac & Hrne & Hia & Hic & Hca)].
    { destruct (paired_not_unpaired _ _ _ _ Hab Hun). }
    destruct (paired_inj _ _ _ _ _ _ Hab Hac) as [-> ->].
    assert (c ≠ "") as Hcne by (apply (inv_ids st Hinv), (inv_live st Hinv), Hic).
    assert (paired st2 id c r) as Hp2 by by apply (paired_same st st2).
    assert (c ∈ io_sockets st2) as Hc2.
    { unfold st2. rewrite dequeued_io, room_left_io. simpl. set_solver. }
    split.
    + rewrite <- Hst. apply (torn_down_paired st2 id c r); auto.
    + rewrite <- Hout. apply elem_of_app. right.
      rewrite (torn_down_out_paired st2 id c r); try done.
      * apply elem_of_cons. right. by left.
      * apply (is_Some_same st st2 Hsr), (inv_live st Hinv), Hic.
  - intros r Hcur Hr.
    assert (truthy_str (currentRoom_of id (closed id st)) = Some r) as Ht.
    { rewrite Hcc. by apply truthy_str_Some. }
    assert (roomMembers st' = members_leave id r (roomMembers st)) as Hm.
    { rewrite <- Hst, torn_down_members. unfold st2, dequeued, room_left. rewrite Ht.
      by case_decide. }
    split_and!.
    + unfold members_of. rewrite Hm, members_leave_elem. intros [_ H]. by apply H.
    + rewrite <- Hout. apply elem_of_app. left. unfold room_left_out.
      rewrite Ht, Huc. by left.
    + rewrite <- Hout. apply elem_of_app. left. unfold room_left_out. rewrite Ht.
      apply elem_of_cons. right.
      assert (user_count r (left_room id r (closed id st)) = user_count r st') as ->;
        [|by left].
      unfold user_count. by rewrite Hm.
Qed.

Lemma disconnect_leaves_no_trace_witness :
  unpaired
    (after [Connection "a" (Some "alice"); Connection "b" (Some "bob");
            FindStranger "a" "n1"; FindStranger "b" "n2"; Disconnect "a"]) "b".
Proof.
  refine (proj1 (proj1 (proj2 (proj2 (proj2 (proj2
    (disconnect_leaves_no_trace
       (after [Connection "a" (Some "alice"); Connection "b" (Some "bob");
               FindStranger "a" "n1"; FindStranger "b" "n2"]) "a" _
       (emitted (transport_close "a";; on_disconnect "a")
          (after [Connection "a" (Some "alice"); Connection "b" (Some "bob");
                  FindStranger "a" "n1"; FindStranger "b" "n2"])) _ _)))))
    "b" "stranger-n2" _ _)).
  - apply after_reachable. vm_compute. by eexists.
  - vm_compute. reflexivity.
  - split; reflexivity.
  - discriminate.
Defined.

(** ** Rooms and pairing are independent *)

Lemma on_findStranger_messages id nid : Preserves messages (on_findStranger id nid).
Proof.
  unfold on_findStranger, leave_if_paired, handleStrangerLeave. unfold_helpers. preserves.
Qed.

Lemma on_leaveStranger_messages id : Preserves messages (on_leaveStranger id).
Proof.
  unfold on_leaveStranger, leave_if_paired, handleStrangerLeave. unfold_helpers. preserves.
Qed.

(** The listeners of the room chat ([join], [chatMessage], [typing])
    never change the waiting queue or any pairing link; the listeners of
    the stranger chat ([findStranger], [strangerMessage], [leaveStranger])
    never change the room directory, a current room or the stored
    messages. *)
Theorem rooms_and_pairing_independent st ev st' out :
  step st ev = Some (st', out) →
  match ev with
  | Join _ _ | ChatMessage _ _ _ _ | Typing _ _ =>
      waitingQueue st' = waitingQueue st
      ∧ ∀ a b room, paired st' a b room ↔ paired st a b room
  | FindStranger _ _ | StrangerMessage _ _ _ _ | LeaveStranger _ =>
      roomMembers st' = roomMembers st
      ∧ messages st' = messages st
      ∧ ∀ a, currentRoom_of a st' = currentRoom_of a st
  | Connection _ _ | Disconnect _ => True
  end.
Proof.
  intros Hstep.
  destruct ev as [id user|id payload|id text nid now|id v|id nid
                 |id text nid now|id|id]; try done; simpl in Hstep;
    unfold when_open, exec in Hstep.
  - destruct (destructure_room payload) as [room|];
      destruct (is_open id st); try done; injection Hstep as <- _; [|done].
    rewrite on_join_state. destruct (safeRoom room) as [sr|] eqn:Hsr; [|done].
    case_decide; [done|]. split; [apply switched_room_queue|].
    intros a b r. apply paired_same; by apply switched_room_field.
  - destruct (is_open id st); [|done]. injection Hstep as <- _.
    rewrite on_chatMessage_state. by repeat case_match.
  - destruct (is_open id st); [|done]. injection Hstep as <- _.
    unfold state_after. by rewrite on_typing_run.
  - destruct (is_open id st); [|done]. injection Hstep as <- _.
    split_and!; [apply on_findStranger_members | apply on_findStranger_messages |].
    intros a. apply currentRoom_of_field. by apply (on_findStranger_field currentRoom).
  - destruct (is_open id st); [|done]. injection Hstep as <- _.
    unfold state_after. by rewrite on_strangerMessage_run.
  - destruct (is_open id st); [|done]. injection Hstep as <- _.
    split_and!; [apply on_leaveStranger_members | apply on_leaveStranger_messages |].
    intros a. apply currentRoom_of_field. by apply (on_leaveStranger_field currentRoom).
Qed.

Lemma rooms_and_pairing_independent_witness :
  waitingQueue
    (after [Connection "a" (Some "alice"); FindStranger "a" "n1";
            Join "a" (JObj [("room", JStr "dev")])])
  = waitingQueue (after [Connection "a" (Some "alice"); FindStranger "a" "n1"]).
Proof.
  refine (proj1 (rooms_and_pairing_independent
            (after [Connection "a" (Some "alice"); FindStranger "a" "n1"])
            (Join "a" (JObj [("room", JStr "dev")])) _
            (emitted (on_join "a" (JStr "dev"))
               (after [Connection "a" (Some "alice"); FindStranger "a" "n1"])) _)).
  vm_compute. reflexivity.
Defined.

(** ** Joining twice *)

(** Handling the same [join] a second time does nothing: the state and
    the room stay as the first handling left them and nothing is emitted,
    whatever the room name given. *)
Theorem join_twice_is_noop id room st :
  is_Some (objs st !! id) →
  on_join id room (state_after (on_join id room) st)
  = (tt, state_after (on_join id room) st, []).
Proof.
  intros Hs. rewrite (on_join_run id room (state_after _ _)).
  destruct (safeRoom room) as [sr|] eqn:Hsr; [|done].
  rewrite decide_True; [done|]. rewrite on_join_state, Hsr.
  case_decide; [done|]. by apply switched_room_currentRoom.
Qed.

Lemma join_twice_is_noop_witness :
  emitted (on_join "a" (JArr []))
    (state_after (on_join "a" (JArr [])) (after [Connection "a" (Some "alice")])) = [].
Proof.
  unfold emitted.
  rewrite (join_twice_is_noop "a" (JArr []) (after [Connection "a" (Some "alice")]));
    [reflexivity|].
  vm_compute. by eexists.
Defined.

(** ** Room messages reach the room *)

Lemma switched_room_joined id room st :
  is_Some (objs st !! id) → has_joined (switched_room id room st) room id = true.
Proof.
  intros Hs. unfold has_joined, switched_room, joined_room. simpl.
  rewrite !lookup_alter_eq.
  assert (is_Some (objs (room_left id st) !! id)) as [s ->].
  { apply (field_is_Some currentRoom st); [by apply room_left_field | done]. }
  simpl. apply bool_decide_eq_true. set_solver.
Qed.

Lemma torn_down_has_joined id st g x :
  (∀ r0, truthy_str (strangerRoom_of id st) = Some r0 → g ≠ r0) →
  has_joined (torn_down id st) g x = has_joined st g x.
Proof.
  intros Hg. unfold torn_down.
  destruct (truthy_str (strangerRoom_of id st)) as [r0|] eqn:E; [|done].
  specialize (Hg r0 eq_refl).
  assert (∀ (m : gmap string Socket) y,
            (match alter (unlink r0) y m !! x with
             | Some s => bool_decide (g ∈ rooms s)
             | None => false
             end) = match m !! x with
                    | Some s => bool_decide (g ∈ rooms s)
                    | None => false
                    end) as Hstep.
  { intros m y. rewrite lookup_alter. case_decide; [|done]. subst.
    destruct (m !! x) as [s|]; [|done]. simpl. apply bool_decide_ext. set_solver. }
  unfold has_joined. simpl. rewrite Hstep.
  destruct (truthy_str (partnerId_of id st)) as [p|]; [|done].
  destruct (decide (p ∈ io_sockets st)); [|done]. apply Hstep.
Qed.

Lemma pair_up_has_joined id p room (m : gmap string Socket) g x s :
  m !! x = Some s → g ∈ rooms s →
  ∃ s', pair_up id p room m !! x = Some s' ∧ g ∈ rooms s'.
Proof.
  intros Hs Hg. unfold pair_up. rewrite !lookup_alter.
  repeat case_decide; simplify_eq; rewrite ?Hs; simpl; eexists; split; try done;
    simpl; set_solver.
Qed.

Lemma group_inv_init stored : group_inv (init stored).
Proof. intros id r Hid. by apply not_elem_of_empty in Hid. Qed.

Lemma strangerRoom_is_channel st id r0 :
  pairing_inv st → channel_inv st →
  truthy_str (strangerRoom_of id st) = Some r0 → is_channel r0.
Proof.
  intros Hp Hc [Hr _]%truthy_str_Some.
  destruct (inv_link st Hp id) as [[Hun _] | (b & r & Hab & _)]; [congruence|].
  destruct Hab as [Hr' Hb]. assert (r = r0) as -> by congruence.
  by apply (cinv_channel st Hc id b).
Qed.

Lemma group_inv_torn_down id st st2 :
  pairing_inv st → channel_inv st → group_inv st →
  strangerRoom_of id st2 = strangerRoom_of id st →
  io_sockets st2 ⊆ io_sockets st →
  (∀ x g, x ∈ io_sockets st2 → has_joined st2 g x = has_joined st g x) →
  currentRoom <$> objs st2 = currentRoom <$> objs st →
  group_inv (torn_down id st2).
Proof.
  intros Hp Hc Hg Hsr Hio Hj Hcur x r Hx Hr.
  rewrite torn_down_io in Hx.
  rewrite (currentRoom_of_field st2), (currentRoom_of_field st st2) in Hr
    by (done || by apply torn_down_field).
  rewrite torn_down_has_joined.
  - rewrite Hj by done. apply Hg; [by apply Hio | done].
  - intros r0 Hr0 ->. rewrite Hsr in Hr0.
    apply (cinv_current st Hc x r0 Hr). by eapply strangerRoom_is_channel.
Qed.

Lemma step_group_inv st ev st' out :
  avoids_channels ev → step st ev = Some (st', out) →
  pairing_inv st → channel_inv st → group_inv st → group_inv st'.
Proof.
  intros Hav Hstep Hpinv Hcinv Hinv.
  destruct ev as [id user|id payload|id text nid now|id v|id nid
                 |id text nid now|id|id]; simpl in Hstep;
    unfold when_open, exec in Hstep.
  - (* connection *)
    destruct (is_fresh id st) eqn:Hf; [|done]. injection Hstep as <- _.
    destruct user as [u|]; [|done].
    intros x r. unfold state_after, has_joined, currentRoom_of. simpl.
    rewrite lookup_insert. destruct (decide (id = x)) as [->|Hne]; [done|].
    intros Hx Hr. apply elem_of_union in Hx as [Hx%elem_of_singleton|Hx]; [done|].
    by apply (Hinv x r).
  - (* join *)
    destruct (destructure_room payload) as [room|];
      destruct (is_open id st) eqn:Hopen; try done; injection Hstep as <- _; [|done].
    apply is_open_Some in Hopen as (Hio & Hs & _).
    rewrite on_join_state. destruct (safeRoom room) as [sr|] eqn:Hsr; [|done].
    case_decide as Hcur; [done|].
    intros x r. rewrite switched_room_io. intros Hx.
    destruct (decide (x = id)) as [->|Hne].
    + rewrite switched_room_currentRoom by done. intros [= <-].
      by apply switched_room_joined.
    + rewrite switched_room_others by done.
      rewrite (has_joined_objs st) by by apply switched_room_objs_other. by apply Hinv.
  - (* chatMessage *)
    destruct (is_open id st); [|done]. injection Hstep as <- _.
    rewrite on_chatMessage_state. by repeat case_match.
  - (* typing *)
    destruct (is_open id st); [|done]. injection Hstep as <- _.
    unfold state_after. by rewrite on_typing_run.
  - (* findStranger *)
    destruct (is_open id st) eqn:Hopen; [|done]. injection Hstep as <- _.
    assert (group_inv (torn_down id st)) as Hinv1 by by apply (group_inv_torn_down id st st).
    unfold state_after. rewrite on_findStranger_run.
    destruct (waitingQueue st) as [|p rest] eqn:Hq; simpl; [done|].
    destruct (gone (io_get p st)); simpl; [done|].
    intros x r Hx Hr. simpl in Hx.
    assert (currentRoom_of x (torn_down id st) = Some r) as Hr1.
    { rewrite <- Hr. symmetry. apply currentRoom_of_field. simpl.
      apply pair_up_currentRoom. }
    specialize (Hinv1 x r Hx Hr1). revert Hinv1. unfold has_joined. simpl.
    destruct (objs (torn_down id st) !! x) as [s|] eqn:Hs; [|done].
    intros Hg%bool_decide_eq_true.
    destruct (pair_up_has_joined id p ("stranger-" +:+ nid) _ r x s Hs Hg) as (s' & -> & Hg').
    by apply bool_decide_eq_true.
  - (* strangerMessage *)
    destruct (is_open id st); [|done]. injection Hstep as <- _.
    unfold state_after. by rewrite on_strangerMessage_run.
  - (* leaveStranger *)
    destruct (is_open id st); [|done]. injection Hstep as <- _.
    unfold state_after. rewrite on_leaveStranger_run. case_decide; simpl; [done|].
    by apply (group_inv_torn_down id st st).
  - (* disconnect *)
    destruct (is_open id st); [|done]. injection Hstep as <- _.
    rewrite disconnect_state. apply (group_inv_torn_down id st); try done.
    + apply strangerRoom_of_field.
      rewrite dequeued_objs, room_left_field by done. by apply closed_field.
    + rewrite dequeued_io, room_left_io. simpl. set_solver.
    + intros x g. rewrite dequeued_io, room_left_io. simpl.
      intros [_ Hx]%elem_of_difference. apply has_joined_objs, disconnect_objs_other.
      set_solver.
    + rewrite dequeued_objs, room_left_field by done. by apply closed_field.
Qed.

Lemma reachable_apart_group_inv st : reachable_apart st → group_inv st.
Proof.
  intros (stored & evs & out & Hav & Hrun).
  pose proof (pairing_inv_init stored) as Hp. pose proof (channel_inv_init stored) as Hc.
  pose proof (group_inv_init stored) as Hg.
  revert Hrun Hp Hc Hg. generalize (init stored). revert st out.
  induction Hav as [|ev evs Hev Hevs IH]; intros st out st0; simpl.
  - by intros [= <- _].
  - destruct (step st0 ev) as [[st1 out1]|] eqn:E; [|done].
    destruct (run st1 evs) as [[st2 out2]|] eqn:E2; [|done].
    intros [= <- _] Hp Hc Hg.
    eapply IH; [done | by eapply step_pairing_inv | by eapply step_channel_inv
               | by eapply step_group_inv].
Qed.

(** The three parts of [chatMessage], for a text that is a JavaScript
    value. Up to its read of the store the listener changes and emits
    nothing: it returns without a current room, it throws when the text
    cannot be converted, and otherwise it goes on with one record, which
    bears the sender's name, the room current at that moment, the
    identifier and the timestamp drawn for it and the first 2000
    characters of the converted text, all of it when it has no more. Then
    it appends exactly that record to the stored messages. At last it
    emits that record to the room that is current by then and changes
    nothing. Whatever the store holds by then, when the sockets are those
    of a state reached by events that join no room named like a pairing
    channel, the broadcast reaches every connection whose current room it
    is, the sender included. *)
Theorem chatMessage_persists_and_broadcasts id text nid now st :
  js_value text = true →
  (truthy_str (currentRoom_of id st) = None →
     chat_begin id text nid now st = (Normal None, st, []))
  ∧ (∀ room, currentRoom_of id st = Some room → room ≠ "" →
       (js_String (js_nullish text (JStr "")) = None →
          chat_begin id text nid now st = (Throw, st, []))
       ∧ (∀ s, js_String (js_nullish text (JStr "")) = Some s →
            ∃ t rest,
              chat_begin id text nid now st =
                (Normal (Some (mkMsg nid (username_of id st) room t now)), st, [])
              ∧ s = t +:+ rest
              ∧ String.length t = Nat.min 2000 (String.length s)))
  ∧ (∀ msg st1,
       chat_store msg st1 = (tt, upd_messages (λ ms, ms ++ [msg]) st1, []))
  ∧ (∀ msg st2 room2, currentRoom_of id st2 = Some room2 →
       chat_emit id msg st2 = (tt, st2, [(ToRoom room2, Ev_chatMessage msg)])
       ∧ (∀ st0 ms, reachable_apart st0 → st2 = upd_messages (λ _, ms) st0 →
            id ∈ io_sockets st2 →
            connections_in room2 st2 ⊆ recipients st2 (ToRoom room2)
            ∧ id ∈ recipients st2 (ToRoom room2))).
Proof.
  intros _. split_and!.
  - intros Hnone. by rewrite chat_begin_run, Hnone.
  - intros room Hcur Hne.
    assert (truthy_str (currentRoom_of id st) = Some room) as Ht by by apply truthy_str_Some.
    split.
    + intros Hthrow. rewrite chat_begin_run, Ht. unfold safeText. by rewrite Hthrow.
    + intros s Hs. rewrite chat_begin_run, Ht. unfold safeText. rewrite Hs.
      cbn [fmap option_fmap option_map].
      destruct (slice0_prefix 2000 s) as [rest Hrest].
      exists (slice0 2000 s), rest. split_and!; [done | done | apply slice0_length_min].
  - done.
  - intros msg st2 room2 Hcur. split; [by rewrite chat_emit_run, Hcur|].
    intros st0 ms Hg%reachable_apart_group_inv -> Hid.
    assert (connections_in room2 (upd_messages (λ _, ms) st0)
              ⊆ recipients (upd_messages (λ _, ms) st0) (ToRoom room2)) as Hsub.
    { intros x [Hx Hio]%elem_of_filter. apply in_group_elem. split; [done|].
      by apply (Hg x room2). }
    split; [done|]. apply Hsub, elem_of_filter. done.
Qed.

Lemma chatMessage_persists_and_broadcasts_witness :
  "a" ∈ recipients
          (after [Connection "a" (Some "alice"); Join "a" (JObj [("room", JStr "dev")])])
          (ToRoom "dev").
Proof.
  refine (proj2 (proj2 (proj2 (proj2 (proj2
    (chatMessage_persists_and_broadcasts "a" (JStr "hi") "n1" 5
       (after [Connection "a" (Some "alice"); Join "a" (JObj [("room", JStr "dev")])])
       eq_refl)))
    (mkMsg "n1" "alice" "dev" "hi" 5)
    (after [Connection "a" (Some "alice"); Join "a" (JObj [("room", JStr "dev")])])
    "dev" _)
    (after [Connection "a" (Some "alice"); Join "a" (JObj [("room", JStr "dev")])])
    [] _ _ _)).
  - reflexivity.
  - exists [], [Connection "a" (Some "alice"); Join "a" (JObj [("room", JStr "dev")])].
    eexists. split; [|vm_compute; reflexivity].
    repeat constructor. simpl. intros r [= <-] [nid Hn]. discriminate.
  - reflexivity.
  - vm_compute. set_solver.
Defined.

(** ** From a room message to the backlog of the next join *)

Lemma insert_by_ts_latest m l :
  Forall (λ x, (msg_ts x ≤ msg_ts m)%Z) l → insert_by_ts m l = l ++ [m].
Proof.
  induction 1 as [|x l Hx _ IH]; simpl; [done|].
  destruct (Z.ltb_spec (msg_ts m) (msg_ts x)); [lia|]. by rewrite IH.
Qed.

Lemma sort_by_ts_snoc l m : sort_by_ts (l ++ [m]) = insert_by_ts m (sort_by_ts l).
Proof. unfold sort_by_ts. by rewrite fold_left_app. Qed.

Lemma slice_last_snoc n l m : slice_last (S n) (l ++ [m]) = slice_last n l ++ [m].
Proof.
  unfold slice_last. rewrite length_app. simpl.
  rewrite drop_app_le by lia. f_equal. f_equal. lia.
Qed.

Lemma slice_last_slice_last n k l :
  n ≤ k → slice_last n (slice_last k l) = slice_last n l.
Proof.
  intros Hnk. unfold slice_last. rewrite drop_drop, length_drop. f_equal. lia.
Qed.

Lemma recent_history_snoc room msgs m :
  msg_room m = room →
  (∀ x, x ∈ msgs → msg_room x = room → (msg_ts x ≤ msg_ts m)%Z) →
  recent_history room (msgs ++ [m]) = slice_last 29 (recent_history room msgs) ++ [m].
Proof.
  intros Hroom Hts. unfold recent_history.
  rewrite filter_app, filter_cons_True, filter_nil by done.
  rewrite sort_by_ts_snoc, insert_by_ts_latest.
  - by rewrite slice_last_snoc, slice_last_slice_last by lia.
  - apply Forall_forall. intros x Hx. rewrite sort_by_ts_perm in Hx.
    apply list_elem_of_filter in Hx as [Hr Hx]. by apply Hts.
Qed.

Lemma recent_history_other_room room msgs m :
  msg_room m ≠ room → recent_history room (msgs ++ [m]) = recent_history room msgs.
Proof.
  intros Hroom. unfold recent_history.
  by rewrite filter_app, filter_cons_False, filter_nil, app_nil_r by done.
Qed.

(** From a [chatMessage] to the history of the next [join], for a text
    that is a JavaScript value and that [String] converts. The listener
    goes on with the record it built for the room current at that moment.
    When it appends the record, with a timestamp that is not before the
    timestamp of any stored message of that room, the backlog of the room
    becomes the last 29 items of the former backlog followed by the
    record; the backlog of every other room is unchanged; and a connection
    that resumes a [join] next with that room current is first sent
    exactly that backlog, ending in the record. *)
Theorem chatMessage_ends_next_backlog id text nid now room st t st1 :
  js_value text = true →
  currentRoom_of id st = Some room → room ≠ "" →
  safeText text = Some t →
  (∀ m, m ∈ messages st1 → msg_room m = room → (msg_ts m ≤ now)%Z) →
  let sent := mkMsg nid (username_of id st) room t now in
  let st2 := state_after (chat_store sent) st1 in
  chat_begin id text nid now st = (Normal (Some sent), st, [])
  ∧ recent_history room (messages st2) =
      slice_last 29 (recent_history room (messages st1)) ++ [sent]
  ∧ (∀ other, other ≠ room →
       recent_history other (messages st2) = recent_history other (messages st1))
  ∧ (∀ j, currentRoom_of j st2 = Some room →
       head (emitted (join_resume j) st2) =
         Some (ToSocket j,
               Ev_history (slice_last 29 (recent_history room (messages st1)) ++ [sent]))).
Proof.
  intros _ Hcur Hne Htext Hts sent st2.
  assert (recent_history room (messages st2) =
            slice_last 29 (recent_history room (messages st1)) ++ [sent]) as Hh.
  { unfold st2, state_after, chat_store. simpl. by apply recent_history_snoc. }
  split_and!.
  - rewrite chat_begin_run, Htext.
    by rewrite (proj2 (truthy_str_Some _ room)) by done.
  - done.
  - intros other Ho. unfold st2, state_after, chat_store. simpl.
    apply recent_history_other_room. simpl. congruence.
  - intros j Hj. unfold emitted. rewrite join_resume_run, Hj.
    unfold welcome_out. by rewrite Hh.
Qed.

Lemma chatMessage_ends_next_backlog_witness :
  recent_history "dev"
    (messages
       (state_after (chat_store (mkMsg "n1" "alice" "dev" "hi" 5))
          (after [Connection "a" (Some "alice");
                  Join "a" (JObj [("room", JStr "dev")]);
                  ChatMessage "a" (JStr "yo") "n0" 3]))) =
  [mkMsg "n0" "alice" "dev" "yo" 3; mkMsg "n1" "alice" "dev" "hi" 5].
Proof.
  refine (proj1 (proj2 (chatMessage_ends_next_backlog "a" (JStr "hi") "n1" 5 "dev"
                   (after [Connection "a" (Some "alice");
                           Join "a" (JObj [("room", JStr "dev")]);
                           ChatMessage "a" (JStr "yo") "n0" 3])
                   "hi"
                   (after [Connection "a" (Some "alice");
                           Join "a" (JObj [("room", JStr "dev")]);
                           ChatMessage "a" (JStr "yo") "n0" 3]) _ _ _ _ _))).
  - reflexivity.
  - reflexivity.
  - discriminate.
  - reflexivity.
  - intros m Hm _. vm_compute in Hm. apply list_elem_of_singleton in Hm as ->. simpl. lia.
Defined.

(** ** Accounts *)

Section account_properties.
Context `{Platform}.


Lemma find_None_elem {A} (f : A → bool) (l : list A) :
  List.find f l = None ↔ ∀ x, x ∈ l → f x = false.
Proof.
  induction l as [|y l IH]; simpl.
  - split; [|done]. by intros _ x ?%elem_of_nil.
  - destruct (f y) eqn:E.
    + split; [done|]. intros Hall. specialize (Hall y (list_elem_of_here _ _)). congruence.
    + rewrite IH. split.
      * intros Hall x [->|Hx]%elem_of_cons; auto.
      * intros Hall x Hx. apply Hall. by right.
Qed.

Lemma find_Some_elem {A} (f : A → bool) (l : list A) x :
  List.find f l = Some x → x ∈ l ∧ f x = true.
Proof.
  induction l as [|y l IH]; simpl; [done|].
  destruct (f y) eqn:E.
  - intros [= ->]. split; [by left | done].
  - intros [Hx Hf]%IH. split; [by right | done].
Qed.

Lemma NoDup_map_inj_on {A B} (f : A → B) (l : list A) x y :
  NoDup (map f l) → x ∈ l → y ∈ l → f x = f y → x = y.
Proof.
  induction l as [|z l IH]; simpl; [by intros _ ?%elem_of_nil|].
  intros [Hz Hl]%NoDup_cons Hx Hy Hxy.
  apply elem_of_cons in Hx as [->|Hx]; apply elem_of_cons in Hy as [->|Hy]; auto.
  - destruct Hz. rewrite Hxy. by apply (list_elem_of_fmap_2 f) in Hy.
  - destruct Hz. rewrite <- Hxy. by apply (list_elem_of_fmap_2 f) in Hx.
Qed.

(** The outcome of a registration: refused with the site as it was, or
    one account appended and the session of the client set. *)
Lemma api_register_run c body nid hash now site :
  (∃ code msg, code ≠ 200
     ∧ api_register c body nid hash now site = (Json code (error_body msg), site))
  ∨ ∃ username password,
      body_field "username" body = JStr username
      ∧ body_field "password" body = JStr password
      ∧ 3 ≤ String.length (trim username) ∧ 6 ≤ String.length password
      ∧ (∀ u, u ∈ users site → taken username u = false)
      ∧ api_register c body nid hash now site =
          (Json 200 (ok_body (mkSessionUser nid (trim username))),
           mkSite (users site ++ [mkUser nid (trim username) hash now])
                  (<[c := mkSessionUser nid (trim username)]> (sessions site))).
Proof.
  unfold api_register.
  destruct (body_field "username" body) as [| | | |username| |];
    try by (left; exists 400; eexists).
  destruct (body_field "password" body) as [| | | |password| |];
    try by (left; exists 400; eexists).
  destruct (Nat.ltb_spec (String.length (trim username)) 3);
    [by (left; exists 400; eexists)|].
  destruct (Nat.ltb_spec (String.length password) 6);
    [by (left; exists 400; eexists)|]. simpl.
  destruct (List.find (taken username) (users site)) eqn:E;
    [by (left; exists 409; eexists)|].
  right. exists username, password. split_and!; try done. by apply find_None_elem.
Qed.

(** The outcome of a login: the route throws or answers 401 with the
    site as it was, or it answers 200 and sets the session of the client
    to the account found. *)
Lemma api_login_run c body site :
  api_login c body site = (Throw, site)
  ∨ api_login c body site = (Normal (Json 401 (error_body "Invalid credentials")), site)
  ∨ ∃ u name password,
      u ∈ users site
      ∧ js_String (body_field "username" body) = Some name
      ∧ user_username u = trim name
      ∧ js_String (body_field "password" body) = Some password
      ∧ bcrypt_compare password (user_passwordHash u) = true
      ∧ api_login c body site =
          (Normal (Json 200 (ok_body (mkSessionUser (user_id u) (user_username u)))),
           mkSite (users site)
                  (<[c := mkSessionUser (user_id u) (user_username u)]> (sessions site))).
Proof.
  unfold api_login. destruct (users site) as [|u0 us] eqn:Hus; [by right; left|].
  destruct (js_String (body_field "username" body)) as [name|]; [|by left].
  destruct (List.find _ (u0 :: us)) as [u|] eqn:E; [|by right; left].
  destruct (js_String (body_field "password" body)) as [password|]; [|by left].
  destruct (bcrypt_compare _ _) eqn:Hc; [|by right; left].
  right. right. exists u, name, password.
  apply find_Some_elem in E as [Hu Hn]. apply String.eqb_eq in Hn. done.
Qed.

Lemma serve_users_grow r site : ∃ later, users (serve r site).2 = users site ++ later.
Proof.
  destruct r as [c body nid hash now|c body|c|c|c]; simpl;
    try (exists []; by rewrite app_nil_r).
  - destruct (api_register_run c body nid hash now site)
      as [(code & msg & _ & ->)|(u & p & _ & _ & _ & _ & _ & ->)].
    + exists []. by rewrite app_nil_r.
    + by eexists.
  - destruct (api_login_run c body site)
      as [->|[->|(u & name & password & _ & _ & _ & _ & _ & ->)]];
      exists []; by rewrite app_nil_r.
Qed.

Lemma serve_all_users_grow rs site :
  ∃ later, users (serve_all rs site) = users site ++ later.
Proof.
  revert site. induction rs as [|r rs IH]; intros site; simpl.
  - exists []. by rewrite app_nil_r.
  - destruct (IH (serve r site).2) as [l2 ->].
    destruct (serve_users_grow r site) as [l1 ->]. exists (l1 ++ l2). by rewrite app_assoc.
Qed.

Lemma serve_names_distinct r site : names_distinct site → names_distinct (serve r site).2.
Proof.
  intros Hd. destruct r as [c body nid hash now|c body|c|c|c]; simpl; try done.
  - destruct (api_register_run c body nid hash now site)
      as [(code & msg & _ & ->)|(u & p & _ & _ & _ & _ & Hfree & ->)]; [done|].
    unfold names_distinct. simpl. rewrite map_app. simpl.
    apply NoDup_app. split_and!; [done | | apply NoDup_singleton].
    intros x Hx ->%list_elem_of_singleton.
    apply list_elem_of_fmap in Hx as (u0 & Hx & Hu0).
    specialize (Hfree u0 Hu0). unfold taken in Hfree.
    apply String.eqb_neq in Hfree. congruence.
  - by destruct (api_login_run c body site)
      as [->|[->|(u & name & password & _ & _ & _ & _ & _ & ->)]].
Qed.

Lemma serve_sessions_registered r site :
  sessions_registered site → sessions_registered (serve r site).2.
Proof.
  intros Hs. destruct r as [c body nid hash now|c body|c|c|c]; simpl; try done.
  - destruct (api_register_run c body nid hash now site)
      as [(code & msg & _ & ->)|(u & p & _ & _ & _ & _ & _ & ->)]; [done|].
    intros c' su. simpl. rewrite lookup_insert. case_decide.
    + intros [= <-]. exists (mkUser nid (trim u) hash now).
      split; [|done]. apply elem_of_app. right. apply list_elem_of_singleton. done.
    + intros (u0 & Hu0 & Hid)%Hs. exists u0. split; [|done]. apply elem_of_app. by left.
  - destruct (api_login_run c body site)
      as [->|[->|(u & name & password & Hu & _ & _ & _ & _ & ->)]]; [done|done|].
    intros c' su. simpl. rewrite lookup_insert. case_decide.
    + intros [= <-]. by exists u.
    + apply Hs.
  - intros c' su. simpl. rewrite lookup_delete. case_decide; [done|]. apply Hs.
Qed.

Lemma serve_all_invariant (P : Site → Prop) rs site :
  (∀ r s, P s → P (serve r s).2) → P site → P (serve_all rs site).
Proof.
  intros Hstep. revert site. induction rs as [|r rs IH]; intros site Hp; simpl; [done|].
  by apply IH, Hstep.
Qed.
End account_properties.

(** No request breaks the uniqueness of account names up to case: when no
    two accounts of the store bear the same name up to case, none do after
    any sequence of requests, each served without another in between. No
    request removes or alters an account either: the accounts of the store
    stay a prefix of the later ones. *)
Theorem account_names_stay_distinct `{Platform} rs site :
  names_distinct site →
  names_distinct (serve_all rs site)
  ∧ ∃ later, users (serve_all rs site) = users site ++ later.
Proof.
  intros Hd. split; [|apply serve_all_users_grow].
  apply (serve_all_invariant names_distinct); [apply serve_names_distinct | done].
Qed.

Lemma account_names_stay_distinct_witness :
  @names_distinct example_platform
    (@serve_all example_platform
       [PostRegister "c1" (credentials "alice" "secret1") "u1" "$2a$10$secret1" 10;
        PostRegister "c2" (credentials "alice" "secret2") "u2" "$2a$10$secret2" 11;
        PostRegister "c2" (credentials "bob" "secret2") "u3" "$2a$10$secret2" 12]
       (mkSite [] ∅)).
Proof.
  refine (proj1 (@account_names_stay_distinct example_platform _ (mkSite [] ∅) _)).
  apply NoDup_nil_2.
Defined.

(** The user of a session is always an account of the store: when the
    site starts with no session, after any sequence of requests every
    session bears the id and the name of one stored account. *)
Theorem sessions_belong_to_accounts `{Platform} rs accounts :
  sessions_registered (serve_all rs (mkSite accounts ∅)).
Proof.
  apply (serve_all_invariant sessions_registered); [apply serve_sessions_registered|].
  intros c su. simpl. by rewrite lookup_empty.
Qed.



(** The outcomes of a login whose body is a JavaScript value, when no two
    accounts bear the same name up to case. With no account in the store
    the answer is 401. Otherwise the route throws when [String] cannot
    convert the user name. When it converts to a string that trims to no
    account's name, the answer is 401. When it trims to the name of an
    account, the route throws when [String] cannot convert the password;
    it answers 200 and sets the session of the client to that account's
    id and name when [bcrypt.compare] accepts the converted password for
    the account's hash; and it answers 401 when not. The 401 is the same
    whether the name is unknown or the password wrong. Whenever the route
    throws or answers 401, neither the accounts nor any session change: a
    client that was logged in stays so. *)
Theorem login_accepts_matching_account `{Platform} c body site :
  js_value body = true →
  names_distinct site →
  (users site = [] →
     api_login c body site =
       (Normal (Json 401 (error_body "Invalid credentials")), site))
  ∧ (users site ≠ [] → js_String (body_field "username" body) = None →
       api_login c body site = (Throw, site))
  ∧ (∀ name, js_String (body_field "username" body) = Some name →
       ((∀ u, u ∈ users site → user_username u ≠ trim name) →
          api_login c body site =
            (Normal (Json 401 (error_body "Invalid credentials")), site))
       ∧ (∀ u, u ∈ users site → user_username u = trim name →
            (js_String (body_field "password" body) = None →
               api_login c body site = (Throw, site))
            ∧ (∀ password, js_String (body_field "password" body) = Some password →
                 api_login c body site =
                   if bcrypt_compare password (user_passwordHash u) then
                     (Normal (Json 200 (ok_body (mkSessionUser (user_id u) (trim name)))),
                      mkSite (users site)
                             (<[c := mkSessionUser (user_id u) (trim name)]> (sessions site)))
                   else (Normal (Json 401 (error_body "Invalid credentials")), site)))).
Proof.
  intros _ Hd. split_and!.
  - intros Hus. unfold api_login. by rewrite Hus.
  - intros Hus Hthrow. unfold api_login. rewrite Hthrow. by destruct (users site).
  - intros name Hname. split.
    + intros Hnone. unfold api_login. rewrite Hname.
      destruct (users site) as [|u0 us] eqn:Hus; [done|].
      replace (List.find _ (u0 :: us)) with (@None User); [done|].
      symmetry. apply find_None_elem. intros u Hu. apply String.eqb_neq. by apply Hnone.
    + intros u Hu Hn.
      assert (List.find (λ u, String.eqb (user_username u) (trim name)) (users site)
              = Some u) as Hfind.
      { destruct (List.find _ (users site)) as [u1|] eqn:E.
        - apply find_Some_elem in E as [Hu1 Hn1]. apply String.eqb_eq in Hn1.
          f_equal. apply (NoDup_map_inj_on _ _ _ _ Hd Hu1 Hu). by rewrite Hn1, Hn.
        - pose proof (proj1 (find_None_elem _ _) E u Hu) as Hne. simpl in Hne.
          apply String.eqb_neq in Hne. done. }
      unfold api_login. rewrite Hname.
      destruct (users site) as [|u0 us] eqn:Hus; [by apply elem_of_nil in Hu|].
      rewrite Hfind. split.
      * by intros ->.
      * intros password ->. rewrite <- Hn. by destruct (bcrypt_compare _ _).
Qed.

Lemma login_accepts_matching_account_witness :
  @api_login example_platform "c1" (credentials "alice" "wrong-password")
    (mkSite [mkUser "u1" "alice" "$2a$10$secret1" 10]
            {["c1" := mkSessionUser "u7" "carol"]})
  = (Normal (Json 401 (error_body "Invalid credentials")),
     mkSite [mkUser "u1" "alice" "$2a$10$secret1" 10]
            {["c1" := mkSessionUser "u7" "carol"]}).
Proof.
  refine (proj2 (proj2 (proj2 (proj2
    (@login_accepts_matching_account example_platform "c1"
       (credentials "alice" "wrong-password")
       (mkSite [mkUser "u1" "alice" "$2a$10$secret1" 10]
               {["c1" := mkSessionUser "u7" "carol"]}) _ _))
    "alice" _)
    (mkUser "u1" "alice" "$2a$10$secret1" 10) _ _)
    "wrong-password" _).
  - reflexivity.
  - apply NoDup_singleton.
  - reflexivity.
  - by apply list_elem_of_singleton.
  - reflexivity.
  - reflexivity.
Defined.

(** ** Names on sockets and on messages are account names *)

Lemma torn_down_messages id st : messages (torn_down id st) = messages st.
Proof. unfold torn_down. by case_match. Qed.

Lemma disconnect_messages id st :
  messages (torn_down id (dequeued id (room_left id (closed id st)))) = messages st.
Proof.
  rewrite torn_down_messages. unfold dequeued, room_left.
  case_decide; case_match; done.
Qed.

Lemma disconnect_username id st :
  username <$> objs (torn_down id (dequeued id (room_left id (closed id st))))
  = username <$> objs st.
Proof.
  rewrite torn_down_field by done.
  rewrite dequeued_objs, room_left_field by done. by apply closed_field.
Qed.

(** An event of an open socket leaves every socket's user name as it was,
    and stores at most one message, under the name of the socket that
    sent it. *)
Lemma step_names st ev st' out :
  is_connection ev = false → step st ev = Some (st', out) →
  username <$> objs st' = username <$> objs st
  ∧ (messages st' = messages st
     ∨ ∃ id m, is_Some (objs st !! id) ∧ msg_username m = username_of id st
               ∧ messages st' = messages st ++ [m]).
Proof.
  intros Hc Hstep.
  destruct ev as [id user|id payload|id text nid now|id v|id nid
                 |id text nid now|id|id]; try done; simpl in Hstep;
    unfold when_open, exec in Hstep.
  - destruct (destructure_room payload) as [room|];
      destruct (is_open id st); try done; injection Hstep as <- _; [|by split; [|left]].
    rewrite on_join_state.
    destruct (safeRoom room) as [sr|] eqn:Hsr; [|by split; [|left]].
    case_decide; [by split; [|left]|].
    split; [by apply switched_room_field | left; apply switched_room_messages].
  - destruct (is_open id st) eqn:Hopen; [|done]. injection Hstep as <- _.
    apply is_open_Some in Hopen as (_ & Hs & _).
    rewrite on_chatMessage_state.
    destruct (truthy_str (currentRoom_of id st)) as [room|]; [|by split; [|left]].
    destruct (safeText text) as [t|]; [|by split; [|left]].
    split; [done|]. right.
    exists id, (mkMsg nid (username_of id st) room t now). done.
  - destruct (is_open id st); [|done]. injection Hstep as <- _.
    unfold state_after. rewrite on_typing_run. by split; [|left].
  - destruct (is_open id st); [|done]. injection Hstep as <- _.
    split; [by apply (on_findStranger_field username) | left; apply on_findStranger_messages].
  - destruct (is_open id st); [|done]. injection Hstep as <- _.
    unfold state_after. rewrite on_strangerMessage_run. by split; [|left].
  - destruct (is_open id st); [|done]. injection Hstep as <- _.
    split; [by apply (on_leaveStranger_field username) | left; apply on_leaveStranger_messages].
  - destruct (is_open id st); [|done]. injection Hstep as <- _.
    rewrite disconnect_state.
    split; [apply disconnect_username | left; apply disconnect_messages].
Qed.

Lemma act_names_registered `{Platform} stored w a w' :
  act w a = Some w' →
  sessions_registered w.1 ∧ names_registered w ∧ authors_registered stored w →
  sessions_registered w'.1 ∧ names_registered w' ∧ authors_registered stored w'.
Proof.
  destruct w as [site st]. intros Hact (Hsess & Hnames & Hauth). simpl in *.
  destruct a as [r|c id|ev]; simpl in Hact.
  - injection Hact as <-. simpl.
    destruct (serve_users_grow r site) as [later Hlater].
    split_and!.
    + by apply serve_sessions_registered.
    + intros id s Hs. destruct (Hnames id s Hs) as (u & Hu & Hn).
      exists u. split; [|done]. simpl. rewrite Hlater. apply elem_of_app. by left.
    + intros m Hm. destruct (Hauth m Hm) as [?|(u & Hu & Hn)]; [by left|].
      right. exists u. split; [|done]. simpl. rewrite Hlater. apply elem_of_app. by left.
  - destruct (is_fresh id st) eqn:Hf; [|done].
    unfold exec in Hact. injection Hact as <-. simpl.
    unfold socket_user. destruct (sessions site !! c) as [su|] eqn:Hc; simpl.
    + split_and!; [done| |done].
      intros x s. unfold state_after. simpl. rewrite lookup_insert.
      case_decide; [|apply Hnames].
      intros [= <-]. simpl. destruct (Hsess c su Hc) as (u & Hu & _ & Hn). by exists u.
    + done.
  - destruct (is_connection ev) eqn:Hev; [done|].
    destruct (step st ev) as [[st' out]|] eqn:Hstep; [|done]. injection Hact as <-.
    destruct (step_names _ _ _ _ Hev Hstep) as [Hfld Hmsgs]. simpl.
    assert (∀ id, username_of id st' = username_of id st) as Hname
      by (intros; by apply username_of_field).
    assert (∀ st0 id s, objs st0 !! id = Some s → username_of id st0 = username s) as Hof.
    { intros st0 id s Hs. unfold username_of. by rewrite Hs. }
    assert (names_registered (site, st')) as Hnames'.
    { intros id s' Hs'. simpl in *.
      assert (is_Some (objs st !! id)) as [s Hs].
      { apply (field_is_Some username st st'); [done | by eexists]. }
      destruct (Hnames id s Hs) as (u & Hu & Hn). exists u. split; [done|].
      by rewrite Hn, <- (Hof st id s), <- Hname, (Hof st' id s') by done. }
    split_and!; [done | done |].
    intros m. unfold authors_registered in Hauth. simpl in *.
    destruct Hmsgs as [->|(id & m0 & [s Hs] & Hm0 & ->)]; [apply Hauth|].
    intros [Hm | ->%list_elem_of_singleton]%elem_of_app; [by apply Hauth|].
    right. destruct (Hnames id s Hs) as (u & Hu & Hn). exists u. split; [done|].
    by rewrite Hm0, (Hof st id s).
Qed.

(** The name on every socket and on every message stored since the start
    is the name of an account. The server starts with the accounts and
    the messages of the store, no session and no socket; requests are
    served, clients open sockets under their sessions, and open sockets
    send events, in any order. Then every socket bears the name of a
    stored account, and so does every stored message that was not in the
    store at the start. *)
Theorem names_are_account_names `{Platform} accounts stored l w :
  acts (mkSite accounts ∅, init stored) l = Some w →
  names_registered w ∧ authors_registered stored w.
Proof.
  intros Hacts.
  assert (sessions_registered (mkSite accounts ∅, init stored).1
          ∧ names_registered (mkSite accounts ∅, init stored)
          ∧ authors_registered stored (mkSite accounts ∅, init stored)) as H0.
  { split_and!.
    - intros c su. simpl. by rewrite lookup_empty.
    - intros id s. simpl. by rewrite lookup_empty.
    - intros m Hm. by left. }
  revert H0 Hacts. generalize (mkSite accounts ∅, init stored).
  induction l as [|a l IH]; intros w0 H0; simpl.
  - intros [= <-]. tauto.
  - destruct (act w0 a) as [w1|] eqn:Ha; [|done].
    intros Hacts. apply (IH w1); [|done]. by eapply act_names_registered.
Qed.

Lemma names_are_account_names_witness :
  ∃ w, @acts example_platform (mkSite [] ∅, init [])
         [Http (PostRegister "c1" (credentials "alice" "secret1") "u1" "$2a$10$secret1" 10);
          OpenSocket "c1" "s1";
          OnSocket (Join "s1" (JObj [("room", JStr "dev")]));
          OnSocket (ChatMessage "s1" (JStr "hi") "m1" 20)] = Some w
       ∧ authors_registered [] w.
Proof.
  eexists. split; [vm_compute; reflexivity|].
  refine (proj2 (@names_are_account_names example_platform [] []
    [Http (PostRegister "c1" (credentials "alice" "secret1") "u1" "$2a$10$secret1" 10);
     OpenSocket "c1" "s1";
     OnSocket (Join "s1" (JObj [("room", JStr "dev")]));
     OnSocket (ChatMessage "s1" (JStr "hi") "m1" 20)] _ _)).
  vm_compute; reflexivity.
Defined.

(** ** Entering a room and leaving it again *)

Lemma members_join_leave id room (m : gmap string (gset string)) :
  id ∉ default ∅ (m !! room) → m !! room ≠ Some ∅ →
  members_leave id room (members_join id room m) = m.
Proof.
  intros Hid Hne. unfold members_leave, members_join. rewrite lookup_insert_eq.
  assert (({[id]} ∪ default ∅ (m !! room)) ∖ {[id]} = default ∅ (m !! room)) as ->
    by set_solver.
  destruct (m !! room) as [set|] eqn:E; simpl.
  - rewrite decide_False.
    + rewrite insert_insert_eq. by apply insert_id.
    + intros ->%size_empty_inv%leibniz_equiv. done.
  - destruct (decide _) as [_|Hn]; [by apply delete_insert_id|].
    destruct Hn. reflexivity.
Qed.

Lemma members_leave_join id room (m : gmap string (gset string)) :
  id ∈ default ∅ (m !! room) →
  members_join id room (members_leave id room m) = m.
Proof.
  intros Hid. unfold members_leave, members_join.
  destruct (m !! room) as [set|] eqn:E; simpl in Hid; [|set_solver].
  assert ({[id]} ∪ set ∖ {[id]} = set) as Hset.
  { apply set_eq. intros x. rewrite elem_of_union, elem_of_difference, elem_of_singleton.
    destruct (decide (x = id)) as [->|]; tauto. }
  case_decide.
  - rewrite lookup_delete_eq. simpl. rewrite insert_delete_eq.
    assert (set ∖ {[id]} = ∅) as Hempty by by apply leibniz_equiv, size_empty_inv.
    rewrite Hempty in Hset. rewrite Hset. by apply insert_id.
  - rewrite lookup_insert_eq. simpl. rewrite insert_insert_eq, Hset. by apply insert_id.
Qed.

Lemma with_rooms_id f s : f (rooms s) = rooms s → with_rooms f s = s.
Proof. destruct s. unfold with_rooms. simpl. by intros ->. Qed.

(** [joinRoom] and [leaveRoom] undo each other. A socket that enters a
    room it was no member of and leaves it again leaves the state as it
    was: the directory has the same rooms with the same members (a room
    created for the socket is deleted again) and the socket is in the same
    groups. A member that leaves its room and enters it again restores the
    state as well, the room being created anew when it was its last
    member. Neither helper emits anything. *)
Theorem joinRoom_leaveRoom_round_trip id room st :
  room ≠ "" →
  (id ∉ members_of room st → roomMembers st !! room ≠ Some ∅ →
   (∀ s, objs st !! id = Some s → room ∉ rooms s) →
   (joinRoom id room ;; leaveRoom id (Some room)) st = (tt, st, []))
  ∧ (id ∈ members_of room st →
     (∀ s, objs st !! id = Some s → room ∈ rooms s) →
     (leaveRoom id (Some room) ;; joinRoom id room) st = (tt, st, [])).
Proof.
  intros Hroom. split.
  - intros Hid Hne Hrooms. cbv [bind]. rewrite joinRoom_run, leaveRoom_run by done.
    simpl. f_equal. f_equal. destruct st as [o io q m ms].
    unfold left_room, joined_room, upd_objs, upd_members. simpl in *. f_equal.
    + rewrite alter_alter_eq. apply alter_id. intros s Hs. simpl.
      unfold with_rooms at 1. simpl. specialize (Hrooms s Hs).
      destruct s as [u c cr sr p rs]. simpl in *. f_equal. set_solver.
    + by apply members_join_leave.
  - intros Hid Hrooms. cbv [bind]. rewrite leaveRoom_run, joinRoom_run by done.
    simpl. f_equal. f_equal. destruct st as [o io q m ms].
    unfold left_room, joined_room, upd_objs, upd_members. simpl in *. f_equal.
    + rewrite alter_alter_eq. apply alter_id. intros s Hs. simpl.
      unfold with_rooms at 1. simpl. specialize (Hrooms s Hs).
      destruct s as [u c cr sr p rs]. simpl in *. f_equal.
      apply set_eq. intros x. rewrite elem_of_union, elem_of_difference, elem_of_singleton.
      destruct (decide (x = room)) as [->|]; tauto.
    + by apply members_leave_join.
Qed.

Lemma joinRoom_leaveRoom_round_trip_witness :
  (joinRoom "b" "dev" ;; leaveRoom "b" (Some "dev"))
    (after [Connection "a" (Some "alice"); Connection "b" (Some "bob");
            Join "a" (JObj [("room", JStr "dev")])])
  = (tt,
     after [Connection "a" (Some "alice"); Connection "b" (Some "bob");
            Join "a" (JObj [("room", JStr "dev")])],
     []).
Proof.
  refine (proj1 (joinRoom_leaveRoom_round_trip "b" "dev"
                   (after [Connection "a" (Some "alice"); Connection "b" (Some "bob");
                           Join "a" (JObj [("room", JStr "dev")])]) _) _ _ _).
  - discriminate.
  - vm_compute. set_solver.
  - vm_compute. discriminate.
  - intros s. vm_compute. intros [= <-]. simpl. set_solver.
Defined.

(** ** Listeners that throw *)

(** A listener that throws has changed nothing and emitted nothing by
    then: the destructuring of the payload of a [join] and the
    conversions of a room name and of a text to a string all come before
    the first change of state and the first emission. A [join] throws
    exactly when its payload is [null] or [undefined] or its room name
    cannot be converted; a [chatMessage], when the connection has a
    current room and the text cannot be converted; a [strangerMessage],
    when the connection has a link to a connected partner and the text
    cannot be converted; no other listener throws. *)
Theorem throwing_listener_changes_nothing st ev :
  (listener_throws st ev = true ↔
   match ev with
   | Join id payload =>
       destructure_room payload = None
       ∨ ∃ room, destructure_room payload = Some room
                 ∧ js_String (js_or room (JStr "general")) = None
   | ChatMessage id text _ _ =>
       is_Some (truthy_str (currentRoom_of id st))
       ∧ js_String (js_nullish text (JStr "")) = None
   | StrangerMessage id text _ _ =>
       (∃ room p, truthy_str (strangerRoom_of id st) = Some room
                  ∧ truthy_str (partnerId_of id st) = Some p
                  ∧ gone (io_get p st) = false)
       ∧ js_String (js_nullish text (JStr "")) = None
   | _ => False
   end)
  ∧ (∀ st' out, listener_throws st ev = true → step st ev = Some (st', out) →
       st' = st ∧ out = []).
Proof.
  destruct ev as [id user|id payload|id text nid now|id v|id nid
                 |id text nid now|id|id]; simpl; try by (split; [split|]).
  - split.
    + destruct (destructure_room payload) as [room|].
      2: { split; [intros _; by left | done]. }
      unfold result. rewrite join_begin_run. unfold safeRoom.
      destruct (js_String (js_or room (JStr "general"))) as [s|] eqn:Hs;
        cbn [fmap option_fmap option_map].
      * split.
        -- by case_decide.
        -- intros [?|(room' & [= <-] & Hr)]; [done|]. congruence.
      * split; [|done]. intros _. right. by exists room.
    + intros st' out Hthrow Hstep. unfold when_open, exec in Hstep.
      destruct (destructure_room payload) as [room|];
        destruct (is_open id st); try done; injection Hstep as <- <-; [|done].
      revert Hthrow. unfold result, state_after, emitted.
      rewrite on_join_run, join_begin_run.
      destruct (safeRoom room) as [sr|]; [by case_decide | done].
  - split.
    + unfold result. rewrite chat_begin_run. cbn [fst snd]. unfold safeText.
      destruct (truthy_str (currentRoom_of id st)) as [room|].
      2: { split; [done|]. by intros [[? ?] _]. }
      destruct (js_String (js_nullish text (JStr ""))) as [s|];
        cbn [fmap option_fmap option_map].
      * split; [done|]. by intros [_ ?].
      * split; [|done]. intros _. split; [by eexists | done].
    + intros st' out Hthrow Hstep. unfold when_open, exec in Hstep.
      destruct (is_open id st); [|done]. injection Hstep as <- <-.
      revert Hthrow. unfold result, state_after, emitted.
      rewrite on_chatMessage_run, chat_begin_run. cbn [fst snd].
      destruct (truthy_str (currentRoom_of id st)) as [room|]; [|done].
      by destruct (safeText text) as [t|].
  - split.
    + unfold result. rewrite on_strangerMessage_run. cbn [fst snd]. unfold safeText.
      destruct (truthy_str (strangerRoom_of id st)) as [room|].
      2: { split; [done|]. by intros [(? & ? & ? & _) _]. }
      destruct (truthy_str (partnerId_of id st)) as [p|].
      2: { split; [done|]. by intros [(? & ? & _ & ? & _) _]. }
      destruct (gone (io_get p st)) eqn:Hg.
      { split; [done|]. intros [(? & p' & _ & [= <-] & Hg') _]. congruence. }
      destruct (js_String (js_nullish text (JStr ""))) as [s|];
        cbn [fmap option_fmap option_map].
      * split; [done|]. by intros [_ ?].
      * split; [|done]. intros _. split; [|done]. by exists room, p.
    + intros st' out Hthrow Hstep. unfold when_open, exec in Hstep.
      destruct (is_open id st); [|done]. injection Hstep as <- <-.
      revert Hthrow. unfold result, state_after, emitted.
      rewrite on_strangerMessage_run. cbn [fst snd].
      destruct (truthy_str (strangerRoom_of id st)) as [room|]; [|done].
      destruct (truthy_str (partnerId_of id st)) as [p|]; [|done].
      destruct (gone (io_get p st)); [done|].
      by destruct (safeText text) as [t|].
Qed.

Lemma throwing_listener_changes_nothing_witness :
  let st := after [Connection "a" (Some "alice"); Connection "b" (Some "bob");
                   FindStranger "a" "n1"; FindStranger "b" "n2"] in
  (∃ room p, truthy_str (strangerRoom_of "a" st) = Some room
             ∧ truthy_str (partnerId_of "a" st) = Some p
             ∧ gone (io_get p st) = false)
  ∧ js_String (js_nullish (JObj [("toString", JNum 1)]) (JStr "")) = None.
Proof.
  intros st.
  refine (proj1 (proj1 (throwing_listener_changes_nothing st
            (StrangerMessage "a" (JObj [("toString", JNum 1)]) "n3" 1700))) _).
  reflexivity.
Defined.
